(** * Styleripper: class-name minification of HTML and CSS trees

    A shallow embedding of [src/styleripper.js] (and of the TypeScript
    revision of the same engine where the two differ), together with the
    properties its specification states.

    Modelling conventions.
    - A JavaScript object used as a dictionary is a finite map over its own
      properties. The operator [in] and a property read also find what the
      object inherits from [Object.prototype] ([constructor], [toString],
      ...); [inherited] gives these properties.
    - [classnames] is an association list in insertion order; [entries]
      gives the order in which [Object.entries] enumerates it.
    - Strings are [string]; [length] counts characters.
    - An exception ([throw]) is the result [None]. *)

From Stdlib Require Import Ascii String List Arith Lia Permutation Sorted.
From stdpp Require Import base option list gmap strings.

Local Open Scope string_scope.
Local Open Scope nat_scope.
Local Open Scope list_scope.
Set Warnings "-register-all".

(** ** Strings *)

Definition backslash : ascii := ascii_of_nat 92.

(** [n.replace(/\\/g, '')] *)
Fixpoint cleanCSSIdentifier (n : string) : string :=
  match n with
  | EmptyString => EmptyString
  | String c rest =>
      if Ascii.eqb c backslash then cleanCSSIdentifier rest
      else String c (cleanCSSIdentifier rest)
  end.

(** [Array.prototype.join] *)
Fixpoint join (sep : string) (l : list string) : string :=
  match l with
  | [] => EmptyString
  | [x] => x
  | x :: rest => x +:+ sep +:+ join sep rest
  end.

(** ** Decimal rendering of a number, as string concatenation performs it *)

Module Decimal.

Definition digitChar (d : nat) : ascii := ascii_of_nat (48 + d).

(** Digits of [n], least significant first. *)
Fixpoint digits (fuel n : nat) : list nat :=
  match fuel with
  | 0 => []
  | S fuel' =>
      (n mod 10) :: (if n <? 10 then [] else digits fuel' (n / 10))
  end.

Definition value (ds : list nat) : nat :=
  fold_right (fun d acc => d + 10 * acc) 0 ds.

Definition toString (n : nat) : string :=
  string_of_list_ascii (map digitChar (rev (digits (S n) n))).

End Decimal.

(** ** The shortest-name generator *)

(** [range(s, e)]: the loop pushes [s], [s+1], ..., [e-1]. *)
Definition range (s e : nat) : list nat := seq s (e - s).

(** [const ascii = range(97, 123).map(c => String.fromCharCode(c))] *)
Definition asciiLetters : list string :=
  map (fun c => String (ascii_of_nat c) EmptyString) (range 97 123).

(** The [while (idx >= ascii.length)] loop; [None] when the fuel runs out
    before the loop condition turns false. *)
Fixpoint whileOver (fuel idx timesOver : nat) : option (nat * nat) :=
  match fuel with
  | 0 => None
  | S fuel' =>
      if length asciiLetters <=? idx
      then whileOver fuel' (idx - length asciiLetters) (S timesOver)
      else Some (idx, timesOver)
  end.

(** [generateShortestName(idx)]; [None] stands for a result that is not a
    string (an index outside [ascii]) or for a loop that does not end. *)
Definition generateShortestName (idx : nat) : option string :=
  match whileOver (S idx) idx 0 with
  | None => None
  | Some (idx', timesOver) =>
      match asciiLetters !! idx' with
      | None => None
      | Some letter =>
          if timesOver =? 0 then Some letter
          else Some (letter +:+ Decimal.toString (timesOver - 1))
      end
  end.

(** The [j]-th letter, and the name of round [q] (0 for the single
    letters) with letter [r]: what [generateShortestName] returns, in closed
    form. *)
Definition letter (j : nat) : string :=
  String (ascii_of_nat (97 + j)) EmptyString.

Definition shortName (q r : nat) : string :=
  if q =? 0 then letter r else letter r +:+ Decimal.toString (q - 1).

(** ** Values and inherited properties

    The values the code meets under a property name: short names, object
    literals, and what every object inherits. *)

Inductive JSValue : Type :=
| JSString (s : string)
| JSObject
| JSFunction (name : string)
| JSNaN.

(** [String(v)], as [Array.prototype.join] applies it to an item. A
    built-in function named [f] reads [function f() { [native code] }]. *)
Definition JSValue_toString (v : JSValue) : string :=
  match v with
  | JSString s => s
  | JSObject => "[object Object]"
  | JSFunction name => "function " +:+ name +:+ "() { [native code] }"
  | JSNaN => "NaN"
  end.

(** The function-valued properties of [Object.prototype] other than
    [constructor]; each holds the built-in function of its own name. *)
Definition prototypeFunctions : list string :=
  ["__defineGetter__"; "__defineSetter__"; "hasOwnProperty";
   "__lookupGetter__"; "__lookupSetter__"; "isPrototypeOf";
   "propertyIsEnumerable"; "toString"; "valueOf"; "toLocaleString"].

(** [Object.prototype[name]]: what an object literal inherits under
    [name]. [constructor] is the function [Object], and [__proto__] reads
    as [Object.prototype] itself. [polluted] tells whether
    [Object.prototype] has been given a property [count], which the counting
    code does when it meets the name [__proto__] (see [incrementCount]); the
    value of that property is NaN. *)
Definition inherited (polluted : bool) (name : string) : option JSValue :=
  if decide (name = "constructor") then Some (JSFunction "Object")
  else if decide (name ∈ prototypeFunctions) then Some (JSFunction name)
  else if decide (name = "__proto__") then Some JSObject
  else if polluted && bool_decide (name = "count") then Some JSNaN
  else None.

Definition isInherited (polluted : bool) (name : string) : bool :=
  match inherited polluted name with
  | Some _ => true
  | None => false
  end.

(** A name under which no object inherits a property, whether
    [Object.prototype] has a property [count] or not. *)
Definition plainName (name : string) : bool := negb (isInherited true name).

(** ** The classname counts

    [classnames] maps a class token to its running count; the entries keep
    their insertion order. The state of the counting code is the pair of
    [polluted] and [classnames]. *)

Definition Classnames := list (string * nat).

(** [name] is an own key of [classnames]. *)
Fixpoint hasKey (name : string) (classnames : Classnames) : bool :=
  match classnames with
  | [] => false
  | (k, _) :: rest => if decide (k = name) then true else hasKey name rest
  end.

(** [classnames[name].count] of an own key, 0 standing for an absent key in
    statements *)
Fixpoint countOf (name : string) (classnames : Classnames) : nat :=
  match classnames with
  | [] => 0
  | (k, c) :: rest => if decide (k = name) then c else countOf name rest
  end.

(** [classnames[name].count++] on an own key *)
Fixpoint increment (name : string) (classnames : Classnames) : Classnames :=
  match classnames with
  | [] => []
  | (k, c) :: rest =>
      if decide (k = name) then (k, S c) :: rest
      else (k, c) :: increment name rest
  end.

(** [name in classnames] *)
Definition inClassnames (polluted : bool) (name : string)
  (classnames : Classnames) : bool :=
  hasKey name classnames || isInherited polluted name.

(** [classnames[name].count++] for a [name in classnames]. On an own key
    the count goes up by one. An inherited name reads an object outside
    [classnames], and the increment gives that object a property [count]
    holding NaN: [classnames] stays as it is, and when the object is
    [Object.prototype], read under [__proto__], every object inherits
    [count] from then on. *)
Definition incrementCount (s : bool * Classnames) (name : string)
  : bool * Classnames :=
  let '(polluted, classnames) := s in
  if hasKey name classnames then (polluted, increment name classnames)
  else (polluted || bool_decide (name = "__proto__"), classnames).

(** ** HTML trees *)

Inductive HTMLNode : Type :=
| HTMLElement (tagName : string) (attributes : list (string * string))
    (classNames : list string) (childNodes : list HTMLNode)
| TextNode (rawText : string).

(** The body of [for (const className of node.classNames)]. *)
Definition countClassName (s : bool * Classnames) (className : string)
  : bool * Classnames :=
  if inClassnames s.1 className s.2 then incrementCount s className
  else (s.1, s.2 ++ [(className, 1)]).

Fixpoint parseHTMLNodeChildren (s : bool * Classnames) (node : HTMLNode)
  : bool * Classnames :=
  match node with
  | HTMLElement _ _ classNames childNodes =>
      fold_left parseHTMLNodeChildren childNodes
        (fold_left countClassName classNames s)
  | TextNode _ => s
  end.

(** Every class token of a tree, in the order the counter meets them. *)
Fixpoint classTokens (node : HTMLNode) : list string :=
  match node with
  | HTMLElement _ _ classNames childNodes =>
      classNames ++ flat_map classTokens childNodes
  | TextNode _ => []
  end.

(** ** The rename map

    Its own entries are what the code stores: short names, and the object
    literal the map of [rip] starts with. *)

Abbreviation Rename := (gmap string JSValue).

(** [const rename = { classnames: {} }] *)
Definition renameInit : Rename := {[ "classnames" := JSObject ]}.

(** [element.setAttribute(key, value)] on the attribute table. *)
Fixpoint setAttribute (attributes : list (string * string)) (key value : string)
  : list (string * string) :=
  match attributes with
  | [] => [(key, value)]
  | (k, v) :: rest =>
      if decide (k = key) then (k, value) :: rest
      else (k, v) :: setAttribute rest key value
  end.

Fixpoint getAttribute (attributes : list (string * string)) (key : string)
  : option string :=
  match attributes with
  | [] => None
  | (k, v) :: rest =>
      if decide (k = key) then Some v else getAttribute rest key
  end.

(** [c => { if (c in rename) return rename[c]; return c }]: an own entry
    is read first, then what [rename] inherits under [c]. *)
Definition replaceToken (polluted : bool) (rename : Rename) (c : string)
  : JSValue :=
  match rename !! c with
  | Some v => v
  | None =>
      match inherited polluted c with
      | Some v => v
      | None => JSString c
      end
  end.

Fixpoint processHTMLNodeChildren (polluted : bool) (rename : Rename)
  (node : HTMLNode) : HTMLNode :=
  match node with
  | HTMLElement tagName attributes classNames childNodes =>
      let replace := map (replaceToken polluted rename) classNames in
      let attributes' :=
        if 0 <? length replace
        then setAttribute attributes "class"
               (join " " (map JSValue_toString replace))
        else attributes in
      HTMLElement tagName attributes' classNames
        (map (processHTMLNodeChildren polluted rename) childNodes)
  | TextNode rawText => TextNode rawText
  end.

(** The TypeScript revision has the same function under another name. *)
Definition renameHTMLNodes := processHTMLNodeChildren.

(** The elements of a tree in document order: attribute table and class
    tokens of each. *)
Fixpoint elementsOf (node : HTMLNode)
  : list (list (string * string) * list string) :=
  match node with
  | HTMLElement _ attributes classNames childNodes =>
      (attributes, classNames) :: flat_map elementsOf childNodes
  | TextNode _ => []
  end.

(** The token a class token is replaced by, as text. *)
Definition renamedToken (polluted : bool) (rename : Rename) (c : string)
  : string :=
  JSValue_toString (replaceToken polluted rename c).

(** What the rewrite pass does to one element, in closed form. *)
Definition rewriteElement (polluted : bool) (rename : Rename)
  (e : list (string * string) * list string)
  : list (string * string) * list string :=
  (if 0 <? length e.2
   then setAttribute e.1 "class"
          (join " " (map (renamedToken polluted rename) e.2))
   else e.1, e.2).

(** ** CSS trees

    The part of a css-tree AST the engine looks at. A selector is the list
    of its components; a pseudo-class such as [:not(...)] carries the
    selectors of its argument. A rule has a block of declarations, kept as
    text, and as prelude a selector list or, where css-tree could not parse
    one, the raw text. An at-rule such as [@media] has a block of nodes. A
    comment node stands for a comment the parser keeps, which it does at the
    top level for comments that begin with an exclamation mark. Every other
    node is kept as text. *)

Inductive Component : Type :=
| ClassSelector (name : string)
| PseudoClassSelector (name : string) (children : list (list Component))
| OtherSelector (type : string) (name : string).

Abbreviation Selector := (list Component).

Inductive CssNode : Type :=
| Rule (prelude : list Selector) (block : string)
| RawRule (prelude : string) (block : string)
| Atrule (name : string) (prelude : string) (block : list CssNode)
| Comment (value : string)
| OtherNode (text : string).

Abbreviation StyleSheet := (list CssNode).

(** *** Traversals *)

Section Each.
Context {S A B : Type} (f : S -> A -> option (S * B)).

(** Visit the items of a list in order, threading a state; an exception
    in a callback ends the traversal. *)
Fixpoint eachM (s : S) (l : list A) : option (S * list B) :=
  match l with
  | [] => Some (s, [])
  | a :: rest =>
      match f s a with
      | None => None
      | Some (s', b) =>
          match eachM s' rest with
          | None => None
          | Some (s'', bs) => Some (s'', b :: bs)
          end
      end
  end.
End Each.

Section EachRemove.
Context {A : Type} (f : A -> option (option A)).

(** Visit the items of a list in order; the callback may unlink the
    item it is called on ([Some None]) or throw ([None]). *)
Fixpoint eachRemove (l : list A) : option (list A) :=
  match l with
  | [] => Some []
  | a :: rest =>
      match f a with
      | None => None
      | Some r =>
          match eachRemove rest with
          | None => None
          | Some rest' =>
              Some (match r with Some a' => a' :: rest' | None => rest' end)
          end
      end
  end.
End EachRemove.

Section WalkClassSelector.
Context {S : Type} (enter : S -> string -> option (S * string)).

(** [csstree.walk(ast, { visit: 'ClassSelector', enter })]: [enter] sees
    the node's name and the state, and may assign a new name. *)
Fixpoint walkComponent (s : S) (c : Component) : option (S * Component) :=
  match c with
  | ClassSelector name =>
      match enter s name with
      | None => None
      | Some (s', name') => Some (s', ClassSelector name')
      end
  | PseudoClassSelector name children =>
      match eachM (eachM walkComponent) s children with
      | None => None
      | Some (s', children') => Some (s', PseudoClassSelector name children')
      end
  | OtherSelector type name => Some (s, OtherSelector type name)
  end.

Fixpoint walkNode (s : S) (n : CssNode) : option (S * CssNode) :=
  match n with
  | Rule prelude block =>
      match eachM (eachM walkComponent) s prelude with
      | None => None
      | Some (s', prelude') => Some (s', Rule prelude' block)
      end
  | RawRule prelude block => Some (s, RawRule prelude block)
  | Atrule name prelude block =>
      match eachM walkNode s block with
      | None => None
      | Some (s', block') => Some (s', Atrule name prelude block')
      end
  | Comment value => Some (s, Comment value)
  | OtherNode text => Some (s, OtherNode text)
  end.

Definition walkClassSelectors (s : S) (ast : StyleSheet)
  : option (S * StyleSheet) :=
  eachM walkNode s ast.
End WalkClassSelector.

(** *** Dead-rule elimination

    [isEmptyGuard] tells the two revisions apart: the TypeScript one tests
    [list.isEmpty()] before it looks at a class selector, the JavaScript one
    does not. *)

(** [list.isEmpty()] *)
Definition isEmpty {A} (l : list A) : bool :=
  match l with [] => true | _ => false end.

Section Prune.
Context (isEmptyGuard : bool) (polluted : bool) (classnames : Classnames).

(** [selector.children.each((s) => { ... list.remove(item) })].
    [removed] tells whether [item] has been unlinked already and
    [othersEmpty] whether the selector list holds no other item. Unlinking
    an item a second time makes the list throw. *)
Fixpoint scanSelector (othersEmpty removed : bool) (children : Selector)
  : option bool :=
  match children with
  | [] => Some removed
  | ClassSelector name :: rest =>
      if (isEmptyGuard && (removed && othersEmpty))
         || inClassnames polluted (cleanCSSIdentifier name) classnames
      then scanSelector othersEmpty removed rest
      else if removed then None
      else scanSelector othersEmpty true rest
  | _ :: rest => scanSelector othersEmpty removed rest
  end.

(** [prelude.children.each((selector, item, list) => { ... })]: [kept]
    holds the visited selectors still linked, [rest] the ones to visit;
    [ruleRemoved] tells whether the rule has been unlinked from its
    parent. *)
Fixpoint eachSelector (kept rest : list Selector) (ruleRemoved : bool)
  : option (list Selector * bool) :=
  match rest with
  | [] => Some (kept, ruleRemoved)
  | selector :: rest' =>
      match scanSelector (isEmpty kept && isEmpty rest') false selector with
      | None => None
      | Some removed =>
          let kept' := if removed then kept else kept ++ [selector] in
          if isEmpty kept' && isEmpty rest' then
            if ruleRemoved then None
            else eachSelector kept' rest' true
          else eachSelector kept' rest' ruleRemoved
      end
  end.

(** [csstree.walk(ast, { visit: 'Rule', enter })]. A raw prelude has no
    [children], so that [node.prelude.children.each] throws a TypeError. *)
Fixpoint pruneNode (n : CssNode) : option (option CssNode) :=
  match n with
  | Rule prelude block =>
      match eachSelector [] prelude false with
      | None => None
      | Some (prelude', true) => Some None
      | Some (prelude', false) => Some (Some (Rule prelude' block))
      end
  | RawRule prelude block => None
  | Atrule name prelude block =>
      match eachRemove pruneNode block with
      | None => None
      | Some block' => Some (Some (Atrule name prelude block'))
      end
  | Comment value => Some (Some (Comment value))
  | OtherNode text => Some (Some (OtherNode text))
  end.

Definition pruneRules (ast : StyleSheet) : option StyleSheet :=
  eachRemove pruneNode ast.
End Prune.

(** The callback of the counting walk. *)
Definition countEnter (s : bool * Classnames) (nodeName : string)
  : option ((bool * Classnames) * string) :=
  let name := cleanCSSIdentifier nodeName in
  if inClassnames s.1 name s.2 then Some (incrementCount s name, nodeName)
  else None.

Definition countClassSelectors (s : bool * Classnames) (ast : StyleSheet)
  : option ((bool * Classnames) * StyleSheet) :=
  walkClassSelectors countEnter s ast.

(** The part of [parseCSS] after [csstree.parse]. *)
Definition parseCSSWith (isEmptyGuard : bool) (s : bool * Classnames)
  (ast : StyleSheet) : option ((bool * Classnames) * StyleSheet) :=
  match pruneRules isEmptyGuard s.1 s.2 ast with
  | None => None
  | Some ast' => countClassSelectors s ast'
  end.

Definition parseCSS := parseCSSWith false.

(** [cssTree.walk(ast, { visit: 'Comment', enter: (_, item, list) =>
    list.remove(item) })] *)
Fixpoint removeComment (n : CssNode) : option CssNode :=
  match n with
  | Comment _ => None
  | Atrule name prelude block =>
      Some (Atrule name prelude (omap removeComment block))
  | _ => Some n
  end.

Definition removeComments (ast : StyleSheet) : StyleSheet :=
  omap removeComment ast.

(** The TypeScript revision: its first walk unlinks the comments. Its
    counter is [nodes[name]++], which agrees with [incrementCount] on own
    keys; under a name that is inherited only it stores NaN, which the
    counts here cannot hold, so that this model of the TypeScript revision
    speaks for names that are own keys or not [in nodes] at all. *)
Definition parseAndTrackCSSNodes (s : bool * Classnames) (ast : StyleSheet)
  : option ((bool * Classnames) * StyleSheet) :=
  parseCSSWith true s (removeComments ast).

(** ** Closed forms used in the statements *)

(** A class selector whose clean identifier is not [in classnames]. *)
Definition unknownClass (polluted : bool) (classnames : Classnames)
  (c : Component) : bool :=
  match c with
  | ClassSelector name =>
      negb (inClassnames polluted (cleanCSSIdentifier name) classnames)
  | _ => false
  end.

(** A selector none of whose components is an unknown class selector. *)
Definition keepsSelector (polluted : bool) (classnames : Classnames)
  (selector : Selector) : bool :=
  forallb (fun c => negb (unknownClass polluted classnames c)) selector.

(** What the pruning walk leaves of a tree when it completes: in every rule
    the selectors that hold an unknown class selector are gone, and a rule
    whose selectors are all gone is gone itself. *)
Fixpoint prunedNode (polluted : bool) (classnames : Classnames) (n : CssNode)
  : option CssNode :=
  match n with
  | Rule prelude block =>
      let prelude' := List.filter (keepsSelector polluted classnames) prelude in
      if isEmpty prelude' && negb (isEmpty prelude) then None
      else Some (Rule prelude' block)
  | Atrule name prelude block =>
      Some (Atrule name prelude (omap (prunedNode polluted classnames) block))
  | _ => Some n
  end.

Definition prunedSheet (polluted : bool) (classnames : Classnames)
  (ast : StyleSheet) : StyleSheet :=
  omap (prunedNode polluted classnames) ast.

(** Dead-rule elimination as the specification words it: unknown class
    selectors are taken out of their selector, a selector goes when no
    component is left, a rule goes when no selector is left. *)
Definition specSelector (polluted : bool) (classnames : Classnames)
  (selector : Selector) : Selector :=
  List.filter (fun c => negb (unknownClass polluted classnames c)) selector.

Fixpoint specNode (polluted : bool) (classnames : Classnames) (n : CssNode)
  : option CssNode :=
  match n with
  | Rule prelude block =>
      let prelude' :=
        List.filter (fun s => negb (isEmpty s))
          (map (specSelector polluted classnames) prelude) in
      if isEmpty prelude' then None else Some (Rule prelude' block)
  | Atrule name prelude block =>
      Some (Atrule name prelude (omap (specNode polluted classnames) block))
  | _ => Some n
  end.

Definition specSheet (polluted : bool) (classnames : Classnames)
  (ast : StyleSheet) : StyleSheet :=
  omap (specNode polluted classnames) ast.

(** The names of all class selectors of a tree, in the order a walk meets
    them, those inside pseudo-class arguments included. *)
Fixpoint componentClasses (c : Component) : list string :=
  match c with
  | ClassSelector name => [name]
  | PseudoClassSelector _ children =>
      flat_map (flat_map componentClasses) children
  | OtherSelector _ _ => []
  end.

Fixpoint nodeClasses (n : CssNode) : list string :=
  match n with
  | Rule prelude _ => flat_map (flat_map componentClasses) prelude
  | Atrule _ _ block => flat_map nodeClasses block
  | _ => []
  end.

Definition sheetClasses (ast : StyleSheet) : list string :=
  flat_map nodeClasses ast.

(** No class selector sits inside a pseudo-class argument. *)
Definition flatComponent (c : Component) : bool :=
  match c with
  | PseudoClassSelector _ children =>
      isEmpty (flat_map (flat_map componentClasses) children)
  | _ => true
  end.

Fixpoint flatNode (n : CssNode) : bool :=
  match n with
  | Rule prelude _ => forallb (forallb flatComponent) prelude
  | Atrule _ _ block => forallb flatNode block
  | _ => true
  end.

Definition flatSheet (ast : StyleSheet) : bool := forallb flatNode ast.

(** Every selector holds at most one unknown class selector. *)
Definition singleUnknown (polluted : bool) (classnames : Classnames)
  (selector : Selector) : bool :=
  length (List.filter (unknownClass polluted classnames) selector) <=? 1.

(** No rule of the tree has a raw prelude, and every selector holds at most
    one unknown class selector. *)
Fixpoint singleUnknownNode (polluted : bool) (classnames : Classnames)
  (n : CssNode) : bool :=
  match n with
  | Rule prelude _ => forallb (singleUnknown polluted classnames) prelude
  | RawRule _ _ => false
  | Atrule _ _ block => forallb (singleUnknownNode polluted classnames) block
  | _ => true
  end.

(** ** Ranking *)

Record Ranked : Type := { name : string; total : nat }.

(** The value of a key that is an array index: a decimal numeral without a
    leading zero, below [2^32 - 1]. *)
Definition digitValue (c : ascii) : option N :=
  let n := N_of_ascii c in
  if ((48 <=? n) && (n <=? 57))%N then Some (n - 48)%N else None.

Fixpoint decimalValue (acc : N) (s : string) : option N :=
  match s with
  | EmptyString => Some acc
  | String c rest =>
      match digitValue c with
      | None => None
      | Some d => decimalValue (10 * acc + d)%N rest
      end
  end.

Definition arrayIndex (key : string) : option N :=
  match key with
  | EmptyString => None
  | String c rest =>
      if Ascii.eqb c (ascii_of_nat 48) && negb (String.eqb rest EmptyString)
      then None
      else
        match decimalValue 0 key with
        | Some n => if (n <? 4294967295)%N then Some n else None
        | None => None
        end
  end.

Fixpoint insertIndex (x : N * (string * nat)) (l : list (N * (string * nat)))
  : list (N * (string * nat)) :=
  match l with
  | [] => [x]
  | y :: rest =>
      if (y.1 <? x.1)%N then y :: insertIndex x rest else x :: y :: rest
  end.

(** [Object.entries(classnames)]: the keys that are array indices come
    first, in ascending order, the other keys follow in insertion order. *)
Definition entries (classnames : Classnames) : Classnames :=
  map snd
    (fold_right insertIndex []
       (omap (fun e => match arrayIndex e.1 with
                       | Some n => Some (n, e)
                       | None => None
                       end) classnames))
  ++ List.filter (fun e => match arrayIndex e.1 with
                           | Some _ => false
                           | None => true
                           end) classnames.

(** [.map(([name, sel]) => { name, total: name.length * sel.count })] on
    the entries *)
Definition totals (classnames : Classnames) : list Ranked :=
  map (fun '(name, count) => {| name := name; total := String.length name * count |})
    classnames.

(** [.sort((a, b) => b.total - a.total)], a stable sort. *)
Fixpoint insertDesc (x : Ranked) (l : list Ranked) : list Ranked :=
  match l with
  | [] => [x]
  | y :: rest =>
      if total x <? total y then y :: insertDesc x rest
      else x :: y :: rest
  end.

Definition sortDesc (l : list Ranked) : list Ranked :=
  fold_right insertDesc [] l.

Definition sorted (classnames : Classnames) : list Ranked :=
  sortDesc (totals classnames).

(** ** Rewriting CSS *)

(** The callback of the renaming walk for the entry [sel] at index [i]. *)
Definition renameEnter (i : nat) (sel : Ranked) (rename : Rename)
  (nodeName : string) : option (Rename * string) :=
  let name' := cleanCSSIdentifier nodeName in
  if decide (name' = name sel) then
    match generateShortestName i with
    | None => None
    | Some newname => Some (<[ name' := JSString newname ]> rename, newname)
    end
  else Some (rename, nodeName).

(** [for (const [i, sel] of sorted.entries())], from index [i] on. *)
Fixpoint processCSSFrom (i : nat) (sorted : list Ranked) (rename : Rename)
  (ast : StyleSheet) : option (Rename * StyleSheet) :=
  match sorted with
  | [] => Some (rename, ast)
  | sel :: rest =>
      match walkClassSelectors (renameEnter i sel) rename ast with
      | None => None
      | Some (rename', ast') => processCSSFrom (S i) rest rename' ast'
      end
  end.

Definition processCSS (sorted : list Ranked) (rename : Rename)
  (ast : StyleSheet) : option (Rename * StyleSheet) :=
  processCSSFrom 0 sorted rename ast.

(** Every entry of the rename map was in the map [init] the rewrite began
    with, or maps the classname ranked [i] to the name the generator gives
    for [i]. *)
Definition rankedEntries (init : Rename) (sorted : list Ranked) (rename : Rename)
  : Prop :=
  forall k v,
    rename !! k = Some v ->
    init !! k = Some v \/
    exists i sel s,
      sorted !! i = Some sel /\ name sel = k /\
      generateShortestName i = Some s /\ v = JSString s.

(** ** The orchestrator *)

Record Ripped : Type := {
  html : list HTMLNode;
  css : list StyleSheet;
  renames : Rename
}.

(** [rip] on parsed files: the HTML trees and the CSS trees, in order.
    [polluted] is the state of [Object.prototype] when [rip] is called. *)
Definition rip (polluted : bool) (htmlFiles : list HTMLNode)
  (cssFiles : list StyleSheet) : option Ripped :=
  let s := fold_left parseHTMLNodeChildren htmlFiles (polluted, []) in
  match eachM parseCSS s cssFiles with
  | None => None
  | Some ((polluted', classnames'), asts) =>
      match
        eachM (processCSS (sorted (entries classnames'))) renameInit asts
      with
      | None => None
      | Some (rename, asts') =>
          Some {| html := map (processHTMLNodeChildren polluted' rename) htmlFiles;
                  css := asts';
                  renames := rename |}
      end
  end.

(** ** Further closed forms *)

Definition isLowerLetter (c : ascii) : bool :=
  (97 <=? nat_of_ascii c) && (nat_of_ascii c <=? 122).

Definition isDigit (c : ascii) : bool :=
  (48 <=? nat_of_ascii c) && (nat_of_ascii c <=? 57).

(** An HTML tree with the class attribute taken out of every attribute
    table: what the rewrite pass must leave alone. *)
Fixpoint withoutClass (node : HTMLNode) : HTMLNode :=
  match node with
  | HTMLElement tagName attributes classNames childNodes =>
      HTMLElement tagName
        (List.filter (fun kv => negb (bool_decide (kv.1 = "class"))) attributes)
        classNames (map withoutClass childNodes)
  | TextNode rawText => TextNode rawText
  end.

(** A CSS tree with the name of every class selector blanked: what a walk
    over the class selectors must leave alone. *)
Fixpoint eraseComponent (c : Component) : Component :=
  match c with
  | ClassSelector _ => ClassSelector EmptyString
  | PseudoClassSelector name children =>
      PseudoClassSelector name (map (map eraseComponent) children)
  | OtherSelector type name => OtherSelector type name
  end.

Fixpoint eraseNode (n : CssNode) : CssNode :=
  match n with
  | Rule prelude block => Rule (map (map eraseComponent) prelude) block
  | Atrule name prelude block => Atrule name prelude (map eraseNode block)
  | _ => n
  end.

(** No rule of the tree has a raw prelude, and no selector holds an unknown
    class selector. *)
Fixpoint keptNode (polluted : bool) (classnames : Classnames) (n : CssNode)
  : bool :=
  match n with
  | Rule prelude _ => forallb (keepsSelector polluted classnames) prelude
  | RawRule _ _ => false
  | Atrule _ _ block => forallb (keptNode polluted classnames) block
  | _ => true
  end.

(** The result of a traversal seen through [h]. *)
Definition onResult {S A B : Type} (h : A -> B) (r : option (S * A))
  : option (S * B) :=
  match r with
  | Some (s, a) => Some (s, h a)
  | None => None
  end.

(** A class selector name whose clean identifier is [in classnames]. *)
Definition knownName (polluted : bool) (classnames : Classnames)
  (nodeName : string) : bool :=
  inClassnames polluted (cleanCSSIdentifier nodeName) classnames.

(** A name at which the increment gives [Object.prototype] a property
    [count]. *)
Definition pollutes (classnames : Classnames) (name : string) : bool :=
  negb (hasKey name classnames) && bool_decide (name = "__proto__").

(** The counts after a class token under which nothing is inherited. *)
Definition countPlain (classnames : Classnames) (className : string)
  : Classnames :=
  if hasKey className classnames then increment className classnames
  else classnames ++ [(className, 1)].

(** Every class selector name of the list is known when the counting walk
    comes to it. *)
Fixpoint allKnown (polluted : bool) (classnames : Classnames)
  (nodeNames : list string) : bool :=
  match nodeNames with
  | [] => true
  | nodeName :: rest =>
      knownName polluted classnames nodeName
      && allKnown
           (polluted || pollutes classnames (cleanCSSIdentifier nodeName))
           classnames rest
  end.

(** Whether [Object.prototype] has a property [count] after the counting
    walk has met the class selector names of the list. *)
Definition pollutedAfter (polluted : bool) (classnames : Classnames)
  (nodeNames : list string) : bool :=
  polluted
  || existsb (fun nodeName => pollutes classnames (cleanCSSIdentifier nodeName))
       nodeNames.

(** The counts after one increment for each of the class selector names. *)
Definition countNames (classnames : Classnames) (nodeNames : list string)
  : Classnames :=
  fold_left (fun s nodeName => increment (cleanCSSIdentifier nodeName) s)
    nodeNames classnames.

(** The name the ranking plans for a class selector: the generated name of
    the first rank, counted from [i], whose classname is the selector's
    clean identifier, and the selector's own name when there is none. *)
Fixpoint plannedName (i : nat) (sorted : list Ranked) (nodeName : string)
  : option string :=
  match sorted with
  | [] => Some nodeName
  | sel :: rest =>
      if decide (cleanCSSIdentifier nodeName = name sel)
      then generateShortestName i
      else plannedName (S i) rest nodeName
  end.

(** No classname is the name generated for a better rank. *)
Definition collisionFree (names : list string) : Prop :=
  forall j k n s,
    k < j -> names !! j = Some n -> generateShortestName k = Some s -> n <> s.

(** No class token of the list is one of the names the generator gives to
    the first [ranks] ranks. *)
Definition freshTokens (tokens : list string) (ranks : nat) : Prop :=
  forall t k s,
    t ∈ tokens -> k < ranks -> generateShortestName k = Some s -> t <> s.

(** The rewrite pass on the list of the class selector names of a tree. *)
Fixpoint processNamesFrom (i : nat) (sorted : list Ranked) (rename : Rename)
  (nodeNames : list string) : option (Rename * list string) :=
  match sorted with
  | [] => Some (rename, nodeNames)
  | sel :: rest =>
      match eachM (renameEnter i sel) rename nodeNames with
      | None => None
      | Some (rename', nodeNames') => processNamesFrom (S i) rest rename' nodeNames'
      end
  end.

(** ** The build script

    The pure part of the build script that comes with the TypeScript
    revision. Characters are code units below 256. *)

Record File : Type := { path : string; data : string }.

(** [files.reduce((acc, f) => f.data + acc, '')] *)
Definition concatFiles (files : list File) : string :=
  fold_left (fun acc f => data f +:+ acc) files EmptyString.

(** [s.endsWith(searchString)] *)
Definition endsWith (s searchString : string) : bool :=
  (String.length searchString <=? String.length s) &&
  String.eqb
    (substring (String.length s - String.length searchString)
       (String.length searchString) s)
    searchString.

(** A directory entry as [dir.readSync()] returns it, a directory with the
    entries it holds, in reading order. *)
Inductive Dirent : Type :=
| FileEntry (name : string)
| DirEntry (name : string) (entries : list Dirent).

Section Walk.
(** [path.join] of the Node library. *)
Context (join : string -> string -> string).
Context {S : Type}.

(** [walk(path, exclude, fn)] over the entries of the directory [path];
    [fn] acts on the state [S]. With [dirFirst] the callback is called on a
    directory before its entries are walked, as the older build script does;
    without, after. *)
Fixpoint walkEntry (dirFirst : bool) (exclude : list string)
  (fn : string -> bool -> S -> S) (path : string) (dirent : Dirent) (s : S) : S :=
  match dirent with
  | FileEntry name => fn (join path name) false s
  | DirEntry name entries =>
      let full := join path name in
      if existsb (endsWith full) exclude then s
      else if dirFirst
      then fold_left (fun s d => walkEntry dirFirst exclude fn full d s) entries
             (fn full true s)
      else fn full true
             (fold_left (fun s d => walkEntry dirFirst exclude fn full d s)
                entries s)
  end.

Definition walk (dirFirst : bool) (exclude : list string)
  (fn : string -> bool -> S -> S) (path : string) (entries : list Dirent) (s : S)
  : S :=
  fold_left (fun s d => walkEntry dirFirst exclude fn path d s) entries s.
End Walk.

(** The callback of [collect]. *)
Definition collectCallback (extensions exclude : list string)
  (path : string) (isDir : bool) (files : list string) : list string :=
  if isDir then files
  else if negb (existsb (endsWith path) extensions) then files
  else if negb (isEmpty exclude) && existsb (endsWith path) exclude then files
  else files ++ [path].

(** [collect(path, extensions, exclude)] on the directory tree under
    [path]. *)
Definition collect (join : string -> string -> string) (dirFirst : bool)
  (path : string) (extensions exclude : list string) (entries : list Dirent)
  : list string :=
  walk join dirFirst exclude (collectCallback extensions exclude) path entries [].

(** A regular expression dot matches any character but a line terminator. *)
Definition isLineTerminator (c : ascii) : bool :=
  (nat_of_ascii c =? 10) || (nat_of_ascii c =? 13).

Definition slash : ascii := ascii_of_nat 47.

(** What follows a match of [.+?\/] whose first character is taken: the
    lazy quantifier stops at the first slash; there is no match when a line
    terminator or the end of the string comes first. *)
Fixpoint afterSlash (s : string) : option string :=
  match s with
  | EmptyString => None
  | String c rest =>
      if Ascii.eqb c slash then Some rest
      else if isLineTerminator c then None
      else afterSlash rest
  end.

(** [p.replace(/.+?\//, '')]: the leftmost match is taken out. *)
Fixpoint removeFirstDir (p : string) : string :=
  match p with
  | EmptyString => EmptyString
  | String c rest =>
      match (if isLineTerminator c then None else afterSlash rest) with
      | Some after => after
      | None => String c (removeFirstDir rest)
      end
  end.

(** [s.replace(/index\.html$/, '')] *)
Definition stripIndexHtml (s : string) : string :=
  if endsWith s "index.html"
  then substring 0 (String.length s - String.length "index.html") s
  else s.

Definition pathToRoute (p : string) : string :=
  "/" +:+ stripIndexHtml (removeFirstDir p).

(** ** The TypeScript revision of the orchestrator *)

(** [sortedNames(nodes)], on the entries of [nodes]. The counter of this
    revision is [nodes[className]++]; see [parseAndTrackCSSNodes] for the
    names this model of it speaks for. *)
Definition sortedNames (nodes : Classnames) : list string :=
  map name (sorted nodes).

(** The callback of the renaming walk of [renameCSSNodes]. *)
Definition renameNodeEnter (i : nat) (classname : string) (rename : Rename)
  (nodeName : string) : option (Rename * string) :=
  let name' := cleanCSSIdentifier nodeName in
  if decide (classname = name') then
    match generateShortestName i with
    | None => None
    | Some newname => Some (<[ name' := JSString newname ]> rename, newname)
    end
  else Some (rename, nodeName).

Fixpoint renameCSSNodesFrom (i : nat) (classnames : list string)
  (rename : Rename) (ast : StyleSheet) : option (Rename * StyleSheet) :=
  match classnames with
  | [] => Some (rename, ast)
  | classname :: rest =>
      match walkClassSelectors (renameNodeEnter i classname) rename ast with
      | None => None
      | Some (rename', ast') => renameCSSNodesFrom (S i) rest rename' ast'
      end
  end.

(** [renameCSSNodes], up to the serialisation of the tree. *)
Definition renameCSSNodes (classnames : list string) (rename : Rename)
  (ast : StyleSheet) : option (Rename * StyleSheet) :=
  renameCSSNodesFrom 0 classnames rename ast.

(** A file with the tree its content parses to. *)
Record ParsedHTML : Type := { htmlFile : File; htmlAst : HTMLNode }.
Record ParsedCSS : Type := { cssFile : File; cssAst : StyleSheet }.

(** The trees of one page after the rewrite, with the rename map. *)
Record RippedPage : Type := {
  pageRename : Rename;
  pageCSS : list StyleSheet;
  pageHTML : HTMLNode
}.

(** The body of [htmlFiles.map(html => ...)] with [options.minify] set, up
    to serialisation: count, prune and count, rank, rename. *)
Definition ripPageTrees (polluted : bool) (cssFiles : list ParsedCSS)
  (page : ParsedHTML) : option RippedPage :=
  let s := parseHTMLNodeChildren (polluted, []) (htmlAst page) in
  match eachM parseAndTrackCSSNodes s (map cssAst cssFiles) with
  | None => None
  | Some ((polluted', nodes'), asts) =>
      match eachM (renameCSSNodes (sortedNames (entries nodes'))) ∅ asts with
      | None => None
      | Some (rename, asts') =>
          Some {| pageRename := rename;
                  pageCSS := asts';
                  pageHTML := renameHTMLNodes polluted' rename (htmlAst page) |}
      end
  end.

Section RipTS.
(** [cssTree.generate] and the [toString] of an HTML tree. *)
Context (generate : StyleSheet -> string) (toString : HTMLNode -> string).

(** [.reduce((acc, css) => css.data + acc, '')] *)
Definition inline (datas : list string) : string :=
  fold_left (fun acc d => d +:+ acc) datas EmptyString.

Definition ripPage (polluted : bool) (cssFiles : list ParsedCSS)
  (minify : bool) (page : ParsedHTML) : option File :=
  if minify then
    match ripPageTrees polluted cssFiles page with
    | None => None
    | Some r =>
        Some {| path := path (htmlFile page);
                data := "<style>" +:+ inline (map generate (pageCSS r))
                          +:+ "</style>" +:+ toString (pageHTML r) |}
    end
  else
    match eachM parseAndTrackCSSNodes
            (parseHTMLNodeChildren (polluted, []) (htmlAst page))
            (map cssAst cssFiles)
    with
    | None => None
    | Some _ =>
        Some {| path := path (htmlFile page);
                data := "<style>"
                          +:+ inline (map (fun css => data (cssFile css)) cssFiles)
                          +:+ "</style>" +:+ toString (htmlAst page) |}
    end.

(** The [rip] of the TypeScript revision: an exception on any page ends
    the run. Its counters never write to [Object.prototype], so that every
    page meets it as [polluted] tells. *)
Definition ripTS (polluted : bool) (htmlFiles : list ParsedHTML)
  (cssFiles : list ParsedCSS) (minify : bool) : option (list File) :=
  mapM (ripPage polluted cssFiles minify) htmlFiles.
End RipTS.

(** * Properties *)

(** ** Facts on the decimal rendering *)

Module DecimalFacts.
Import Decimal.

Lemma digits_step fuel n :
  digits (S fuel) n =
  (n mod 10) :: (if n <? 10 then [] else digits fuel (n / 10)).
Proof. reflexivity. Qed.

Lemma value_cons d ds : value (d :: ds) = d + 10 * value ds.
Proof. reflexivity. Qed.

Lemma value_digits fuel n : n < fuel -> value (digits fuel n) = n.
Proof.
  revert n; induction fuel as [|fuel IH]; intros n Hn; [lia|].
  rewrite digits_step, value_cons.
  destruct (Nat.ltb_spec n 10) as [Hlt|Hge].
  - change (value []) with 0. rewrite Nat.mod_small by lia. lia.
  - rewrite IH.
    + pose proof (Nat.div_mod_eq n 10). lia.
    + apply Nat.Div0.div_lt_upper_bound; lia.
Qed.

Lemma digits_small fuel n : Forall (fun d => d < 10) (digits fuel n).
Proof.
  revert n; induction fuel as [|fuel IH]; intros n; [constructor|].
  rewrite digits_step. constructor.
  - apply Nat.mod_upper_bound; lia.
  - destruct (n <? 10); [constructor | apply IH].
Qed.

Lemma digits_length_mono f1 f2 n m :
  n <= m -> n < f1 -> m < f2 ->
  length (digits f1 n) <= length (digits f2 m).
Proof.
  revert f2 n m; induction f1 as [|f1 IH]; intros f2 n m Hnm Hn Hm; [lia|].
  destruct f2 as [|f2]; [lia|].
  rewrite !digits_step. cbn [length].
  destruct (Nat.ltb_spec n 10) as [Hlt|Hge]; [cbn; lia|].
  destruct (Nat.ltb_spec m 10) as [Hlt'|Hge']; [lia|].
  apply le_n_S, IH.
  - apply Nat.Div0.div_le_mono; lia.
  - apply Nat.Div0.div_lt_upper_bound; lia.
  - apply Nat.Div0.div_lt_upper_bound; lia.
Qed.

Lemma digitChar_inj d1 d2 :
  d1 < 10 -> d2 < 10 -> digitChar d1 = digitChar d2 -> d1 = d2.
Proof.
  unfold digitChar; intros H1 H2 Heq.
  apply (f_equal nat_of_ascii) in Heq.
  rewrite !nat_ascii_embedding in Heq by lia. lia.
Qed.

Lemma map_digitChar_inj l1 l2 :
  Forall (fun d => d < 10) l1 -> Forall (fun d => d < 10) l2 ->
  map digitChar l1 = map digitChar l2 -> l1 = l2.
Proof.
  intros H1; revert l2; induction H1 as [|d1 l1 Hd1 _ IH];
    intros l2 H2 Heq; destruct H2 as [|d2 l2 Hd2 H2]; try discriminate; auto.
  cbn in Heq. injection Heq as Hd Hl.
  f_equal; [by apply digitChar_inj | by apply IH].
Qed.

Lemma string_of_list_ascii_inj l1 l2 :
  string_of_list_ascii l1 = string_of_list_ascii l2 -> l1 = l2.
Proof.
  intros Heq. apply (f_equal list_ascii_of_string) in Heq.
  by rewrite !list_ascii_of_string_of_list_ascii in Heq.
Qed.

Lemma length_string_of_list_ascii l :
  String.length (string_of_list_ascii l) = length l.
Proof. induction l; cbn; congruence. Qed.

Lemma toString_inj n m : toString n = toString m -> n = m.
Proof.
  unfold toString; intros Heq.
  apply string_of_list_ascii_inj, map_digitChar_inj in Heq.
  - apply (f_equal (@rev nat)) in Heq. rewrite !rev_involutive in Heq.
    apply (f_equal value) in Heq.
    rewrite !value_digits in Heq; lia.
  - apply Forall_rev, digits_small.
  - apply Forall_rev, digits_small.
Qed.

Lemma toString_length n :
  String.length (toString n) = length (digits (S n) n).
Proof.
  unfold toString.
  by rewrite length_string_of_list_ascii, length_map, length_rev.
Qed.

Lemma toString_length_mono n m :
  n <= m -> String.length (toString n) <= String.length (toString m).
Proof.
  intros H. rewrite !toString_length. apply digits_length_mono; lia.
Qed.

Lemma toString_nonempty n : 1 <= String.length (toString n).
Proof. rewrite toString_length, digits_step. cbn [length]. lia. Qed.

End DecimalFacts.

(** ** Facts on the shortest-name generator *)

Lemma asciiLetters_length : length asciiLetters = 26.
Proof. reflexivity. Qed.

Lemma asciiLetters_lookup j : j < 26 -> asciiLetters !! j = Some (letter j).
Proof.
  intros Hj. unfold asciiLetters, range.
  rewrite list_lookup_fmap.
  change (123 - 97) with 26.
  by rewrite lookup_seq_lt.
Qed.

Lemma whileOver_spec fuel idx timesOver :
  idx / 26 < fuel ->
  whileOver fuel idx timesOver = Some (idx mod 26, timesOver + idx / 26).
Proof.
  revert idx timesOver; induction fuel as [|fuel IH]; intros idx t Hf; [lia|].
  cbn [whileOver]. rewrite asciiLetters_length.
  destruct (Nat.leb_spec 26 idx) as [Hge|Hlt].
  - assert (Hd : idx = (idx - 26) + 1 * 26) by lia.
    assert (Hq : idx / 26 = S ((idx - 26) / 26)).
    { rewrite Hd at 1. rewrite Nat.div_add by lia. lia. }
    assert (Hm : idx mod 26 = (idx - 26) mod 26).
    { rewrite Hd at 1. by rewrite Nat.Div0.mod_add. }
    rewrite IH by lia. rewrite Hq, Hm. f_equal. f_equal. lia.
  - rewrite Nat.mod_small, Nat.div_small by lia. f_equal. f_equal. lia.
Qed.

Lemma generateShortestName_eq idx :
  generateShortestName idx = Some (shortName (idx / 26) (idx mod 26)).
Proof.
  unfold generateShortestName, shortName.
  rewrite whileOver_spec.
  2:{ pose proof (Nat.Div0.div_le_upper_bound idx 26 idx). lia. }
  rewrite asciiLetters_lookup by (apply Nat.mod_upper_bound; lia).
  cbn [Nat.add]. by destruct (idx / 26 =? 0).
Qed.

Lemma letter_inj j1 j2 : j1 < 26 -> j2 < 26 -> letter j1 = letter j2 -> j1 = j2.
Proof.
  unfold letter; intros H1 H2 Heq. injection Heq as Heq.
  apply (f_equal nat_of_ascii) in Heq.
  rewrite !nat_ascii_embedding in Heq by lia. lia.
Qed.

Lemma letter_append r s : letter r +:+ s = String (ascii_of_nat (97 + r)) s.
Proof. reflexivity. Qed.

Lemma shortName_inj q1 r1 q2 r2 :
  r1 < 26 -> r2 < 26 -> shortName q1 r1 = shortName q2 r2 ->
  q1 = q2 /\ r1 = r2.
Proof.
  intros H1 H2. unfold shortName.
  destruct (Nat.eqb_spec q1 0) as [Hq1|Hq1];
    destruct (Nat.eqb_spec q2 0) as [Hq2|Hq2]; intros Heq.
  - split; [lia | by apply letter_inj].
  - exfalso. apply (f_equal String.length) in Heq.
    pose proof (DecimalFacts.toString_nonempty (q2 - 1)).
    rewrite letter_append in Heq. cbn [String.length letter] in Heq. lia.
  - exfalso. apply (f_equal String.length) in Heq.
    pose proof (DecimalFacts.toString_nonempty (q1 - 1)).
    rewrite letter_append in Heq. cbn [String.length letter] in Heq. lia.
  - rewrite !letter_append in Heq. injection Heq as Hc Hr.
    apply DecimalFacts.toString_inj in Hr.
    split; [lia|]. apply letter_inj; auto.
    exact (f_equal (fun c => String c EmptyString) Hc).
Qed.

Lemma generateShortestName_inj i j s :
  generateShortestName i = Some s -> generateShortestName j = Some s -> i = j.
Proof.
  rewrite !generateShortestName_eq. intros Hi Hj.
  assert (Heq : shortName (i / 26) (i mod 26) = shortName (j / 26) (j mod 26))
    by congruence.
  apply shortName_inj in Heq as [Hq Hr];
    try (apply Nat.mod_upper_bound; lia).
  pose proof (Nat.div_mod_eq i 26). pose proof (Nat.div_mod_eq j 26). lia.
Qed.

(** C3: the generator returns a name for every index; indices 0 to 25 give
    the letters a to z in order, 26 gives a0, 51 gives z0, 52 gives a1, and
    in general the index [26 * (round + 1) + j] with [j < 26] gives the
    [j]-th letter followed by [round] in decimal. *)
Theorem generateShortestName_rounds :
  (forall idx, exists s, generateShortestName idx = Some s) /\
  map generateShortestName (seq 0 26) =
    map Some ["a"; "b"; "c"; "d"; "e"; "f"; "g"; "h"; "i"; "j"; "k"; "l"; "m";
              "n"; "o"; "p"; "q"; "r"; "s"; "t"; "u"; "v"; "w"; "x"; "y"; "z"] /\
  generateShortestName 26 = Some "a0" /\
  generateShortestName 51 = Some "z0" /\
  generateShortestName 52 = Some "a1" /\
  (forall round j,
      generateShortestName (26 * S round + j mod 26) =
      Some (letter (j mod 26) +:+ Decimal.toString round)).
Proof.
  split; [|split; [|split; [|split; [|split]]]]; try reflexivity.
  - intros idx. rewrite generateShortestName_eq. eauto.
  - intros round j. rewrite generateShortestName_eq.
    pose proof (Nat.mod_upper_bound j 26 ltac:(lia)) as Hj.
    assert (Hq : (26 * S round + j mod 26) / 26 = S round).
    { rewrite Nat.mul_comm, Nat.div_add_l by lia.
      rewrite Nat.div_small by lia. lia. }
    assert (Hr : (26 * S round + j mod 26) mod 26 = j mod 26).
    { rewrite Nat.add_comm, Nat.mul_comm, Nat.Div0.mod_add.
      apply Nat.mod_small; lia. }
    rewrite Hq, Hr. unfold shortName. cbn [Nat.eqb].
    by replace (S round - 1) with round by lia.
Qed.

Lemma shortName_length q r :
  String.length (shortName q r) =
  if q =? 0 then 1 else S (String.length (Decimal.toString (q - 1))).
Proof.
  unfold shortName. destruct (q =? 0); [reflexivity|].
  by rewrite letter_append.
Qed.

(** C9, as the code has it: names never get shorter as the index grows. *)
Theorem generateShortestName_length_monotone i j si sj :
  i <= j ->
  generateShortestName i = Some si ->
  generateShortestName j = Some sj ->
  String.length si <= String.length sj.
Proof.
  rewrite !generateShortestName_eq. intros Hij Hi Hj.
  assert (si = shortName (i / 26) (i mod 26)) as -> by congruence.
  assert (sj = shortName (j / 26) (j mod 26)) as -> by congruence.
  clear Hi Hj. rewrite !shortName_length.
  assert (Hq : i / 26 <= j / 26) by (apply Nat.Div0.div_le_mono; lia).
  destruct (Nat.eqb_spec (i / 26) 0) as [Hi|Hi];
    destruct (Nat.eqb_spec (j / 26) 0) as [Hj|Hj]; try lia.
  apply le_n_S, DecimalFacts.toString_length_mono. lia.
Qed.

Lemma generateShortestName_length_monotone_witness :
  String.length "a" <= String.length "a0".
Proof.
  apply (generateShortestName_length_monotone 0 26); [lia | reflexivity | reflexivity].
Defined.

(** C9 as stated fails: index 0 gets the one-character name a, the later
    index 26 the two-character name a0. *)
Lemma generateShortestName_length_not_decreasing :
  generateShortestName 0 = Some "a" /\
  generateShortestName 26 = Some "a0" /\
  ~ (forall i j si sj,
        i <= j ->
        generateShortestName i = Some si ->
        generateShortestName j = Some sj ->
        String.length sj <= String.length si).
Proof.
  split; [reflexivity|]. split; [reflexivity|].
  intros H. specialize (H 0 26 "a" "a0" ltac:(lia) eq_refl eq_refl).
  cbn in H. lia.
Qed.

(** ** Inherited properties *)

Lemma isInherited_mono polluted name :
  isInherited polluted name = true -> isInherited true name = true.
Proof.
  unfold isInherited, inherited.
  repeat (destruct (decide _); [done|]).
  destruct polluted; [done|]. discriminate.
Qed.

Lemma isInherited_plain polluted name :
  plainName name = true -> isInherited polluted name = false.
Proof.
  unfold plainName. intros Hp.
  destruct (isInherited polluted name) eqn:Hi; [|done].
  apply isInherited_mono in Hi. by rewrite Hi in Hp.
Qed.

Lemma inherited_plain polluted name :
  plainName name = true -> inherited polluted name = None.
Proof.
  intros Hp. pose proof (isInherited_plain polluted name Hp) as Hi.
  unfold isInherited in Hi. by destruct (inherited polluted name).
Qed.

Lemma isInherited_proto polluted : isInherited polluted "__proto__" = true.
Proof. by destruct polluted. Qed.

Lemma isInherited_or polluted b name :
  isInherited polluted name = true -> isInherited (polluted || b) name = true.
Proof.
  destruct polluted; [done|]. destruct b; [|done]. apply isInherited_mono.
Qed.

(** ** The classname counter *)

Lemma HTMLNode_nested_ind (P : HTMLNode -> Prop) :
  (forall tagName attributes classNames childNodes,
      Forall P childNodes ->
      P (HTMLElement tagName attributes classNames childNodes)) ->
  (forall rawText, P (TextNode rawText)) ->
  forall node, P node.
Proof.
  intros Helement Htext. fix IH 1. intros [tagName attributes classNames childNodes|rawText].
  - apply Helement. induction childNodes as [|child rest IHrest].
    + constructor.
    + constructor; [apply IH | apply IHrest].
  - apply Htext.
Qed.

Lemma hasKey_increment t c classnames :
  hasKey t (increment c classnames) = hasKey t classnames.
Proof.
  induction classnames as [|[k n] rest IH]; [reflexivity|].
  cbn [increment]. destruct (decide (k = c)); cbn [hasKey]; [reflexivity|].
  by rewrite IH.
Qed.

Lemma increment_absent c classnames :
  hasKey c classnames = false -> increment c classnames = classnames.
Proof.
  induction classnames as [|[k n] rest IH]; [reflexivity|].
  cbn [hasKey increment]. destruct (decide (k = c)); [discriminate|].
  intros Hc. by rewrite IH.
Qed.

Lemma hasKey_app t l1 l2 : hasKey t (l1 ++ l2) = hasKey t l1 || hasKey t l2.
Proof.
  induction l1 as [|[k n] rest IH]; [reflexivity|].
  cbn [app hasKey]. by destruct (decide (k = t)).
Qed.

Lemma countOf_increment t c classnames :
  countOf t (increment c classnames) =
  if decide (t = c) then (if hasKey c classnames then S (countOf t classnames) else 0)
  else countOf t classnames.
Proof.
  induction classnames as [|[k n] rest IH].
  - cbn. by destruct (decide (t = c)).
  - cbn [increment hasKey countOf].
    destruct (decide (k = c)) as [->|Hkc]; cbn [countOf].
    + destruct (decide (c = t)) as [->|Hct].
      * by rewrite decide_True.
      * by rewrite decide_False by congruence.
    + destruct (decide (k = t)) as [->|Hkt].
      * by rewrite decide_False by congruence.
      * apply IH.
Qed.

Lemma countOf_absent t classnames : hasKey t classnames = false -> countOf t classnames = 0.
Proof.
  induction classnames as [|[k n] rest IH]; [reflexivity|].
  cbn [hasKey countOf]. by destruct (decide (k = t)).
Qed.

Lemma countOf_app t l1 l2 :
  countOf t (l1 ++ l2) = if hasKey t l1 then countOf t l1 else countOf t l2.
Proof.
  induction l1 as [|[k n] rest IH]; [reflexivity|].
  cbn [app hasKey countOf]. by destruct (decide (k = t)).
Qed.

Lemma keys_increment c (classnames : Classnames) :
  map fst (increment c classnames) = map fst classnames.
Proof.
  induction classnames as [|[k n] rest IH]; [reflexivity|].
  cbn [increment]. destruct (decide (k = c)); cbn [map fst]; [reflexivity|].
  by rewrite IH.
Qed.

Lemma hasKey_keys t (classnames : Classnames) :
  hasKey t classnames = true <-> t ∈ map fst classnames.
Proof.
  induction classnames as [|[k n] rest IH]; cbn [hasKey map fst].
  - split; [discriminate | by intros ?%not_elem_of_nil].
  - rewrite elem_of_cons. destruct (decide (k = t)) as [->|Hne].
    + tauto.
    + rewrite IH. intuition congruence.
Qed.

(** The increment in terms of the counts and of [Object.prototype]. *)
Lemma incrementCount_eq s name :
  incrementCount s name = (s.1 || pollutes s.2 name, increment name s.2).
Proof.
  destruct s as [polluted classnames]. unfold incrementCount, pollutes.
  cbn [fst snd]. destruct (hasKey name classnames) eqn:Hk; cbn [negb andb].
  - by rewrite orb_false_r.
  - by rewrite increment_absent.
Qed.

Lemma pollutes_inClassnames polluted classnames name :
  pollutes classnames name = true -> inClassnames polluted name classnames = true.
Proof.
  unfold pollutes, inClassnames. intros [_ Hp]%andb_true_iff.
  apply bool_decide_eq_true in Hp as ->.
  by rewrite isInherited_proto, orb_true_r.
Qed.

Lemma countClassName_eq s c :
  countClassName s c =
  (s.1 || pollutes s.2 c,
   if inClassnames s.1 c s.2 then increment c s.2 else s.2 ++ [(c, 1)]).
Proof.
  unfold countClassName. destruct (inClassnames s.1 c s.2) eqn:Hin.
  - apply incrementCount_eq.
  - destruct (pollutes s.2 c) eqn:Hp.
    + apply (pollutes_inClassnames s.1) in Hp. congruence.
    + by rewrite orb_false_r.
Qed.

Lemma countClassName_plain polluted classnames c :
  plainName c = true ->
  countClassName (polluted, classnames) c = (polluted, countPlain classnames c).
Proof.
  intros Hp. rewrite countClassName_eq. cbn [fst snd].
  unfold inClassnames, pollutes, countPlain.
  rewrite (isInherited_plain polluted c Hp), orb_false_r.
  rewrite bool_decide_eq_false_2.
  - by rewrite andb_false_r, orb_false_r.
  - intros ->. pose proof (isInherited_proto polluted) as Hi.
    by rewrite isInherited_plain in Hi.
Qed.

Lemma countOf_countPlain t c classnames :
  countOf t (countPlain classnames c) =
  countOf t classnames + (if decide (c = t) then 1 else 0).
Proof.
  unfold countPlain. destruct (hasKey c classnames) eqn:Hc.
  - rewrite countOf_increment, Hc.
    destruct (decide (t = c)) as [->|Hne].
    + rewrite decide_True by done. lia.
    + rewrite decide_False by congruence. lia.
  - rewrite countOf_app. cbn [countOf].
    destruct (decide (c = t)) as [->|Hne].
    + rewrite Hc, (countOf_absent _ _ Hc). lia.
    + destruct (hasKey t classnames) eqn:Ht; [lia|].
      rewrite (countOf_absent _ _ Ht). lia.
Qed.

Lemma hasKey_countPlain t c classnames :
  hasKey t (countPlain classnames c) =
  hasKey t classnames || bool_decide (c = t).
Proof.
  unfold countPlain. destruct (hasKey c classnames) eqn:Hc.
  - rewrite hasKey_increment. case_bool_decide as Hct; [subst; rewrite Hc|]; by destruct (hasKey t classnames).
  - rewrite hasKey_app. cbn [hasKey].
    destruct (decide (c = t));
      [rewrite bool_decide_eq_true_2 by done
      | rewrite bool_decide_eq_false_2 by done]; reflexivity.
Qed.

Lemma countOf_fold t tokens classnames :
  countOf t (fold_left countPlain tokens classnames) =
  countOf t classnames + count_occ string_dec tokens t.
Proof.
  revert classnames; induction tokens as [|c rest IH]; intros classnames.
  - cbn. lia.
  - cbn [fold_left count_occ]. rewrite IH, countOf_countPlain.
    destruct (string_dec c t); [rewrite decide_True by done | rewrite decide_False by done]; lia.
Qed.

Lemma hasKey_fold t tokens classnames :
  hasKey t (fold_left countPlain tokens classnames) =
  hasKey t classnames || bool_decide (t ∈ tokens).
Proof.
  revert classnames; induction tokens as [|c rest IH]; intros classnames.
  - cbn [fold_left]. rewrite bool_decide_eq_false_2 by (apply not_elem_of_nil).
    by destruct (hasKey t classnames).
  - cbn [fold_left]. rewrite IH, hasKey_countPlain.
    rewrite <- orb_assoc. f_equal. rewrite <- bool_decide_or.
    apply bool_decide_ext. rewrite elem_of_cons. intuition congruence.
Qed.

Lemma fold_countClassName_plain tokens : forall polluted classnames,
  forallb plainName tokens = true ->
  fold_left countClassName tokens (polluted, classnames) =
  (polluted, fold_left countPlain tokens classnames).
Proof.
  induction tokens as [|c rest IH]; intros polluted classnames; [done|].
  cbn [forallb fold_left]. intros [Hc Hrest]%andb_true_iff.
  by rewrite countClassName_plain, IH.
Qed.

Lemma fold_left_flat_map {A B C} (f : A -> B -> A) (g : C -> list B) l a :
  fold_left f (flat_map g l) a = fold_left (fun acc c => fold_left f (g c) acc) l a.
Proof.
  revert a; induction l as [|c l IH]; intros a; [reflexivity|].
  cbn [flat_map fold_left]. by rewrite fold_left_app, IH.
Qed.

Lemma parseHTMLNodeChildren_tokens node s :
  parseHTMLNodeChildren s node = fold_left countClassName (classTokens node) s.
Proof.
  revert s. induction node as [tagName attributes classNames childNodes IH|rawText]
    using HTMLNode_nested_ind; intros s; [|reflexivity].
  cbn [parseHTMLNodeChildren classTokens].
  rewrite fold_left_app, fold_left_flat_map.
  generalize (fold_left countClassName classNames s) as acc.
  induction IH as [|child rest Hchild _ IHrest]; intros acc; [reflexivity|].
  cbn [fold_left]. by rewrite Hchild, IHrest.
Qed.

Lemma parseHTML_files_tokens htmlFiles : forall s,
  fold_left parseHTMLNodeChildren htmlFiles s =
  fold_left countClassName (flat_map classTokens htmlFiles) s.
Proof.
  induction htmlFiles as [|node rest IH]; intros s; [reflexivity|].
  cbn [fold_left flat_map].
  by rewrite fold_left_app, IH, parseHTMLNodeChildren_tokens.
Qed.

Lemma keys_countClassName s c :
  map fst (countClassName s c).2 =
  map fst s.2 ++ (if inClassnames s.1 c s.2 then [] else [c]).
Proof.
  rewrite countClassName_eq. cbn [snd]. destruct (inClassnames s.1 c s.2).
  - by rewrite keys_increment, app_nil_r.
  - by rewrite map_app.
Qed.

(** The keys of the counts stay distinct; every key the counter adds is a
    token it has met, and every token it has met under which nothing is
    inherited is a key. *)
Lemma fold_countClassName_keys tokens : forall s : bool * Classnames,
  NoDup (map fst s.2) ->
  NoDup (map fst (fold_left countClassName tokens s).2) /\
  (forall t, t ∈ map fst (fold_left countClassName tokens s).2 ->
     t ∈ map fst s.2 \/ t ∈ tokens) /\
  (forall t, t ∈ map fst s.2 \/ (t ∈ tokens /\ plainName t = true) ->
     t ∈ map fst (fold_left countClassName tokens s).2).
Proof.
  induction tokens as [|c rest IH]; intros s Hnd; cbn [fold_left].
  - split; [done|]. split; [by left|].
    by intros t [Ht|[?%not_elem_of_nil _]].
  - pose proof (keys_countClassName s c) as Hkeys.
    destruct (IH (countClassName s c)) as (Hnd' & Hsub & Hsup).
    { rewrite Hkeys. destruct (inClassnames s.1 c s.2) eqn:Hin.
      - by rewrite app_nil_r.
      - apply NoDup_app. split; [done|]. split; [|apply NoDup_singleton].
        intros x Hx ->%list_elem_of_singleton. apply hasKey_keys in Hx.
        unfold inClassnames in Hin. by rewrite Hx in Hin. }
    split; [done|]. split.
    + intros t Ht. apply Hsub in Ht as [Ht|Ht]; [|right; by right].
      rewrite Hkeys, elem_of_app in Ht. destruct Ht as [Ht|Ht]; [by left|].
      destruct (inClassnames s.1 c s.2); [by apply not_elem_of_nil in Ht|].
      apply list_elem_of_singleton in Ht as ->. right. by left.
    + intros t Ht. apply Hsup. rewrite Hkeys, elem_of_app.
      destruct Ht as [Ht|[Ht Hp]]; [by left; left|].
      apply elem_of_cons in Ht as [->|Ht]; [|by right].
      left. destruct (inClassnames s.1 c s.2) eqn:Hin.
      * left. unfold inClassnames in Hin.
        rewrite (isInherited_plain _ _ Hp), orb_false_r in Hin.
        by apply hasKey_keys.
      * right. by apply list_elem_of_singleton.
Qed.

(** C7 fails on the code: a class token named like a property every object
    inherits is found by [className in classnames] although it was never
    seen, so that it is not inserted; the increment goes to the inherited
    object. After the tokens constructor and x only x is counted, and after
    __proto__ the token count is not inserted either. *)
Theorem parseHTMLNodeChildren_skips_inherited_names :
  forall tagName attributes,
    parseHTMLNodeChildren (false, [])
      (HTMLElement tagName attributes ["constructor"] []) = (false, []) /\
    parseHTMLNodeChildren (false, [])
      (HTMLElement tagName attributes ["constructor"; "x"] []) =
      (false, [("x", 1)]) /\
    parseHTMLNodeChildren (false, [])
      (HTMLElement tagName attributes ["__proto__"; "count"] []) = (true, []).
Proof. intros. repeat split. Qed.

(** ** The HTML rewrite pass *)

Lemma getAttribute_setAttribute attributes key value :
  getAttribute (setAttribute attributes key value) key = Some value.
Proof.
  induction attributes as [|[k v] rest IH]; cbn [setAttribute getAttribute].
  - by rewrite decide_True.
  - destruct (decide (k = key)) as [->|Hne]; cbn [getAttribute].
    + by rewrite decide_True.
    + by rewrite decide_False.
Qed.

Lemma join_concat sep l : join sep l = String.concat sep l.
Proof.
  induction l as [|x rest IH]; [reflexivity|].
  cbn [join String.concat]. destruct rest; [reflexivity|]. by rewrite IH.
Qed.

Lemma elementsOf_processHTMLNodeChildren polluted rename node :
  elementsOf (processHTMLNodeChildren polluted rename node) =
  map (rewriteElement polluted rename) (elementsOf node).
Proof.
  induction node as [tagName attributes classNames childNodes IH|rawText]
    using HTMLNode_nested_ind; [|reflexivity].
  cbn [processHTMLNodeChildren elementsOf map]. f_equal.
  - unfold rewriteElement; cbn [fst snd]. by rewrite length_map, map_map.
  - induction IH as [|child rest Hchild _ IHrest]; [reflexivity|].
    cbn [map flat_map]. by rewrite map_app, Hchild, IHrest.
Qed.

Lemma renamedToken_own polluted (rename : Rename) c v :
  rename !! c = Some v -> renamedToken polluted rename c = JSValue_toString v.
Proof. unfold renamedToken, replaceToken. by intros ->. Qed.

Lemma renamedToken_none polluted (rename : Rename) c :
  rename !! c = None -> inherited polluted c = None ->
  renamedToken polluted rename c = c.
Proof. unfold renamedToken, replaceToken. by intros -> ->. Qed.

Lemma renamedToken_absent polluted (rename : Rename) tokens :
  (forall c, c ∈ tokens -> rename !! c = None /\ inherited polluted c = None) ->
  map (renamedToken polluted rename) tokens = tokens.
Proof.
  induction tokens as [|c rest IH]; intros Habs; [reflexivity|].
  cbn [map]. f_equal.
  - destruct (Habs c) as [Hown Hinh]; [apply list_elem_of_here|].
    by apply renamedToken_none.
  - apply IH. intros c' Hc'. apply Habs. by apply list_elem_of_further.
Qed.

Lemma classTokens_elementsOf node :
  classTokens node = flat_map snd (elementsOf node).
Proof.
  induction node as [tagName attributes classNames childNodes IH|rawText]
    using HTMLNode_nested_ind; [|reflexivity].
  cbn [classTokens elementsOf flat_map snd]. f_equal.
  induction IH as [|child rest Hchild _ IHrest]; [reflexivity|].
  cbn [flat_map]. by rewrite flat_map_app, Hchild, IHrest.
Qed.

(** C6 fails on the code: a class token named like a property every object
    inherits is found by [c in rename] although the map has no entry for
    it, and is replaced by the text of what the map inherits. With an empty
    map the token constructor becomes the text of the function Object; with
    the one entry big to a, the tokens big and toString become a and the text
    of the function toString. *)
Theorem processHTMLNodeChildren_rewrites_inherited_names :
  forall polluted tagName attributes,
    (∅ : Rename) !! "constructor" = None /\
    processHTMLNodeChildren polluted ∅
      (HTMLElement tagName attributes ["constructor"] []) =
    HTMLElement tagName
      (setAttribute attributes "class" "function Object() { [native code] }")
      ["constructor"] [] /\
    ({[ "big" := JSString "a" ]} : Rename) !! "toString" = None /\
    processHTMLNodeChildren polluted {[ "big" := JSString "a" ]}
      (HTMLElement tagName attributes ["big"; "toString"] []) =
    HTMLElement tagName
      (setAttribute attributes "class"
         "a function toString() { [native code] }")
      ["big"; "toString"] [].
Proof. intros. repeat split. Qed.

(** C10: an element with at least one class token gets its class attribute
    set to the replaced tokens joined by single spaces, whatever the
    attribute held before and whether any token is replaced or not; the
    value is the concatenation of the replaced tokens with one space between
    two of them. When no token is found in the map this is the join of the
    tokens themselves, so a run of blanks between two tokens comes out as
    one space. *)
Theorem processHTMLNodeChildren_sets_class
    polluted rename node k attributes classNames :
  elementsOf node !! k = Some (attributes, classNames) ->
  classNames <> [] ->
  exists attributes',
    elementsOf (processHTMLNodeChildren polluted rename node) !! k =
      Some (attributes', classNames) /\
    attributes' =
      setAttribute attributes "class"
        (join " " (map (renamedToken polluted rename) classNames)) /\
    getAttribute attributes' "class" =
      Some (String.concat " " (map (renamedToken polluted rename) classNames)) /\
    ((forall c, c ∈ classNames ->
        rename !! c = None /\ inherited polluted c = None) ->
     getAttribute attributes' "class" = Some (String.concat " " classNames)).
Proof.
  intros Hk Hne. rewrite elementsOf_processHTMLNodeChildren.
  rewrite list_lookup_fmap, Hk. cbn [fmap option_fmap option_map].
  unfold rewriteElement; cbn [fst snd].
  destruct classNames as [|c cs]; [done|]. cbn [length Nat.ltb Nat.leb].
  eexists; split; [reflexivity|]. split; [reflexivity|].
  rewrite getAttribute_setAttribute, join_concat. split; [done|].
  intros Habs. by rewrite (renamedToken_absent _ _ _ Habs).
Qed.

Lemma processHTMLNodeChildren_sets_class_witness :
  exists attributes',
    elementsOf (processHTMLNodeChildren false ∅
                  (HTMLElement "div" [("id", "x"); ("class", "a   b")]
                     ["a"; "b"] [])) !! 0 =
      Some (attributes', ["a"; "b"]) /\
    attributes' = [("id", "x"); ("class", "a b")] /\
    getAttribute attributes' "class" = Some "a b" /\
    ((forall c, c ∈ ["a"; "b"] ->
        (∅ : Rename) !! c = None /\ inherited false c = None) ->
     getAttribute attributes' "class" = Some "a b").
Proof.
  exact (processHTMLNodeChildren_sets_class false ∅
           (HTMLElement "div" [("id", "x"); ("class", "a   b")] ["a"; "b"] []) 0
           [("id", "x"); ("class", "a   b")] ["a"; "b"]
           eq_refl ltac:(discriminate)).
Defined.

Example processHTMLNodeChildren_collapses_blanks :
  processHTMLNodeChildren false ∅
    (HTMLElement "div" [("id", "x"); ("class", "a   b")] ["a"; "b"] []) =
  HTMLElement "div" [("id", "x"); ("class", "a b")] ["a"; "b"] [].
Proof. reflexivity. Qed.

(** ** Dead-rule elimination *)

Lemma Component_nested_ind (P : Component -> Prop) :
  (forall name, P (ClassSelector name)) ->
  (forall name children,
      Forall (Forall P) children -> P (PseudoClassSelector name children)) ->
  (forall type name, P (OtherSelector type name)) ->
  forall c, P c.
Proof.
  intros Hclass Hpseudo Hother. fix IH 1. intros [name|name children|type name].
  - apply Hclass.
  - apply Hpseudo. induction children as [|selector rest IHrest]; constructor.
    + induction selector as [|c cs IHcs]; constructor; [apply IH | apply IHcs].
    + apply IHrest.
  - apply Hother.
Qed.

Lemma CssNode_nested_ind (P : CssNode -> Prop) :
  (forall prelude block, P (Rule prelude block)) ->
  (forall prelude block, P (RawRule prelude block)) ->
  (forall name prelude block, Forall P block -> P (Atrule name prelude block)) ->
  (forall value, P (Comment value)) ->
  (forall text, P (OtherNode text)) ->
  forall n, P n.
Proof.
  intros Hrule Hraw Hat Hcomment Hother. fix IH 1.
  intros [prelude block|prelude block|name prelude block|value|text].
  - apply Hrule.
  - apply Hraw.
  - apply Hat. induction block as [|n rest IHrest]; constructor;
      [apply IH | apply IHrest].
  - apply Hcomment.
  - apply Hother.
Qed.

Section PruneFacts.
Context (isEmptyGuard : bool) (polluted : bool) (classnames : Classnames).

Lemma scanSelector_result othersEmpty removed selector r :
  scanSelector isEmptyGuard polluted classnames othersEmpty removed selector
    = Some r ->
  r = removed || negb (keepsSelector polluted classnames selector).
Proof.
  unfold keepsSelector. revert removed.
  induction selector as [|c cs IH]; intros removed.
  - cbn. intros [= <-]. by destruct removed.
  - destruct c as [name|name children|type name]; cbn [scanSelector forallb unknownClass].
    + destruct (inClassnames polluted (cleanCSSIdentifier name) classnames) eqn:Hk.
      * rewrite orb_true_r. cbn [negb andb]. apply IH.
      * rewrite orb_false_r. cbn [negb andb orb].
        destruct (isEmptyGuard && (removed && othersEmpty)) eqn:Hg.
        -- intros H. apply IH in H. subst r.
           destruct removed; [by rewrite !orb_true_l|].
           by rewrite andb_false_l, andb_false_r in Hg.
        -- destruct removed; [discriminate|].
           intros H. apply IH in H. subst r. by rewrite orb_true_l, orb_false_l.
    + cbn [negb andb]. apply IH.
    + cbn [negb andb]. apply IH.
Qed.

Lemma eachSelector_result kept rest ruleRemoved out ruleRemoved' :
  eachSelector isEmptyGuard polluted classnames kept rest ruleRemoved
    = Some (out, ruleRemoved') ->
  out = kept ++ List.filter (keepsSelector polluted classnames) rest /\
  ruleRemoved' = ruleRemoved || (isEmpty out && negb (isEmpty rest)).
Proof.
  revert kept ruleRemoved.
  induction rest as [|selector rest IH]; intros kept ruleRemoved.
  - cbn. intros [= <- <-]. rewrite app_nil_r, andb_false_r, orb_false_r. done.
  - cbn [eachSelector List.filter].
    destruct (scanSelector _ _ _ _ _ selector) as [removed|] eqn:Hscan; [|discriminate].
    apply scanSelector_result in Hscan. cbn [orb] in Hscan. subst removed.
    set (kept' := if negb (keepsSelector polluted classnames selector) then kept
                  else kept ++ [selector]).
    assert (Hkept :
      kept' ++ List.filter (keepsSelector polluted classnames) rest =
      kept ++ (if keepsSelector polluted classnames selector
               then selector :: List.filter (keepsSelector polluted classnames) rest
               else List.filter (keepsSelector polluted classnames) rest)).
    { unfold kept'. destruct (keepsSelector polluted classnames selector);
        cbn [negb]; [by rewrite <- app_assoc | done]. }
    destruct (isEmpty kept' && isEmpty rest) eqn:Hempty.
    + destruct ruleRemoved; [discriminate|].
      intros H. apply IH in H as [-> ->]. rewrite Hkept. split; [done|].
      apply andb_true_iff in Hempty as [Hk Hr].
      destruct rest; [|discriminate]. rewrite <- Hkept.
      destruct kept'; [|discriminate]. reflexivity.
    + intros H. apply IH in H as [-> ->]. rewrite Hkept. split; [done|].
      f_equal. rewrite <- Hkept. cbn [isEmpty negb]. rewrite andb_true_r.
      destruct rest as [|s rest']; [|by rewrite andb_true_r].
      cbn [List.filter]. rewrite app_nil_r, andb_false_r.
      rewrite andb_true_r in Hempty. by rewrite Hempty.
Qed.

Lemma eachRemove_omap {A} (f : A -> option (option A)) (g : A -> option A) l l' :
  Forall (fun a => forall r, f a = Some r -> r = g a) l ->
  eachRemove f l = Some l' -> l' = omap g l.
Proof.
  intros Hall; revert l'; induction Hall as [|a rest Ha _ IH]; intros l'.
  - by intros [= <-].
  - cbn [eachRemove]. destruct (f a) as [r|] eqn:Hfa; [|discriminate].
    destruct (eachRemove f rest) as [rest'|]; [|discriminate].
    intros [= <-]. rewrite (Ha _ eq_refl), (IH _ eq_refl).
    cbn [omap list_omap]. by destruct (g a).
Qed.

Lemma pruneNode_result n r :
  pruneNode isEmptyGuard polluted classnames n = Some r ->
  r = prunedNode polluted classnames n.
Proof.
  revert r.
  induction n as [prelude block|prelude block|name prelude block IH|value|text]
    using CssNode_nested_ind; intros r; cbn [pruneNode prunedNode].
  - destruct (eachSelector _ _ _ _ _ _) as [[prelude' removed]|] eqn:Heach;
      [|discriminate].
    apply eachSelector_result in Heach as [-> ->]. cbn [app orb].
    destruct (isEmpty _ && negb (isEmpty prelude)); by intros [= <-].
  - discriminate.
  - destruct (eachRemove _ block) as [block'|] eqn:Hblock; [|discriminate].
    intros [= <-]. do 3 f_equal.
    eapply eachRemove_omap; [|exact Hblock]. exact IH.
  - by intros [= <-].
  - by intros [= <-].
Qed.

Lemma pruneRules_result ast ast' :
  pruneRules isEmptyGuard polluted classnames ast = Some ast' ->
  ast' = prunedSheet polluted classnames ast.
Proof.
  apply eachRemove_omap, Forall_forall. intros n _ r. apply pruneNode_result.
Qed.

End PruneFacts.

Section PruneCompletes.
Context (isEmptyGuard : bool) (polluted : bool) (classnames : Classnames).

Lemma scanSelector_completes othersEmpty (removed : bool) (selector : Selector) :
  length (List.filter (unknownClass polluted classnames) selector) <=
    (if removed then 0 else 1) ->
  is_Some (scanSelector isEmptyGuard polluted classnames othersEmpty removed selector).
Proof.
  revert removed. induction selector as [|c cs IH]; intros removed; [by eexists|].
  destruct c as [name|name children|type name];
    cbn [scanSelector List.filter unknownClass]; try apply IH.
  destruct (inClassnames polluted (cleanCSSIdentifier name) classnames); cbn [negb].
  - rewrite orb_true_r. apply IH.
  - rewrite orb_false_r. cbn [length]. intros Hlen.
    destruct removed; [lia|].
    rewrite andb_false_l, andb_false_r. apply IH. lia.
Qed.

Lemma eachSelector_completes kept rest ruleRemoved :
  (ruleRemoved = true -> rest = []) ->
  forallb (singleUnknown polluted classnames) rest = true ->
  is_Some (eachSelector isEmptyGuard polluted classnames kept rest ruleRemoved).
Proof.
  revert kept ruleRemoved.
  induction rest as [|selector rest IH]; intros kept ruleRemoved Hflag Hall;
    [by eexists|].
  cbn [forallb] in Hall. apply andb_true_iff in Hall as [Hsel Hall].
  cbn [eachSelector].
  destruct (scanSelector_completes (isEmpty kept && isEmpty rest) false selector)
    as [removed ->].
  { apply Nat.leb_le, Hsel. }
  destruct ruleRemoved; [by specialize (Hflag eq_refl)|].
  destruct (_ && isEmpty rest) eqn:Hempty.
  - apply IH; [|done]. intros _.
    apply andb_true_iff in Hempty as [_ Hr]. by destruct rest.
  - apply IH; [done|done].
Qed.

Lemma eachRemove_completes {A} (f : A -> option (option A)) l :
  Forall (fun a => is_Some (f a)) l -> is_Some (eachRemove f l).
Proof.
  induction 1 as [|a rest [r Hr] _ [rest' Hrest]]; [by eexists|].
  cbn [eachRemove]. rewrite Hr, Hrest. by eexists.
Qed.

Lemma pruneNode_completes n :
  singleUnknownNode polluted classnames n = true ->
  is_Some (pruneNode isEmptyGuard polluted classnames n).
Proof.
  induction n as [prelude block|prelude block|name prelude block IH|value|text]
    using CssNode_nested_ind; cbn [singleUnknownNode pruneNode]; intros Hn.
  - destruct (eachSelector_completes [] prelude false) as [[out removed] ->];
      [done|done|]. destruct removed; by eexists.
  - discriminate.
  - destruct (eachRemove_completes (pruneNode isEmptyGuard polluted classnames) block)
      as [block' ->]; [|by eexists].
    rewrite forallb_forall in Hn. rewrite Forall_forall in IH |- *.
    intros n Hin. apply IH; [done|]. apply Hn. by apply list_elem_of_In.
  - by eexists.
  - by eexists.
Qed.

(** The pruning walk completes on every tree without raw preludes whose
    selectors hold at most one unknown class selector each. *)
Lemma pruneRules_completes ast :
  forallb (singleUnknownNode polluted classnames) ast = true ->
  pruneRules isEmptyGuard polluted classnames ast =
  Some (prunedSheet polluted classnames ast).
Proof.
  intros Hall.
  destruct (eachRemove_completes (pruneNode isEmptyGuard polluted classnames) ast)
    as [ast' Hast'].
  - rewrite forallb_forall in Hall. apply Forall_forall. intros n Hin.
    apply pruneNode_completes, Hall. by apply list_elem_of_In.
  - unfold pruneRules. rewrite Hast'. f_equal.
    by apply (pruneRules_result isEmptyGuard).
Qed.

End PruneCompletes.

(** C1, as the code has it: when the pruning walk completes, in either
    revision, it has removed from every rule's selector list exactly the
    selectors that hold, directly among their components, a class selector
    whose clean identifier the code does not find in the classnames, it has
    kept every other selector with all its components, and it has removed
    exactly the rules whose selector list became empty. The code looks a
    name up with [in], which also finds the names every object inherits. *)
Theorem pruneRules_removes_whole_selectors
    isEmptyGuard polluted classnames ast ast' :
  pruneRules isEmptyGuard polluted classnames ast = Some ast' ->
  ast' = prunedSheet polluted classnames ast.
Proof. apply pruneRules_result. Qed.

Lemma pruneRules_removes_whole_selectors_witness :
  [Rule [[ClassSelector "used"]] "color:red";
   Rule [[ClassSelector "toString"]] "color:green"] =
  prunedSheet false [("used", 1)]
    [Rule [[OtherSelector "TypeSelector" "p"; ClassSelector "unused"];
           [ClassSelector "used"]] "color:red";
     Rule [[ClassSelector "unused"]] "color:blue";
     Rule [[ClassSelector "toString"]] "color:green"].
Proof.
  apply (pruneRules_removes_whole_selectors false false [("used", 1)]
    [Rule [[OtherSelector "TypeSelector" "p"; ClassSelector "unused"];
           [ClassSelector "used"]] "color:red";
     Rule [[ClassSelector "unused"]] "color:blue";
     Rule [[ClassSelector "toString"]] "color:green"]).
  reflexivity.
Defined.

(** C1 as stated fails: in the rule [p.unused, .used] with only [used]
    known, the selector [p.unused] is removed as a whole, although
    taking the unknown class selector out of it would leave the component
    [p]; both revisions agree. *)
Lemma pruneRules_not_componentwise :
  let classnames := [("used", 1)] in
  let ast :=
    [Rule [[OtherSelector "TypeSelector" "p"; ClassSelector "unused"];
           [ClassSelector "used"]] "color:red"] in
  pruneRules false false classnames ast =
    Some [Rule [[ClassSelector "used"]] "color:red"] /\
  pruneRules true false classnames ast =
    Some [Rule [[ClassSelector "used"]] "color:red"] /\
  specSheet false classnames ast =
    [Rule [[OtherSelector "TypeSelector" "p"]; [ClassSelector "used"]]
       "color:red"] /\
  pruneRules false false classnames ast <> Some (specSheet false classnames ast) /\
  pruneRules true false classnames ast <> Some (specSheet false classnames ast).
Proof. cbv zeta. repeat split; try reflexivity; discriminate. Qed.

(** ** Traversals *)

Section EachFacts.
Context {S A B : Type} (f : S -> A -> option (S * B)) (Inv : S -> Prop).

Lemma eachM_invariant l s s' l' :
  Forall (fun a => forall s s' b, Inv s -> f s a = Some (s', b) -> Inv s') l ->
  Inv s -> eachM f s l = Some (s', l') -> Inv s'.
Proof.
  intros Hall; revert s l'; induction Hall as [|a rest Ha _ IH]; intros s l' Hs.
  - by intros [= <- <-].
  - cbn [eachM]. destruct (f s a) as [[s1 b]|] eqn:Hf; [|discriminate].
    destruct (eachM f s1 rest) as [[s2 bs]|] eqn:Hrest; [|discriminate].
    intros [= <- <-]. eapply IH; [|exact Hrest]. by eapply Ha.
Qed.

Lemma eachM_is_Some l s :
  Forall (fun a => forall s, is_Some (f s a)) l -> is_Some (eachM f s l).
Proof.
  intros Hall; revert s; induction Hall as [|a rest Ha _ IH]; intros s;
    [by eexists|].
  cbn [eachM]. destruct (Ha s) as [[s1 b] ->]. destruct (IH s1) as [[s2 bs] ->].
  by eexists.
Qed.

End EachFacts.

Lemma eachM_unchanged {S A} (f : S -> A -> option (S * A)) (Inv : S -> Prop) l :
  Forall (fun a => forall s, Inv s -> exists s', f s a = Some (s', a) /\ Inv s') l ->
  forall s, Inv s -> exists s', eachM f s l = Some (s', l) /\ Inv s'.
Proof.
  induction 1 as [|a rest Ha _ IH]; intros s Hs; [by exists s|].
  cbn [eachM]. destruct (Ha s Hs) as (s1 & -> & Hs1).
  destruct (IH s1 Hs1) as (s2 & -> & Hs2). by exists s2.
Qed.

Section WalkFacts.
Context {S : Type} (enter : S -> string -> option (S * string)) (Inv : S -> Prop).

Section Invariant.
Hypothesis enter_invariant :
  forall s name s' name', Inv s -> enter s name = Some (s', name') -> Inv s'.

Lemma walkComponent_invariant c :
  forall s s' c', Inv s -> walkComponent enter s c = Some (s', c') -> Inv s'.
Proof.
  induction c as [name|name children IH|type name] using Component_nested_ind;
    intros s s' c' Hs; cbn [walkComponent].
  - destruct (enter s name) as [[s1 name1]|] eqn:He; [|discriminate].
    intros [= <- <-]. by eapply enter_invariant.
  - destruct (eachM _ s children) as [[s1 children1]|] eqn:He; [|discriminate].
    intros [= <- <-]. eapply (eachM_invariant _ Inv); [|exact Hs|exact He].
    eapply Forall_impl; [exact IH|]. intros selector Hsel s0 s0' b Hs0.
    by apply (eachM_invariant _ Inv).
  - by intros [= <- <-].
Qed.

Lemma walkPrelude_invariant prelude s s' prelude' :
  Inv s -> eachM (eachM (walkComponent enter)) s prelude = Some (s', prelude') ->
  Inv s'.
Proof.
  apply (eachM_invariant _ Inv), Forall_forall. intros selector _ s0 s0' b.
  apply (eachM_invariant _ Inv), Forall_forall. intros c _.
  apply walkComponent_invariant.
Qed.

Lemma walkNode_invariant n :
  forall s s' n', Inv s -> walkNode enter s n = Some (s', n') -> Inv s'.
Proof.
  induction n as [prelude block|prelude block|name prelude block IH|value|text]
    using CssNode_nested_ind; intros s s' n' Hs; cbn [walkNode].
  - destruct (eachM _ s prelude) as [[s1 prelude1]|] eqn:He; [|discriminate].
    intros [= <- <-]. by eapply walkPrelude_invariant.
  - by intros [= <- <-].
  - destruct (eachM _ s block) as [[s1 block1]|] eqn:He; [|discriminate].
    intros [= <- <-]. by eapply (eachM_invariant _ Inv).
  - by intros [= <- <-].
  - by intros [= <- <-].
Qed.

Lemma walkClassSelectors_invariant ast s s' ast' :
  Inv s -> walkClassSelectors enter s ast = Some (s', ast') -> Inv s'.
Proof.
  apply (eachM_invariant _ Inv), Forall_forall. intros n _.
  apply walkNode_invariant.
Qed.

End Invariant.

Section Total.
Hypothesis enter_total : forall s name, is_Some (enter s name).

Lemma walkComponent_is_Some c : forall s, is_Some (walkComponent enter s c).
Proof.
  induction c as [name|name children IH|type name] using Component_nested_ind;
    intros s; cbn [walkComponent].
  - destruct (enter_total s name) as [[s1 name1] ->]. by eexists.
  - destruct (eachM_is_Some (eachM (walkComponent enter)) children s)
      as [[s1 children1] ->]; [|by eexists].
    eapply Forall_impl; [exact IH|]. intros selector Hsel s0.
    by apply eachM_is_Some.
  - by eexists.
Qed.

Lemma walkNode_is_Some n : forall s, is_Some (walkNode enter s n).
Proof.
  induction n as [prelude block|prelude block|name prelude block IH|value|text]
    using CssNode_nested_ind; intros s; cbn [walkNode].
  - destruct (eachM_is_Some (eachM (walkComponent enter)) prelude s)
      as [[s1 prelude1] ->]; [|by eexists].
    apply Forall_forall. intros selector _ s0. apply eachM_is_Some, Forall_forall.
    intros c _. apply walkComponent_is_Some.
  - by eexists.
  - destruct (eachM_is_Some (walkNode enter) block s) as [[s1 block1] ->];
      [done|by eexists].
  - by eexists.
  - by eexists.
Qed.

Lemma walkClassSelectors_is_Some ast s : is_Some (walkClassSelectors enter s ast).
Proof.
  apply eachM_is_Some, Forall_forall. intros n _. apply walkNode_is_Some.
Qed.

End Total.
End WalkFacts.

Lemma eachM_app {S A B} (f : S -> A -> option (S * B)) l1 l2 s :
  eachM f s (l1 ++ l2) =
  match eachM f s l1 with
  | None => None
  | Some (s1, r1) => onResult (app r1) (eachM f s1 l2)
  end.
Proof.
  revert s; induction l1 as [|a rest IH]; intros s; cbn [app eachM].
  - by destruct (eachM f s l2) as [[s2 r2]|].
  - destruct (f s a) as [[s1 b]|]; [|done]. rewrite IH.
    destruct (eachM f s1 rest) as [[s2 r1]|]; [|done].
    by destruct (eachM f s2 l2) as [[s3 r2]|].
Qed.

Lemma eachM_flat_map {S A A' B B'} (f : S -> A -> option (S * A'))
    (g : S -> B -> option (S * B')) (h : A -> list B) (h' : A' -> list B') l :
  Forall (fun a => forall s, eachM g s (h a) = onResult h' (f s a)) l ->
  forall s, eachM g s (flat_map h l) = onResult (flat_map h') (eachM f s l).
Proof.
  induction 1 as [|a rest Ha _ IH]; intros s; [reflexivity|].
  cbn [flat_map eachM]. rewrite eachM_app, Ha.
  destruct (f s a) as [[s1 a']|]; [|done]. cbn [onResult]. rewrite IH.
  by destruct (eachM f s1 rest) as [[s2 r]|].
Qed.

Lemma eachM_map_eq {S A B C} (f : S -> A -> option (S * B))
    (e : A -> C) (e' : B -> C) l :
  Forall (fun a => forall s s' b, f s a = Some (s', b) -> e' b = e a) l ->
  forall s s' l', eachM f s l = Some (s', l') -> map e' l' = map e l.
Proof.
  induction 1 as [|a rest Ha _ IH]; intros s s' l'; cbn [eachM].
  - by intros [= <- <-].
  - destruct (f s a) as [[s1 b]|] eqn:Hf; [|discriminate].
    destruct (eachM f s1 rest) as [[s2 bs]|] eqn:Hrest; [|discriminate].
    intros [= <- <-]. cbn [map]. by rewrite (Ha _ _ _ Hf), (IH _ _ _ Hrest).
Qed.

Section WalkClasses.
Context {S : Type} (enter : S -> string -> option (S * string)).

Lemma walkComponent_classes c : forall s,
  eachM enter s (componentClasses c) =
  onResult componentClasses (walkComponent enter s c).
Proof.
  induction c as [name|name children IH|type name] using Component_nested_ind;
    intros s; cbn [componentClasses walkComponent eachM].
  - by destruct (enter s name) as [[s' name']|].
  - rewrite (eachM_flat_map (eachM (walkComponent enter)) enter
               (flat_map componentClasses) (flat_map componentClasses)).
    + by destruct (eachM _ s children) as [[s' children']|].
    + eapply Forall_impl; [exact IH|]. intros selector Hsel s0.
      by apply eachM_flat_map.
  - reflexivity.
Qed.

Lemma walkPrelude_classes (prelude : list Selector) s :
  eachM enter s (flat_map (flat_map componentClasses) prelude) =
  onResult (flat_map (flat_map componentClasses))
    (eachM (eachM (walkComponent enter)) s prelude).
Proof.
  apply eachM_flat_map, Forall_forall. intros selector _ s0.
  apply eachM_flat_map, Forall_forall. intros c _. apply walkComponent_classes.
Qed.

Lemma walkNode_classes n : forall s,
  eachM enter s (nodeClasses n) = onResult nodeClasses (walkNode enter s n).
Proof.
  induction n as [prelude block|prelude block|name prelude block IH|value|text]
    using CssNode_nested_ind; intros s; cbn [nodeClasses walkNode];
    try reflexivity.
  - rewrite walkPrelude_classes.
    by destruct (eachM _ s prelude) as [[s' prelude']|].
  - rewrite (eachM_flat_map (walkNode enter) enter nodeClasses nodeClasses)
      by exact IH.
    by destruct (eachM _ s block) as [[s' block']|].
Qed.

(** A walk over the class selectors of a tree calls [enter] on their names
    in order: its state and the names it leaves are those of [enter] run
    over the list of the names. *)
Lemma walkClassSelectors_classes ast s :
  eachM enter s (sheetClasses ast) =
  onResult sheetClasses (walkClassSelectors enter s ast).
Proof.
  apply eachM_flat_map, Forall_forall. intros n _. apply walkNode_classes.
Qed.

Lemma walkComponent_erase c : forall s s' c',
  walkComponent enter s c = Some (s', c') -> eraseComponent c' = eraseComponent c.
Proof.
  induction c as [name|name children IH|type name] using Component_nested_ind;
    intros s s' c'; cbn [walkComponent].
  - destruct (enter s name) as [[s1 name1]|]; [|discriminate].
    by intros [= <- <-].
  - destruct (eachM _ s children) as [[s1 children1]|] eqn:He; [|discriminate].
    intros [= <- <-]. cbn [eraseComponent]. f_equal.
    eapply eachM_map_eq; [|exact He].
    eapply Forall_impl; [exact IH|]. intros selector Hsel s0 s0' b.
    by apply eachM_map_eq.
  - by intros [= <- <-].
Qed.

Lemma walkNode_erase n : forall s s' n',
  walkNode enter s n = Some (s', n') -> eraseNode n' = eraseNode n.
Proof.
  induction n as [prelude block|prelude block|name prelude block IH|value|text]
    using CssNode_nested_ind; intros s s' n'; cbn [walkNode];
    try (by intros [= <- <-]).
  - destruct (eachM _ s prelude) as [[s1 prelude1]|] eqn:He; [|discriminate].
    intros [= <- <-]. cbn [eraseNode]. f_equal.
    eapply eachM_map_eq; [|exact He]. apply Forall_forall.
    intros selector _ s0 s0' b. apply eachM_map_eq, Forall_forall.
    intros c _. apply walkComponent_erase.
  - destruct (eachM _ s block) as [[s1 block1]|] eqn:He; [|discriminate].
    intros [= <- <-]. cbn [eraseNode]. f_equal.
    by eapply eachM_map_eq.
Qed.

Lemma walkClassSelectors_erase ast s s' ast' :
  walkClassSelectors enter s ast = Some (s', ast') ->
  map eraseNode ast' = map eraseNode ast.
Proof.
  apply eachM_map_eq, Forall_forall. intros n _. apply walkNode_erase.
Qed.

Section Unchanged.
Hypothesis enter_keeps :
  forall s name s' name', enter s name = Some (s', name') -> name' = name.

Lemma eachM_same {A} (f : S -> A -> option (S * A)) l :
  Forall (fun a => forall s s' b, f s a = Some (s', b) -> b = a) l ->
  forall s s' l', eachM f s l = Some (s', l') -> l' = l.
Proof.
  intros Hall s s' l' He.
  apply (eachM_map_eq f id id) in He; [by rewrite !map_id in He|done].
Qed.

Lemma walkComponent_same c : forall s s' c',
  walkComponent enter s c = Some (s', c') -> c' = c.
Proof.
  induction c as [name|name children IH|type name] using Component_nested_ind;
    intros s s' c'; cbn [walkComponent].
  - destruct (enter s name) as [[s1 name1]|] eqn:He; [|discriminate].
    intros [= <- <-]. f_equal. by eapply enter_keeps.
  - destruct (eachM _ s children) as [[s1 children1]|] eqn:He; [|discriminate].
    intros [= <- <-]. f_equal. eapply eachM_same; [|exact He].
    eapply Forall_impl; [exact IH|]. intros selector Hsel s0 s0' b.
    by apply eachM_same.
  - by intros [= <- <-].
Qed.

Lemma walkNode_same n : forall s s' n',
  walkNode enter s n = Some (s', n') -> n' = n.
Proof.
  induction n as [prelude block|prelude block|name prelude block IH|value|text]
    using CssNode_nested_ind; intros s s' n'; cbn [walkNode];
    try (by intros [= <- <-]).
  - destruct (eachM _ s prelude) as [[s1 prelude1]|] eqn:He; [|discriminate].
    intros [= <- <-]. f_equal. eapply eachM_same; [|exact He].
    apply Forall_forall. intros selector _ s0 s0' b.
    apply eachM_same, Forall_forall. intros c _. apply walkComponent_same.
  - destruct (eachM _ s block) as [[s1 block1]|] eqn:He; [|discriminate].
    intros [= <- <-]. f_equal. by eapply eachM_same.
Qed.

(** A walk whose callback assigns no new name leaves the tree as it is. *)
Lemma walkClassSelectors_same ast s s' ast' :
  walkClassSelectors enter s ast = Some (s', ast') -> ast' = ast.
Proof.
  apply eachM_same, Forall_forall. intros n _. apply walkNode_same.
Qed.

End Unchanged.

End WalkClasses.

(** ** The counting walk *)

Lemma forallb_pointwise {A} (f g : A -> bool) l :
  (forall a, f a = g a) -> forallb f l = forallb g l.
Proof.
  intros Hfg. induction l as [|a rest IH]; [reflexivity|].
  cbn [forallb]. by rewrite Hfg, IH.
Qed.

Lemma existsb_pointwise {A} (f g : A -> bool) l :
  (forall a, f a = g a) -> existsb f l = existsb g l.
Proof.
  intros Hfg. induction l as [|a rest IH]; [reflexivity|].
  cbn [existsb]. by rewrite Hfg, IH.
Qed.

Lemma forallb_impl {A} (f g : A -> bool) l :
  (forall a, f a = true -> g a = true) ->
  forallb f l = true -> forallb g l = true.
Proof.
  intros Hfg. rewrite !forallb_forall. intros Hf a Ha. by apply Hfg, Hf.
Qed.

Lemma countEnter_keeps s nodeName s' nodeName' :
  countEnter s nodeName = Some (s', nodeName') -> nodeName' = nodeName.
Proof. unfold countEnter. destruct (inClassnames _ _ _); by intros [= <- <-]. Qed.

Lemma knownName_or polluted b classnames nodeName :
  knownName polluted classnames nodeName = true ->
  knownName (polluted || b) classnames nodeName = true.
Proof.
  unfold knownName, inClassnames. intros [Hk|Hi]%orb_true_iff.
  - by rewrite Hk.
  - by rewrite (isInherited_or _ _ _ Hi), orb_true_r.
Qed.

Lemma hasKey_countNames nodeNames : forall s t,
  hasKey t (countNames s nodeNames) = hasKey t s.
Proof.
  unfold countNames.
  induction nodeNames as [|n rest IH]; intros s t; cbn [fold_left]; [done|].
  by rewrite IH, hasKey_increment.
Qed.

Lemma keys_countNames nodeNames : forall s : Classnames,
  map fst (countNames s nodeNames) = map fst s.
Proof.
  unfold countNames.
  induction nodeNames as [|n rest IH]; intros s; cbn [fold_left]; [done|].
  by rewrite IH, keys_increment.
Qed.

Lemma countOf_countNames nodeNames : forall s t,
  hasKey t s = true ->
  countOf t (countNames s nodeNames) =
  countOf t s + count_occ string_dec (map cleanCSSIdentifier nodeNames) t.
Proof.
  unfold countNames.
  induction nodeNames as [|n rest IH]; intros s t Ht; cbn [fold_left map count_occ].
  - lia.
  - rewrite IH by (by rewrite hasKey_increment).
    rewrite countOf_increment.
    destruct (string_dec (cleanCSSIdentifier n) t) as [<-|Hne].
    + rewrite decide_True, Ht by done. lia.
    + rewrite decide_False by congruence. lia.
Qed.

Section SameKeys.
Context (polluted : bool) (c1 c2 : Classnames).
Hypothesis Hkeys : forall t, hasKey t c1 = hasKey t c2.

Lemma inClassnames_same t : inClassnames polluted t c1 = inClassnames polluted t c2.
Proof. unfold inClassnames. by rewrite Hkeys. Qed.

Lemma pollutes_same t : pollutes c1 t = pollutes c2 t.
Proof. unfold pollutes. by rewrite Hkeys. Qed.

Lemma unknownClass_same c :
  unknownClass polluted c1 c = unknownClass polluted c2 c.
Proof. destruct c; cbn [unknownClass]; [by rewrite inClassnames_same|done|done]. Qed.

Lemma keepsSelector_same selector :
  keepsSelector polluted c1 selector = keepsSelector polluted c2 selector.
Proof.
  unfold keepsSelector. apply forallb_pointwise. intros c.
  by rewrite unknownClass_same.
Qed.

End SameKeys.

Lemma allKnown_same (c1 c2 : Classnames) nodeNames :
  (forall t, hasKey t c1 = hasKey t c2) ->
  forall polluted, allKnown polluted c1 nodeNames = allKnown polluted c2 nodeNames.
Proof.
  intros Hkeys. induction nodeNames as [|n rest IH]; intros polluted; [done|].
  cbn [allKnown]. unfold knownName.
  by rewrite (inClassnames_same _ _ _ Hkeys), (pollutes_same _ _ Hkeys), IH.
Qed.

Lemma eachM_countEnter nodeNames : forall polluted classnames,
  eachM countEnter (polluted, classnames) nodeNames =
  if allKnown polluted classnames nodeNames
  then Some ((pollutedAfter polluted classnames nodeNames,
              countNames classnames nodeNames), nodeNames)
  else None.
Proof.
  unfold pollutedAfter.
  induction nodeNames as [|n rest IH]; intros polluted classnames;
    cbn [eachM allKnown existsb].
  - by rewrite orb_false_r.
  - unfold countEnter at 1. cbn [fst snd]. unfold knownName at 1.
    destruct (inClassnames polluted (cleanCSSIdentifier n) classnames); [|done].
    cbn [andb]. rewrite incrementCount_eq. cbn [fst snd]. rewrite IH.
    set (c1 := increment (cleanCSSIdentifier n) classnames).
    assert (Hkeys : forall t, hasKey t c1 = hasKey t classnames)
      by (intros t; apply hasKey_increment).
    rewrite (allKnown_same _ _ rest Hkeys).
    destruct (allKnown _ classnames rest); [|done].
    rewrite (existsb_pointwise _
               (fun nodeName => pollutes classnames (cleanCSSIdentifier nodeName))
               rest) by (intros a; by apply pollutes_same).
    by rewrite orb_assoc.
Qed.

(** The counting walk in closed form. *)
Lemma countClassSelectors_eq polluted classnames ast :
  countClassSelectors (polluted, classnames) ast =
  if allKnown polluted classnames (sheetClasses ast)
  then Some ((pollutedAfter polluted classnames (sheetClasses ast),
              countNames classnames (sheetClasses ast)), ast)
  else None.
Proof.
  pose proof (walkClassSelectors_classes countEnter ast (polluted, classnames))
    as Hwalk.
  rewrite eachM_countEnter in Hwalk. unfold countClassSelectors.
  destruct (walkClassSelectors countEnter (polluted, classnames) ast)
    as [[s' ast']|] eqn:Hw; cbn [onResult] in Hwalk.
  - apply (walkClassSelectors_same countEnter countEnter_keeps) in Hw as Hsame.
    subst ast'. destruct (allKnown _ _ _); [|discriminate]. congruence.
  - by destruct (allKnown _ _ _).
Qed.

Lemma allKnown_of_known classnames nodeNames : forall polluted,
  forallb (knownName polluted classnames) nodeNames = true ->
  allKnown polluted classnames nodeNames = true.
Proof.
  induction nodeNames as [|n rest IH]; intros polluted; [done|].
  cbn [forallb allKnown]. intros [Hn Hrest]%andb_true_iff.
  rewrite Hn. apply IH.
  eapply forallb_impl; [|exact Hrest]. intros a. apply knownName_or.
Qed.

Lemma allKnown_known classnames nodeNames : forall polluted,
  allKnown polluted classnames nodeNames = true ->
  forallb (knownName (pollutedAfter polluted classnames nodeNames) classnames)
    nodeNames = true.
Proof.
  unfold pollutedAfter.
  induction nodeNames as [|n rest IH]; intros polluted; [done|].
  cbn [forallb allKnown existsb]. intros [Hn Hrest]%andb_true_iff.
  apply andb_true_iff. split; [by apply knownName_or|].
  rewrite orb_assoc. by apply IH.
Qed.

Lemma pollutes_other classnames name :
  name <> "__proto__" -> pollutes classnames name = false.
Proof.
  intros Hne. unfold pollutes.
  by rewrite bool_decide_eq_false_2, andb_false_r.
Qed.

Lemma allKnown_no_proto classnames nodeNames : forall polluted,
  "__proto__" ∉ map cleanCSSIdentifier nodeNames ->
  allKnown polluted classnames nodeNames =
    forallb (knownName polluted classnames) nodeNames /\
  pollutedAfter polluted classnames nodeNames = polluted.
Proof.
  unfold pollutedAfter.
  induction nodeNames as [|n rest IH]; intros polluted;
    cbn [map allKnown forallb existsb].
  - intros _. by rewrite orb_false_r.
  - rewrite not_elem_of_cons. intros [Hn Hrest].
    rewrite pollutes_other by congruence. rewrite orb_false_r. cbn [orb].
    destruct (IH polluted Hrest) as [-> Hp]. done.
Qed.

Section CountingWalk.
Context (polluted : bool) (classnames : Classnames).

Lemma kept_selector_known selector :
  keepsSelector polluted classnames selector = true ->
  forallb flatComponent selector = true ->
  forallb (knownName polluted classnames) (flat_map componentClasses selector)
    = true.
Proof.
  unfold keepsSelector. induction selector as [|c cs IH]; [done|].
  cbn [forallb flat_map].
  intros [Hc Hcs]%andb_true_iff [Hflat Hflats]%andb_true_iff.
  rewrite forallb_app, (IH Hcs Hflats), andb_true_r.
  destruct c as [name|name children|type name]; cbn [componentClasses forallb].
  - cbn [unknownClass] in Hc. unfold knownName.
    rewrite andb_true_r. by destruct (inClassnames _ _ _).
  - cbn [flatComponent] in Hflat. by destruct (flat_map _ children).
  - done.
Qed.

Lemma prunedNode_known n n' :
  flatNode n = true -> prunedNode polluted classnames n = Some n' ->
  forallb (knownName polluted classnames) (nodeClasses n') = true.
Proof.
  revert n'.
  induction n as [prelude block|prelude block|name prelude block IH|value|text]
    using CssNode_nested_ind; intros n'; cbn [flatNode prunedNode];
    try (by intros _ [= <-]).
  - intros Hflat. destruct (_ && _); [discriminate|]. intros [= <-].
    cbn [nodeClasses]. induction prelude as [|selector rest IHrest]; [done|].
    cbn [forallb] in Hflat. apply andb_true_iff in Hflat as [Hsel Hrest].
    cbn [List.filter].
    destruct (keepsSelector polluted classnames selector) eqn:Hkeep;
      [|by apply IHrest].
    cbn [flat_map]. rewrite forallb_app, (IHrest Hrest), andb_true_r.
    by apply kept_selector_known.
  - intros Hflat [= <-]. cbn [nodeClasses].
    induction IH as [|n rest Hn _ IHrest]; [done|].
    cbn [forallb] in Hflat. apply andb_true_iff in Hflat as [Hflatn Hflatrest].
    cbn [omap list_omap].
    destruct (prunedNode polluted classnames n) as [n1|] eqn:Hn1;
      [|by apply IHrest].
    cbn [flat_map].
    by rewrite forallb_app, (Hn n1 Hflatn eq_refl), (IHrest Hflatrest).
Qed.

Lemma prunedSheet_known ast :
  flatSheet ast = true ->
  forallb (knownName polluted classnames)
    (sheetClasses (prunedSheet polluted classnames ast)) = true.
Proof.
  unfold flatSheet, sheetClasses, prunedSheet.
  induction ast as [|n rest IH]; intros Hflat; [done|].
  cbn [forallb] in Hflat. apply andb_true_iff in Hflat as [Hn Hrest].
  cbn [omap list_omap].
  destruct (prunedNode polluted classnames n) as [n1|] eqn:Hn1; [|by apply IH].
  cbn [flat_map].
  by rewrite forallb_app, (prunedNode_known _ _ Hn Hn1), (IH Hrest).
Qed.

(** On trees without class selectors inside pseudo-class arguments the
    counting walk completes after every completed pruning walk, and leaves
    the tree as it is. *)
Lemma flat_sheet_counting_walk_completes isEmptyGuard ast ast' :
  flatSheet ast = true ->
  pruneRules isEmptyGuard polluted classnames ast = Some ast' ->
  exists s', parseCSSWith isEmptyGuard (polluted, classnames) ast = Some (s', ast').
Proof.
  intros Hflat Hprune. unfold parseCSSWith. cbn [fst snd]. rewrite Hprune.
  apply pruneRules_result in Hprune. subst ast'.
  rewrite countClassSelectors_eq, allKnown_of_known; [by eexists|].
  by apply prunedSheet_known.
Qed.

End CountingWalk.

(** C5 fails on the code: for [p:not(.unused)] with only [used] known the
    pruning walk completes and removes nothing, since it only looks at the
    components directly in a selector, and the counting walk then reaches
    the class selector inside the pseudo-class argument and throws; both
    revisions do. *)
Theorem counting_walk_meets_unknown_class :
  forall polluted,
  let classnames := [("used", 1)] in
  let ast :=
    [Rule [[OtherSelector "TypeSelector" "p";
            PseudoClassSelector "not" [[ClassSelector "unused"]]]]
       "color:red"] in
  pruneRules false polluted classnames ast = Some ast /\
  pruneRules true polluted classnames ast = Some ast /\
  countClassSelectors (polluted, classnames) ast = None /\
  parseCSS (polluted, classnames) ast = None /\
  parseAndTrackCSSNodes (polluted, classnames) ast = None.
Proof. intros []; cbv zeta; repeat split. Qed.

(** ** Ranking *)

Lemma insertDesc_perm x l : Permutation (insertDesc x l) (x :: l).
Proof.
  induction l as [|y rest IH]; [reflexivity|].
  cbn [insertDesc]. destruct (total x <? total y); [|reflexivity].
  rewrite IH. apply perm_swap.
Qed.

Lemma sortDesc_perm l : Permutation (sortDesc l) l.
Proof.
  induction l as [|x rest IH]; [reflexivity|].
  cbn [sortDesc fold_right]. fold (sortDesc rest).
  rewrite insertDesc_perm. by constructor.
Qed.

Lemma insertDesc_sorted x l :
  StronglySorted (fun a b => total b <= total a) l ->
  StronglySorted (fun a b => total b <= total a) (insertDesc x l).
Proof.
  induction 1 as [|y rest Hsorted IH Hy]; [repeat constructor|].
  cbn [insertDesc]. destruct (Nat.ltb_spec (total x) (total y)) as [Hlt|Hge].
  - constructor; [exact IH|].
    eapply Permutation_Forall; [symmetry; apply insertDesc_perm|].
    constructor; [lia | exact Hy].
  - constructor; [by constructor|]. constructor; [exact Hge|].
    eapply Forall_impl; [exact Hy|]. intros z Hz. cbn beta in Hz |- *. lia.
Qed.

Lemma sortDesc_sorted l :
  StronglySorted (fun a b => total b <= total a) (sortDesc l).
Proof.
  induction l as [|x rest IH]; [constructor|].
  cbn [sortDesc fold_right]. by apply insertDesc_sorted.
Qed.

(** ** The CSS rewrite pass *)

Section RenameFacts.
Context (init : Rename) (sorted : list Ranked).

Lemma renameEnter_ranked i sel rename nodeName rename' name' :
  sorted !! i = Some sel ->
  rankedEntries init sorted rename ->
  renameEnter i sel rename nodeName = Some (rename', name') ->
  rankedEntries init sorted rename'.
Proof.
  intros Hi Hinv. unfold renameEnter.
  destruct (decide (cleanCSSIdentifier nodeName = name sel)) as [Heq|Hne].
  - destruct (generateShortestName i) as [newname|] eqn:Hgen; [|discriminate].
    intros [= <- <-] k v. rewrite lookup_insert.
    destruct (decide (cleanCSSIdentifier nodeName = k)) as [<-|Hk].
    + intros [= <-]. right. by exists i, sel, newname.
    + apply Hinv.
  - by intros [= <- <-].
Qed.

Lemma processCSSFrom_ranked rest : forall i rename ast rename' ast',
  (forall j sel, rest !! j = Some sel -> sorted !! (i + j) = Some sel) ->
  rankedEntries init sorted rename ->
  processCSSFrom i rest rename ast = Some (rename', ast') ->
  rankedEntries init sorted rename'.
Proof.
  induction rest as [|sel rest IH]; intros i rename ast rename' ast' Hrest Hinv;
    cbn [processCSSFrom].
  - by intros [= <- <-].
  - destruct (walkClassSelectors _ rename ast) as [[rename1 ast1]|] eqn:Hwalk;
      [|discriminate].
    apply IH.
    + intros j sel' Hj. replace (S i + j) with (i + S j) by lia.
      by apply Hrest.
    + eapply (walkClassSelectors_invariant _ (rankedEntries init sorted));
        [|exact Hinv|exact Hwalk].
      intros s name0 s' name0' Hs. apply renameEnter_ranked; [|done].
      rewrite <- (Nat.add_0_r i). by apply Hrest.
Qed.

Lemma processCSS_ranked rename ast rename' ast' :
  rankedEntries init sorted rename ->
  processCSS sorted rename ast = Some (rename', ast') ->
  rankedEntries init sorted rename'.
Proof. apply processCSSFrom_ranked. by intros j sel. Qed.

End RenameFacts.

Lemma renameEnter_is_Some i sel rename nodeName :
  is_Some (renameEnter i sel rename nodeName).
Proof.
  unfold renameEnter. rewrite generateShortestName_eq.
  destruct (decide _); by eexists.
Qed.

(** The CSS rewrite pass never throws. *)
Lemma processCSS_is_Some sorted rename ast : is_Some (processCSS sorted rename ast).
Proof.
  unfold processCSS. generalize 0 as i. revert rename ast.
  induction sorted as [|sel rest IH]; intros rename ast i; [by eexists|].
  cbn [processCSSFrom].
  destruct (walkClassSelectors_is_Some (renameEnter i sel)
              (renameEnter_is_Some i sel) ast rename) as [[rename1 ast1] ->].
  apply IH.
Qed.

Lemma rankedEntries_injective sorted (rename : Rename) k1 k2 v :
  rankedEntries renameInit sorted rename ->
  rename !! k1 = Some v -> rename !! k2 = Some v -> k1 = k2.
Proof.
  intros Hinv H1 H2.
  assert (Hinit : forall k w, renameInit !! k = Some w ->
                              k = "classnames" /\ w = JSObject).
  { intros k w. unfold renameInit. rewrite lookup_singleton.
    destruct (decide ("classnames" = k)) as [<-|]; [|discriminate].
    by intros [= <-]. }
  destruct (Hinv _ _ H1) as [[-> ->]%Hinit|(i1 & sel1 & s1 & Hi1 & <- & Hg1 & ->)];
    destruct (Hinv _ _ H2) as [[-> Hv]%Hinit|(i2 & sel2 & s2 & Hi2 & <- & Hg2 & Hv)];
    try done.
  injection Hv as ->.
  assert (i1 = i2) as -> by (by eapply generateShortestName_inj).
  congruence.
Qed.

(** C2: whatever the input files, two classnames with the same entry in the
    rename map that a run of [rip] builds are the same classname. *)
Theorem rip_rename_injective polluted htmlFiles cssFiles out k1 k2 v :
  rip polluted htmlFiles cssFiles = Some out ->
  renames out !! k1 = Some v ->
  renames out !! k2 = Some v ->
  k1 = k2.
Proof.
  unfold rip.
  destruct (eachM parseCSS _ cssFiles) as [[[polluted' classnames'] asts]|];
    [|discriminate].
  destruct (eachM _ renameInit asts) as [[rename asts']|] eqn:Hcss; [|discriminate].
  intros [= <-]. cbn [renames].
  apply (rankedEntries_injective (sorted (entries classnames'))).
  eapply (eachM_invariant _
            (rankedEntries renameInit (sorted (entries classnames'))));
    [|by left|exact Hcss].
  apply Forall_forall. intros ast _ s s' b. apply processCSS_ranked.
Qed.

Lemma rip_rename_injective_witness : "header" = "header".
Proof.
  eapply (rip_rename_injective false
            [HTMLElement "div" [("class", "header header")] ["header"; "header"]
               [HTMLElement "p" [("class", "header text")] ["header"; "text"]
                  [TextNode "Hi"]]]
            [[Rule [[ClassSelector "header"]] "color:blue";
              Rule [[ClassSelector "unused"]] "color:red";
              Rule [[ClassSelector "text"]] "font-size:1em"]]
            _ "header" "header" (JSString "a"));
    [reflexivity | vm_compute; reflexivity | vm_compute; reflexivity].
Defined.

(** C4: the planner gives every classname the weight count times name
    length, ranks the classnames by descending weight, and the rewrite pass
    gives the classname at rank [i] the name the generator returns for [i];
    with x counted 10 times and longname 3 times the weights are 10 and 24,
    longname comes first and gets a, x gets b. *)
Theorem ranking_by_byte_weight :
  (forall classnames,
      Forall2 (fun e r => name r = e.1 /\ total r = String.length e.1 * e.2)
        classnames (totals classnames)) /\
  (forall classnames,
      Permutation (totals classnames) (sorted classnames) /\
      StronglySorted (fun a b => total b <= total a) (sorted classnames)) /\
  (forall classnames rename ast,
      match processCSS (sorted classnames) rename ast with
      | None => False
      | Some (rename', _) => rankedEntries rename (sorted classnames) rename'
      end) /\
  (sorted [("x", 10); ("longname", 3)] =
     [{| name := "longname"; total := 24 |}; {| name := "x"; total := 10 |}] /\
   sorted [("longname", 3); ("x", 10)] =
     [{| name := "longname"; total := 24 |}; {| name := "x"; total := 10 |}]) /\
  match processCSS (sorted [("x", 10); ("longname", 3)]) renameInit
          [Rule [[ClassSelector "x"]] "color:red";
           Rule [[ClassSelector "longname"; ClassSelector "x"]] "color:blue"]
  with
  | None => False
  | Some (rename, ast) =>
      rename !! "longname" = Some (JSString "a") /\
      rename !! "x" = Some (JSString "b") /\
      ast = [Rule [[ClassSelector "b"]] "color:red";
             Rule [[ClassSelector "a"; ClassSelector "b"]] "color:blue"]
  end.
Proof.
  split; [|split; [|split; [|split]]].
  - intros classnames. unfold totals.
    induction classnames as [|[n c] rest IH]; constructor; [done|exact IH].
  - intros classnames. unfold sorted. split.
    + symmetry. apply sortDesc_perm.
    + apply sortDesc_sorted.
  - intros classnames rename ast.
    destruct (processCSS_is_Some (sorted classnames) rename ast)
      as [[rename' ast'] Hp].
    rewrite Hp. eapply processCSS_ranked; [|exact Hp]. by left.
  - split; reflexivity.
  - vm_compute. repeat split.
Qed.

(** C8 fails on the code. A class token [classnames] that no CSS file
    mentions has an entry from the start, the object literal the map of
    [rip] is created with, and is rewritten to that object's text. And a
    token that is also a generated name gets an entry although no class
    selector had it: with the tokens [longname] and [a] in the HTML and only
    [.longname] in the CSS, the selector is renamed to [a] at rank 0, matches
    the classname [a] at rank 1 and is renamed again. *)
Theorem rip_renames_token_absent_from_css :
  forall polluted,
  rip polluted [HTMLElement "p" [("class", "classnames")] ["classnames"] []] [] =
    Some {| html := [HTMLElement "p" [("class", "[object Object]")]
                       ["classnames"] []];
            css := [];
            renames := renameInit |} /\
  match rip polluted
          [HTMLElement "p" [("class", "longname a")] ["longname"; "a"] []]
          [[Rule [[ClassSelector "longname"]] "color:red"]]
  with
  | None => False
  | Some out =>
      html out = [HTMLElement "p" [("class", "a b")] ["longname"; "a"] []] /\
      css out = [[Rule [[ClassSelector "b"]] "color:red"]] /\
      renames out !! "longname" = Some (JSString "a") /\
      renames out !! "a" = Some (JSString "b")
  end.
Proof. intros []; (split; [reflexivity|]); vm_compute; repeat split. Qed.

(** ** Examples *)

Example generateShortestName_samples :
  map generateShortestName [0; 1; 25; 26; 27; 51; 52; 311] =
  map Some ["a"; "b"; "z"; "a0"; "b0"; "z0"; "a1"; "z10"].
Proof. reflexivity. Qed.

Example Decimal_toString_samples :
  map Decimal.toString [0; 7; 10; 99; 100; 1234] =
  ["0"; "7"; "10"; "99"; "100"; "1234"].
Proof. reflexivity. Qed.

Example cleanCSSIdentifier_sample :
  cleanCSSIdentifier (String "m" (String backslash (String ":" "x"))) = "m:x".
Proof. reflexivity. Qed.

(** A selector with two unknown class selectors makes the list throw when
    it is unlinked a second time; the guard of the TypeScript revision
    avoids that only when the selector list has become empty. *)
Example pruneRules_second_unlink :
  let classnames := [("used", 1)] in
  let twice := [ClassSelector "u1"; ClassSelector "u2"] in
  pruneRules false false classnames [Rule [twice] "color:red"] = None /\
  pruneRules true false classnames [Rule [twice] "color:red"] = Some [] /\
  pruneRules true false classnames
    [Rule [twice; [ClassSelector "used"]] "color:red"] = None.
Proof. cbv zeta. repeat split. Qed.

(** The scenario of the specification: two HTML elements with the tokens
    header, header and header, text, and three CSS rules. *)
Example rip_scenario :
  match
    rip false
        [HTMLElement "div" [("class", "header header")] ["header"; "header"]
           [HTMLElement "p" [("class", "header text")] ["header"; "text"]
              [TextNode "Hi"]]]
        [[Rule [[ClassSelector "header"]] "color:blue";
          Rule [[ClassSelector "unused"]] "color:red";
          Rule [[ClassSelector "text"]] "font-size:1em"]]
  with
  | None => False
  | Some out =>
      html out =
        [HTMLElement "div" [("class", "a a")] ["header"; "header"]
           [HTMLElement "p" [("class", "a b")] ["header"; "text"]
              [TextNode "Hi"]]] /\
      css out = [[Rule [[ClassSelector "a"]] "color:blue";
                  Rule [[ClassSelector "b"]] "font-size:1em"]]
  end.
Proof. vm_compute. split; reflexivity. Qed.

(** A class selector named like an inherited property is taken for known:
    its rule stays, and when the name is __proto__ the counting walk leaves
    [Object.prototype] with a property [count], which makes [.count] known
    to a later pruning walk. A rule with a raw prelude makes the pruning
    walk throw. *)
Example inherited_names_in_css :
  pruneRules false false [("used", 1)]
    [Rule [[ClassSelector "constructor"]] "color:red";
     Rule [[ClassSelector "count"]] "color:blue"] =
    Some [Rule [[ClassSelector "constructor"]] "color:red"] /\
  eachM parseCSS (false, [("used", 1)])
    [[Rule [[ClassSelector "__proto__"]] "color:red"];
     [Rule [[ClassSelector "count"]] "color:blue"]] =
    Some ((true, [("used", 1)]),
          [[Rule [[ClassSelector "__proto__"]] "color:red"];
           [Rule [[ClassSelector "count"]] "color:blue"]]) /\
  pruneRules false false [("used", 1)] [RawRule "%" "color:red"] = None /\
  pruneRules true false [("used", 1)] [RawRule "%" "color:red"] = None.
Proof. repeat split. Qed.

(** The enumeration order of the counts: array indices first, ascending. *)
Example entries_order :
  entries [("b", 1); ("10", 2); ("9", 3); ("01", 1); ("a", 4)] =
  [("9", 3); ("10", 2); ("b", 1); ("01", 1); ("a", 4)].
Proof. reflexivity. Qed.

(** The first walk of the TypeScript revision takes the comments out. *)
Example parseAndTrackCSSNodes_comments :
  parseAndTrackCSSNodes (false, [("used", 1)])
    [Comment "! banner"; Rule [[ClassSelector "used"]] "color:red"] =
  Some ((false, [("used", 2)]), [Rule [[ClassSelector "used"]] "color:red"]) /\
  parseCSS (false, [("used", 1)])
    [Comment "! banner"; Rule [[ClassSelector "used"]] "color:red"] =
  Some ((false, [("used", 2)]),
        [Comment "! banner"; Rule [[ClassSelector "used"]] "color:red"]).
Proof. split; reflexivity. Qed.

(** * Further properties *)

(** ** Identifiers and generated names *)

Lemma cleanCSSIdentifier_chars n c :
  c ∈ list_ascii_of_string (cleanCSSIdentifier n) <->
  c ∈ list_ascii_of_string n /\ c <> backslash.
Proof.
  induction n as [|a rest IH]; cbn [cleanCSSIdentifier list_ascii_of_string].
  - split; [by intros ?%not_elem_of_nil | by intros [?%not_elem_of_nil _]].
  - destruct (Ascii.eqb_spec a backslash) as [->|Hne].
    + rewrite IH, elem_of_cons. intuition congruence.
    + cbn [list_ascii_of_string]. rewrite !elem_of_cons, IH. intuition congruence.
Qed.

Lemma cleanCSSIdentifier_id n :
  backslash ∉ list_ascii_of_string n -> cleanCSSIdentifier n = n.
Proof.
  induction n as [|a rest IH]; [reflexivity|].
  cbn [cleanCSSIdentifier list_ascii_of_string]. rewrite not_elem_of_cons.
  intros [Hne Hrest]. destruct (Ascii.eqb_spec a backslash); [congruence|].
  by rewrite IH.
Qed.

(** The clean identifier holds no backslash and every other character of
    the identifier; cleaning twice is cleaning once, and an identifier
    without a backslash is its own clean identifier. *)
Theorem cleanCSSIdentifier_strips_backslashes n :
  (forall c, c ∈ list_ascii_of_string (cleanCSSIdentifier n) <->
             c ∈ list_ascii_of_string n /\ c <> backslash) /\
  cleanCSSIdentifier (cleanCSSIdentifier n) = cleanCSSIdentifier n /\
  (cleanCSSIdentifier n = n <-> backslash ∉ list_ascii_of_string n).
Proof.
  split; [apply cleanCSSIdentifier_chars|]. split.
  - apply cleanCSSIdentifier_id. rewrite cleanCSSIdentifier_chars. tauto.
  - split; [|apply cleanCSSIdentifier_id].
    intros Heq Hin. rewrite <- Heq in Hin.
    apply cleanCSSIdentifier_chars in Hin. tauto.
Qed.

Lemma digitChar_isDigit d : d < 10 -> isDigit (Decimal.digitChar d) = true.
Proof.
  intros Hd. unfold isDigit, Decimal.digitChar.
  rewrite nat_ascii_embedding by lia.
  apply andb_true_iff. split; apply Nat.leb_le; lia.
Qed.

Lemma toString_digits n :
  Forall (fun c => isDigit c = true) (list_ascii_of_string (Decimal.toString n)).
Proof.
  unfold Decimal.toString. rewrite list_ascii_of_string_of_list_ascii.
  apply Forall_fmap, Forall_rev.
  eapply Forall_impl; [apply DecimalFacts.digits_small|].
  intros d Hd. by apply digitChar_isDigit.
Qed.

Lemma generateShortestName_letter_digits idx :
  exists c digits,
    generateShortestName idx = Some (String c digits) /\
    isLowerLetter c = true /\
    Forall (fun d => isDigit d = true) (list_ascii_of_string digits) /\
    cleanCSSIdentifier (String c digits) = String c digits.
Proof.
  rewrite generateShortestName_eq.
  pose proof (Nat.mod_upper_bound idx 26 ltac:(lia)) as Hr.
  set (c := ascii_of_nat (97 + idx mod 26)).
  set (digits := if idx / 26 =? 0 then EmptyString
                 else Decimal.toString (idx / 26 - 1)).
  assert (Hname : shortName (idx / 26) (idx mod 26) = String c digits).
  { unfold shortName, digits. destruct (idx / 26 =? 0); [reflexivity|].
    by rewrite letter_append. }
  assert (Hc : isLowerLetter c = true).
  { unfold isLowerLetter, c. rewrite nat_ascii_embedding by lia.
    apply andb_true_iff. split; apply Nat.leb_le; lia. }
  assert (Hd : Forall (fun d => isDigit d = true) (list_ascii_of_string digits)).
  { unfold digits. destruct (idx / 26 =? 0); [constructor|apply toString_digits]. }
  exists c, digits. rewrite Hname. repeat split; try done.
  apply cleanCSSIdentifier_id. cbn [list_ascii_of_string].
  rewrite not_elem_of_cons. split.
  - intros Hb. rewrite <- Hb in Hc. discriminate.
  - intros Hin. rewrite Forall_forall in Hd. by specialize (Hd _ Hin).
Qed.

(** Every generated name is one lower-case letter followed by decimal
    digits only; so it holds no backslash and is its own clean identifier. *)
Theorem generateShortestName_shape idx :
  exists c digits,
    generateShortestName idx = Some (String c digits) /\
    isLowerLetter c = true /\
    Forall (fun d => isDigit d = true) (list_ascii_of_string digits) /\
    cleanCSSIdentifier (String c digits) = String c digits.
Proof. apply generateShortestName_letter_digits. Qed.

(** ** The classname counter, continued *)

(** On class tokens under which nothing is inherited the counter does what
    its comment says: the count of every token is its count before plus the
    number of its occurrences in the class lists of all nodes of the tree, a
    token is a key afterwards exactly when it was one before or occurs in
    the tree, and [Object.prototype] is left alone. *)
Theorem parseHTMLNodeChildren_counts_plain polluted classnames node :
  forallb plainName (classTokens node) = true ->
  exists classnames',
    parseHTMLNodeChildren (polluted, classnames) node = (polluted, classnames') /\
    (forall t,
        countOf t classnames' =
        countOf t classnames + count_occ string_dec (classTokens node) t) /\
    (forall t,
        hasKey t classnames' =
        hasKey t classnames || bool_decide (t ∈ classTokens node)).
Proof.
  intros Hp.
  rewrite parseHTMLNodeChildren_tokens, fold_countClassName_plain by done.
  eexists. split; [reflexivity|].
  split; intros t; [apply countOf_fold | apply hasKey_fold].
Qed.

Lemma parseHTMLNodeChildren_counts_plain_witness :
  exists classnames',
    parseHTMLNodeChildren (false, [("b", 1)])
      (HTMLElement "p" [] ["a"; "b"]
         [HTMLElement "i" [] ["a"] []; TextNode "x"]) = (false, classnames') /\
    (forall t,
        countOf t classnames' =
        countOf t [("b", 1)] +
        count_occ string_dec
          (classTokens
             (HTMLElement "p" [] ["a"; "b"]
                [HTMLElement "i" [] ["a"] []; TextNode "x"])) t) /\
    (forall t,
        hasKey t classnames' =
        hasKey t [("b", 1)] ||
        bool_decide
          (t ∈ classTokens
                 (HTMLElement "p" [] ["a"; "b"]
                    [HTMLElement "i" [] ["a"] []; TextNode "x"]))).
Proof.
  apply (parseHTMLNodeChildren_counts_plain false [("b", 1)]
           (HTMLElement "p" [] ["a"; "b"]
              [HTMLElement "i" [] ["a"] []; TextNode "x"])).
  reflexivity.
Defined.

(** ** The HTML rewrite pass, continued *)

(** On class tokens under which nothing is inherited the rewrite pass maps
    each token once: the rewritten tree has the same elements in the same
    order, each with the same token list; an element without class tokens
    keeps its attributes, and the class attribute of any other is the join
    of one output token per input token, which is the input token when the
    map has no entry for it and the entry of that very token otherwise. *)
Theorem processHTMLNodeChildren_plain_tokens polluted (rename : Rename) node :
  forallb plainName (classTokens node) = true ->
  Forall2
    (fun e e' =>
       e'.2 = e.2 /\
       (e.2 = [] -> e'.1 = e.1) /\
       exists out,
         (e.2 <> [] -> getAttribute e'.1 "class" = Some (String.concat " " out)) /\
         Forall2
           (fun c o =>
              match rename !! c with
              | None => o = c
              | Some v => o = JSValue_toString v
              end)
           e.2 out)
    (elementsOf node)
    (elementsOf (processHTMLNodeChildren polluted rename node)).
Proof.
  rewrite elementsOf_processHTMLNodeChildren, classTokens_elementsOf.
  induction (elementsOf node) as [|[attributes classNames] rest IH];
    cbn [flat_map snd map]; [constructor|].
  rewrite forallb_app. intros [Hplain Hrest]%andb_true_iff.
  constructor; [|by apply IH].
  unfold rewriteElement; cbn [fst snd]. split; [reflexivity|]. split.
  - by intros ->.
  - exists (map (renamedToken polluted rename) classNames). split.
    + intros Hne. destruct classNames; [done|]. cbn [length Nat.ltb Nat.leb].
      by rewrite getAttribute_setAttribute, join_concat.
    + clear -Hplain.
      induction classNames as [|c cs IHcs]; constructor.
      * cbn [forallb] in Hplain. apply andb_true_iff in Hplain as [Hc _].
        destruct (rename !! c) as [v|] eqn:Hown.
        -- by apply renamedToken_own.
        -- apply renamedToken_none; [done|]. by apply inherited_plain.
      * apply IHcs. cbn [forallb] in Hplain.
        by apply andb_true_iff in Hplain as [_ Hcs].
Qed.

Lemma processHTMLNodeChildren_plain_tokens_witness :
  Forall2
    (fun e e' =>
       e'.2 = e.2 /\
       (e.2 = [] -> e'.1 = e.1) /\
       exists out,
         (e.2 <> [] -> getAttribute e'.1 "class" = Some (String.concat " " out)) /\
         Forall2
           (fun c o =>
              match ({[ "a" := JSString "b"; "b" := JSString "c" ]} : Rename) !! c
              with
              | None => o = c
              | Some v => o = JSValue_toString v
              end)
           e.2 out)
    (elementsOf (HTMLElement "p" [("id", "x")] ["a"; "b"; "z"] []))
    (elementsOf
       (processHTMLNodeChildren false
          {[ "a" := JSString "b"; "b" := JSString "c" ]}
          (HTMLElement "p" [("id", "x")] ["a"; "b"; "z"] []))).
Proof.
  apply (processHTMLNodeChildren_plain_tokens false
           {[ "a" := JSString "b"; "b" := JSString "c" ]}
           (HTMLElement "p" [("id", "x")] ["a"; "b"; "z"] [])).
  reflexivity.
Defined.

Lemma filter_setAttribute attributes key value :
  List.filter (fun kv : string * string => negb (bool_decide (kv.1 = key)))
    (setAttribute attributes key value) =
  List.filter (fun kv : string * string => negb (bool_decide (kv.1 = key)))
    attributes.
Proof.
  induction attributes as [|[k v] rest IH]; cbn [setAttribute List.filter fst].
  - by rewrite bool_decide_eq_true_2.
  - destruct (decide (k = key)) as [->|Hne]; cbn [List.filter fst].
    + by rewrite bool_decide_eq_true_2.
    + rewrite bool_decide_eq_false_2 by done. cbn [negb]. by rewrite IH.
Qed.

(** The rewrite pass changes nothing but class attributes: tag names, the
    other attributes with their values and order, the token lists, the
    text nodes and the shape of the tree stay as they are. *)
Theorem processHTMLNodeChildren_frame polluted rename node :
  withoutClass (processHTMLNodeChildren polluted rename node) = withoutClass node.
Proof.
  induction node as [tagName attributes classNames childNodes IH|rawText]
    using HTMLNode_nested_ind; [|reflexivity].
  cbn [processHTMLNodeChildren withoutClass]. f_equal.
  - destruct (0 <? length _); [apply filter_setAttribute | reflexivity].
  - rewrite map_map. induction IH as [|child rest Hchild _ IHrest]; [reflexivity|].
    cbn [map]. by rewrite Hchild, IHrest.
Qed.

(** ** Dead-rule elimination, continued *)

Section PruneMore.
Context (polluted : bool) (classnames : Classnames).

Lemma filter_all_kept (prelude : list Selector) :
  forallb (keepsSelector polluted classnames) prelude = true ->
  List.filter (keepsSelector polluted classnames) prelude = prelude.
Proof.
  induction prelude as [|s rest IH]; [reflexivity|].
  cbn [forallb List.filter]. intros [Hs Hrest]%andb_true_iff.
  by rewrite Hs, IH.
Qed.

Lemma prunedNode_kept n :
  keptNode polluted classnames n = true -> prunedNode polluted classnames n = Some n.
Proof.
  induction n as [prelude block|prelude block|name prelude block IH|value|text]
    using CssNode_nested_ind; cbn [keptNode prunedNode]; intros Hk;
    try done.
  - rewrite (filter_all_kept _ Hk). by destruct prelude.
  - do 2 f_equal. induction IH as [|n rest Hn _ IHrest]; [reflexivity|].
    cbn [forallb] in Hk. apply andb_true_iff in Hk as [Hkn Hkrest].
    cbn [omap list_omap]. by rewrite (Hn Hkn), (IHrest Hkrest).
Qed.

Lemma prunedSheet_kept ast :
  forallb (keptNode polluted classnames) ast = true -> prunedSheet polluted classnames ast = ast.
Proof.
  unfold prunedSheet. induction ast as [|n rest IH]; [reflexivity|].
  cbn [forallb]. intros [Hn Hrest]%andb_true_iff.
  cbn [omap list_omap]. by rewrite (prunedNode_kept _ Hn), (IH Hrest).
Qed.

Lemma keepsSelector_singleUnknown selector :
  keepsSelector polluted classnames selector = true ->
  singleUnknown polluted classnames selector = true.
Proof.
  unfold keepsSelector, singleUnknown. intros Hk. apply Nat.leb_le.
  induction selector as [|c cs IH]; [cbn; lia|].
  cbn [forallb] in Hk. apply andb_true_iff in Hk as [Hc Hcs].
  cbn [List.filter]. destruct (unknownClass polluted classnames c); [discriminate|].
  by apply IH.
Qed.

Lemma keptNode_singleUnknownNode n :
  keptNode polluted classnames n = true -> singleUnknownNode polluted classnames n = true.
Proof.
  induction n as [prelude block|prelude block|name prelude block IH|value|text]
    using CssNode_nested_ind; cbn [keptNode singleUnknownNode]; try done.
  - rewrite !forallb_forall. intros Hk s Hs.
    by apply keepsSelector_singleUnknown, Hk.
  - rewrite !forallb_forall. rewrite Forall_forall in IH.
    intros Hk n Hn. apply IH; [by apply list_elem_of_In | by apply Hk].
Qed.

Lemma filter_kept (prelude : list Selector) :
  forallb (keepsSelector polluted classnames)
    (List.filter (keepsSelector polluted classnames) prelude) = true.
Proof.
  apply forallb_forall. by intros s [_ Hs]%filter_In.
Qed.

Lemma eachRemove_Forall {A} (f : A -> option (option A)) (P : A -> Prop) l l' :
  Forall (fun a => forall a', f a = Some (Some a') -> P a') l ->
  eachRemove f l = Some l' -> Forall P l'.
Proof.
  intros Hall; revert l'; induction Hall as [|a rest Ha _ IH]; intros l'.
  - intros [= <-]. constructor.
  - cbn [eachRemove]. destruct (f a) as [r|] eqn:Hfa; [|discriminate].
    destruct (eachRemove f rest) as [rest'|]; [|discriminate].
    intros [= <-]. destruct r as [a'|]; [|by apply IH].
    constructor; [by apply Ha | by apply IH].
Qed.

Lemma pruneNode_keptNode isEmptyGuard n n' :
  pruneNode isEmptyGuard polluted classnames n = Some (Some n') ->
  keptNode polluted classnames n' = true.
Proof.
  revert n'.
  induction n as [prelude block|prelude block|name prelude block IH|value|text]
    using CssNode_nested_ind; intros n' Hp.
  - apply pruneNode_result in Hp. cbn [prunedNode] in Hp.
    destruct (_ && _); [discriminate|]. injection Hp as ->. apply filter_kept.
  - discriminate.
  - cbn [pruneNode] in Hp.
    destruct (eachRemove _ block) as [block'|] eqn:Hblock; [|discriminate].
    injection Hp as <-. cbn [keptNode]. apply forallb_forall.
    apply (eachRemove_Forall _ (fun n => keptNode polluted classnames n = true))
      in Hblock; [|exact IH].
    rewrite Forall_forall in Hblock. intros n Hn. by apply Hblock, list_elem_of_In.
  - by injection Hp as <-.
  - by injection Hp as <-.
Qed.

Lemma pruneRules_keptNode isEmptyGuard ast ast' :
  pruneRules isEmptyGuard polluted classnames ast = Some ast' ->
  forallb (keptNode polluted classnames) ast' = true.
Proof.
  intros Hp. apply forallb_forall.
  apply (eachRemove_Forall _ (fun n => keptNode polluted classnames n = true))
    in Hp.
  - rewrite Forall_forall in Hp. intros n Hn. by apply Hp, list_elem_of_In.
  - apply Forall_forall. intros n _ n'. apply pruneNode_keptNode.
Qed.

End PruneMore.

Lemma pruneRules_kept isEmptyGuard polluted classnames ast :
  forallb (keptNode polluted classnames) ast = true ->
  pruneRules isEmptyGuard polluted classnames ast = Some ast.
Proof.
  intros Hk. rewrite pruneRules_completes.
  - by rewrite prunedSheet_kept.
  - rewrite forallb_forall in Hk |- *. intros n Hn.
    by apply keptNode_singleUnknownNode, Hk.
Qed.

(** Pruning leaves a tree alone, and completes, when no rule has a raw
    prelude and no selector holds an unknown class selector: rules with
    known classes only, or with no class selector at all, are never
    touched. *)
Theorem pruneRules_known_untouched isEmptyGuard polluted classnames ast :
  forallb (keptNode polluted classnames) ast = true ->
  pruneRules isEmptyGuard polluted classnames ast = Some ast.
Proof. apply pruneRules_kept. Qed.

Lemma pruneRules_known_untouched_witness :
  pruneRules false false [("used", 1)]
    [Rule [[OtherSelector "TypeSelector" "p"]; [ClassSelector "used"]] "color:red";
     Atrule "media" "print" [Rule [[ClassSelector "used"]] "color:blue"]] =
  Some
    [Rule [[OtherSelector "TypeSelector" "p"]; [ClassSelector "used"]] "color:red";
     Atrule "media" "print" [Rule [[ClassSelector "used"]] "color:blue"]].
Proof.
  apply (pruneRules_known_untouched false false [("used", 1)]). reflexivity.
Defined.

(** Pruning is idempotent: a tree that a pruning walk has returned is
    returned unchanged, without an exception, by another pruning walk with
    the same classnames, in either revision. *)
Theorem pruneRules_idempotent isEmptyGuard isEmptyGuard' polluted classnames ast ast' :
  pruneRules isEmptyGuard polluted classnames ast = Some ast' ->
  pruneRules isEmptyGuard' polluted classnames ast' = Some ast'.
Proof.
  intros Hp. by apply pruneRules_kept, (pruneRules_keptNode _ _ _ _ _ Hp).
Qed.

Lemma pruneRules_idempotent_witness :
  pruneRules true false [("used", 1)] [Rule [[ClassSelector "used"]] "color:red"] =
  Some [Rule [[ClassSelector "used"]] "color:red"].
Proof.
  apply (pruneRules_idempotent false true false [("used", 1)]
           [Rule [[ClassSelector "unused"]; [ClassSelector "used"]] "color:red";
            Rule [[ClassSelector "unused"]] "color:blue"]).
  reflexivity.
Defined.

Section PruneThrows.
Context (polluted : bool) (classnames : Classnames).

Lemma scanSelector_throws othersEmpty (removed : bool) (selector : Selector) :
  (if removed then 0 else 1) <
    length (List.filter (unknownClass polluted classnames) selector) ->
  scanSelector false polluted classnames othersEmpty removed selector = None.
Proof.
  revert removed. induction selector as [|c cs IH]; intros removed.
  - cbn. destruct removed; lia.
  - destruct c as [name|name children|type name];
      cbn [scanSelector List.filter unknownClass andb orb]; try apply IH.
    destruct (inClassnames polluted (cleanCSSIdentifier name) classnames); cbn [negb].
    + apply IH.
    + cbn [length]. destruct removed; [done|]. intros Hlen. apply IH. lia.
Qed.

Lemma eachSelector_throws rest : forall kept ruleRemoved,
  forallb (singleUnknown polluted classnames) rest = false ->
  eachSelector false polluted classnames kept rest ruleRemoved = None.
Proof.
  induction rest as [|selector rest IH]; intros kept ruleRemoved; [discriminate|].
  cbn [forallb eachSelector]. intros Hall.
  destruct (singleUnknown polluted classnames selector) eqn:Hsel.
  - cbn [andb] in Hall.
    destruct (scanSelector _ _ _ _ _ _) as [removed|]; [|done].
    destruct (_ && isEmpty rest); [destruct ruleRemoved; [done|]|]; by apply IH.
  - rewrite scanSelector_throws; [done|].
    unfold singleUnknown in Hsel. apply Nat.leb_gt in Hsel. lia.
Qed.

Lemma eachRemove_throws {A} (f : A -> option (option A)) l :
  Exists (fun a => f a = None) l -> eachRemove f l = None.
Proof.
  induction 1 as [a rest Ha|a rest _ IH]; cbn [eachRemove].
  - by rewrite Ha.
  - rewrite IH. by destruct (f a).
Qed.

Lemma pruneNode_throws n :
  singleUnknownNode polluted classnames n = false ->
  pruneNode false polluted classnames n = None.
Proof.
  induction n as [prelude block|prelude block|name prelude block IH|value|text]
    using CssNode_nested_ind; cbn [singleUnknownNode pruneNode]; intros Hn;
    try done.
  - by rewrite eachSelector_throws.
  - rewrite eachRemove_throws; [done|].
    induction IH as [|n rest Hn' _ IHrest]; [discriminate|].
    cbn [forallb] in Hn. destruct (singleUnknownNode polluted classnames n) eqn:Hs.
    + right. by apply IHrest.
    + left. by apply Hn'.
Qed.

Lemma forallb_false_Exists {A} (p : A -> bool) l :
  forallb p l = false -> Exists (fun a => p a = false) l.
Proof.
  induction l as [|a rest IH]; [discriminate|]. cbn [forallb].
  destruct (p a) eqn:Ha; [right; by apply IH | by left].
Qed.

End PruneThrows.

Lemma pruneRules_false_eq polluted classnames ast :
  pruneRules false polluted classnames ast =
  if forallb (singleUnknownNode polluted classnames) ast
  then Some (prunedSheet polluted classnames ast)
  else None.
Proof.
  destruct (forallb _ ast) eqn:Hall; [by apply pruneRules_completes|].
  apply eachRemove_throws.
  eapply Exists_impl; [by apply forallb_false_Exists|].
  intros n. apply pruneNode_throws.
Qed.

(** When the pruning walk of the JavaScript revision throws: exactly when
    some rule of the tree has a raw prelude, which has no selectors to walk,
    or some selector holds two or more unknown class selectors, the second
    of which makes the selector list unlink an item twice. In every other
    case the walk returns the pruned tree. *)
Theorem pruneRules_throws_exactly polluted classnames ast :
  pruneRules false polluted classnames ast =
  if forallb (singleUnknownNode polluted classnames) ast
  then Some (prunedSheet polluted classnames ast)
  else None.
Proof. apply pruneRules_false_eq. Qed.

(** ** The CSS rewrite pass, frame *)

(** The CSS rewrite pass changes nothing but the names of class selectors:
    rules, at-rules, declarations, the other selector components and the
    shape of the tree stay as they are. *)
Theorem processCSS_frame sorted rename ast rename' ast' :
  processCSS sorted rename ast = Some (rename', ast') ->
  map eraseNode ast' = map eraseNode ast.
Proof.
  unfold processCSS. generalize 0 as i. revert rename ast.
  induction sorted as [|sel rest IH]; intros rename ast i; cbn [processCSSFrom].
  - by intros [= <- <-].
  - destruct (walkClassSelectors _ rename ast) as [[rename1 ast1]|] eqn:Hwalk;
      [|discriminate].
    intros Hrest. rewrite (IH _ _ _ Hrest).
    by eapply walkClassSelectors_erase.
Qed.

Lemma processCSS_frame_witness :
  map eraseNode
    [Rule [[ClassSelector "b"; OtherSelector "TypeSelector" "p"]] "color:red"] =
  map eraseNode
    [Rule [[ClassSelector "x"; OtherSelector "TypeSelector" "p"]] "color:red"].
Proof.
  apply (processCSS_frame
           [{| name := "longname"; total := 24 |}; {| name := "x"; total := 10 |}]
           ∅ _ (<["x" := JSString "b"]> ∅)).
  reflexivity.
Defined.

(** ** The counting walk, continued *)

(** The counting walk on a tree without a class selector named __proto__
    throws exactly when some class selector of the tree, at any depth, has a
    clean identifier that the code does not find in the counts; otherwise it
    leaves the tree and [Object.prototype] as they are and increments the
    counts once per class selector. *)
Theorem countClassSelectors_throws_exactly polluted classnames ast :
  "__proto__" ∉ map cleanCSSIdentifier (sheetClasses ast) ->
  countClassSelectors (polluted, classnames) ast =
  if forallb (knownName polluted classnames) (sheetClasses ast)
  then Some ((polluted, countNames classnames (sheetClasses ast)), ast)
  else None.
Proof.
  intros Hno. rewrite countClassSelectors_eq.
  by destruct (allKnown_no_proto classnames (sheetClasses ast) polluted Hno)
    as [-> ->].
Qed.

Lemma countClassSelectors_throws_exactly_witness :
  countClassSelectors (false, [("used", 1)])
    [Rule [[ClassSelector "used"; PseudoClassSelector "not" [[ClassSelector "used"]]]]
       "color:red"] =
  Some ((false, [("used", 3)]),
        [Rule [[ClassSelector "used"; PseudoClassSelector "not" [[ClassSelector "used"]]]]
           "color:red"]).
Proof.
  refine (countClassSelectors_throws_exactly false [("used", 1)]
            [Rule [[ClassSelector "used";
                    PseudoClassSelector "not" [[ClassSelector "used"]]]]
               "color:red"] _).
  apply (bool_decide_unpack _). vm_compute. exact I.
Defined.

Lemma parseCSSWith_some isEmptyGuard s ast s' ast' :
  parseCSSWith isEmptyGuard s ast = Some (s', ast') ->
  ast' = prunedSheet s.1 s.2 ast /\
  allKnown s.1 s.2 (sheetClasses ast') = true /\
  s' = (pollutedAfter s.1 s.2 (sheetClasses ast'),
        countNames s.2 (sheetClasses ast')).
Proof.
  destruct s as [polluted classnames]. unfold parseCSSWith. cbn [fst snd].
  destruct (pruneRules _ _ _ ast) as [pruned|] eqn:Hprune; [|discriminate].
  apply pruneRules_result in Hprune. subst pruned.
  rewrite countClassSelectors_eq.
  destruct (allKnown _ _ _) eqn:Hknown; [|discriminate].
  by intros [= <- <-].
Qed.

(** What holds whenever the CSS parse stage of the JavaScript revision
    returns: the tree is the pruned tree, the code finds every class
    selector left in it, at any depth, in the counts, the keys of the counts
    and their order are unchanged (CSS adds no classname), and the count of
    each key has grown by the number of class selectors left with that clean
    identifier. *)
Theorem parseCSS_returns polluted classnames ast polluted' classnames' ast' :
  parseCSS (polluted, classnames) ast = Some ((polluted', classnames'), ast') ->
  ast' = prunedSheet polluted classnames ast /\
  forallb (knownName polluted' classnames) (sheetClasses ast') = true /\
  map fst classnames' = map fst classnames /\
  (forall t,
      hasKey t classnames = true ->
      countOf t classnames' =
      countOf t classnames +
      count_occ string_dec (map cleanCSSIdentifier (sheetClasses ast')) t) /\
  polluted' = pollutedAfter polluted classnames (sheetClasses ast').
Proof.
  intros (-> & Hknown & [= -> ->])%parseCSSWith_some. cbn [fst snd] in *.
  split; [done|]. split; [by apply allKnown_known|]. split.
  - apply keys_countNames.
  - split; [|done]. intros t Ht. by apply countOf_countNames.
Qed.

Lemma parseCSS_returns_witness :
  [Rule [[ClassSelector "used"]] "color:red"] =
    prunedSheet false [("used", 1)]
      [Rule [[ClassSelector "unused"]; [ClassSelector "used"]] "color:red"] /\
  forallb (knownName false [("used", 1)])
    (sheetClasses [Rule [[ClassSelector "used"]] "color:red"]) = true /\
  map fst [("used", 2)] = map fst [("used", 1)] /\
  (forall t,
      hasKey t [("used", 1)] = true ->
      countOf t [("used", 2)] =
      countOf t [("used", 1)] +
      count_occ string_dec
        (map cleanCSSIdentifier
           (sheetClasses [Rule [[ClassSelector "used"]] "color:red"])) t) /\
  false =
    pollutedAfter false [("used", 1)]
      (sheetClasses [Rule [[ClassSelector "used"]] "color:red"]).
Proof.
  apply (parseCSS_returns false [("used", 1)]
           [Rule [[ClassSelector "unused"]; [ClassSelector "used"]] "color:red"]).
  reflexivity.
Defined.

(** ** The CSS rewrite pass, continued *)

Lemma processCSSFrom_classes sorted : forall i rename ast,
  onResult sheetClasses (processCSSFrom i sorted rename ast) =
  processNamesFrom i sorted rename (sheetClasses ast).
Proof.
  induction sorted as [|sel rest IH]; intros i rename ast;
    cbn [processCSSFrom processNamesFrom]; [reflexivity|].
  rewrite walkClassSelectors_classes.
  destruct (walkClassSelectors _ rename ast) as [[rename1 ast1]|]; [|reflexivity].
  cbn [onResult]. apply IH.
Qed.

Lemma generateShortestName_clean i s :
  generateShortestName i = Some s -> cleanCSSIdentifier s = s.
Proof.
  destruct (generateShortestName_letter_digits i) as (c & digits & Hgen & _ & _ & Hclean).
  rewrite Hgen. by intros [= <-].
Qed.

Section RenameStep.
Context (i : nat) (sel : Ranked) (g : string).
Hypothesis Hg : generateShortestName i = Some g.

Let step (nodeName : string) : string :=
  if decide (cleanCSSIdentifier nodeName = name sel) then g else nodeName.

Lemma eachM_renameEnter nodeNames : forall rename,
  exists rename',
    eachM (renameEnter i sel) rename nodeNames = Some (rename', map step nodeNames) /\
    (forall k, k <> name sel -> rename' !! k = rename !! k) /\
    (name sel ∉ map cleanCSSIdentifier nodeNames -> rename' = rename) /\
    (name sel ∈ map cleanCSSIdentifier nodeNames ->
     rename' !! name sel = Some (JSString g)).
Proof.
  induction nodeNames as [|n rest IH]; intros rename; cbn [eachM map].
  - exists rename. split; [done|]. split; [done|]. split; [done|].
    by intros ?%not_elem_of_nil.
  - unfold renameEnter at 1, step at 1. rewrite Hg.
    destruct (decide (cleanCSSIdentifier n = name sel)) as [Heq|Hne].
    + destruct (IH (<[cleanCSSIdentifier n := JSString g]> rename))
        as (rename' & -> & Hother & Hnone & Hsome).
      exists rename'. split; [done|]. split; [|split].
      * intros k Hk. rewrite Hother by done. apply lookup_insert_ne. congruence.
      * rewrite not_elem_of_cons. intros [Hno _]. congruence.
      * intros _.
        destruct (decide (name sel ∈ map cleanCSSIdentifier rest)) as [Hin|Hnin];
          [by apply Hsome|].
        rewrite (Hnone Hnin), Heq. apply lookup_insert_eq.
    + destruct (IH rename) as (rename' & -> & Hother & Hnone & Hsome).
      exists rename'. split; [done|]. split; [done|]. split.
      * rewrite not_elem_of_cons. intros [_ Hno]. by apply Hnone.
      * rewrite elem_of_cons. intros [Heq|Hin]; [congruence|]. by apply Hsome.
Qed.

End RenameStep.

Lemma plannedName_other sorted : forall i nodeName,
  cleanCSSIdentifier nodeName ∉ map name sorted ->
  plannedName i sorted nodeName = Some nodeName.
Proof.
  induction sorted as [|sel rest IH]; intros i nodeName; cbn [plannedName map];
    [done|].
  rewrite not_elem_of_cons. intros [Hne Hrest].
  rewrite decide_False by done. by apply IH.
Qed.

Lemma processNamesFrom_planned sorted :
  forall i rename nodeNames rename' nodeNames',
  NoDup (map name sorted) ->
  (forall j k sel s,
      k < j -> sorted !! j = Some sel ->
      generateShortestName (i + k) = Some s -> name sel <> s) ->
  processNamesFrom i sorted rename nodeNames = Some (rename', nodeNames') ->
  Forall2 (fun n n' => plannedName i sorted n = Some n') nodeNames nodeNames' /\
  (forall n, n ∈ nodeNames -> cleanCSSIdentifier n ∈ map name sorted ->
     rename' !! cleanCSSIdentifier n = JSString <$> plannedName i sorted n) /\
  (forall k, k ∉ map name sorted \/ k ∉ map cleanCSSIdentifier nodeNames ->
     rename' !! k = rename !! k).
Proof.
  induction sorted as [|sel rest IH];
    intros i rename nodeNames rename' nodeNames' Hnd Hfresh;
    cbn [processNamesFrom].
  - intros [= <- <-]. split; [|split].
    + induction nodeNames; by constructor.
    + by intros n _ ?%not_elem_of_nil.
    + done.
  - pose proof (generateShortestName_eq i) as Hg.
    set (g := shortName (i / 26) (i mod 26)) in Hg.
    destruct (eachM_renameEnter i sel g Hg nodeNames rename)
      as (rename1 & -> & Hother & Hnone & Hsome).
    cbn [map] in Hnd. apply NoDup_cons in Hnd as [Hsel Hnd].
    assert (Hgrest : g ∉ map name rest).
    { intros (sel' & -> & Hin)%list_elem_of_fmap.
      apply list_elem_of_lookup in Hin as [j Hj].
      apply (Hfresh (S j) 0 sel' (name sel')); [lia|done| |done].
      by rewrite Nat.add_0_r. }
    assert (Hgclean : cleanCSSIdentifier g = g)
      by (by eapply generateShortestName_clean).
    intros Hrest. apply IH in Hrest as (Htree & Hin & Hout); [|done|].
    2:{ intros j k sel' s Hkj Hj Hs. apply (Hfresh (S j) (S k) sel' s); [lia|done|].
        by rewrite Nat.add_succ_r. }
    split; [|split].
    + apply Forall2_fmap_l in Htree.
      eapply Forall2_impl; [exact Htree|]. intros n n'.
      unfold compose. cbn [plannedName].
      destruct (decide (cleanCSSIdentifier n = name sel)); [|done].
      rewrite plannedName_other by (by rewrite Hgclean). congruence.
    + intros n Hn. cbn [map plannedName]. rewrite elem_of_cons.
      destruct (decide (cleanCSSIdentifier n = name sel)) as [Heq|Hne].
      * intros _. rewrite Hg. cbn. rewrite Heq, Hout by (by left).
        apply Hsome. apply list_elem_of_fmap. by exists n.
      * intros [Heq|Hrest]; [done|]. apply Hin; [|done].
        apply list_elem_of_fmap. exists n. by rewrite decide_False.
    + intros k Hk. cbn [map] in Hk. rewrite not_elem_of_cons in Hk.
      assert (Hk1 : rename1 !! k = rename !! k).
      { destruct (decide (k = name sel)) as [->|Hne]; [|by apply Hother].
        destruct Hk as [[Hk _]|Hk]; [done|]. by rewrite Hnone. }
      rewrite <- Hk1. apply Hout.
      destruct (decide (k ∈ map name rest)) as [Hkrest|Hkrest]; [|by left].
      right. destruct Hk as [[_ Hk]|Hk]; [done|].
      rewrite <- list_fmap_compose.
      intros (n & -> & Hn)%list_elem_of_fmap. cbn [compose] in *.
      destruct (decide (cleanCSSIdentifier n = name sel)).
      * rewrite Hgclean in Hkrest. done.
      * apply Hk. apply list_elem_of_fmap. by exists n.
Qed.

(** With the classnames ranked once each and none of them the name
    generated for a better rank, the rewrite pass renames every class
    selector whose clean identifier is ranked to exactly the entry the rename
    map then holds for that identifier, leaves the other class selectors
    alone, and changes the entry of no key that is not the clean identifier
    of a class selector of the tree. *)
Theorem processCSS_agrees_with_rename sorted rename ast rename' ast' :
  NoDup (map name sorted) ->
  collisionFree (map name sorted) ->
  processCSS sorted rename ast = Some (rename', ast') ->
  Forall2
    (fun n n' =>
       if decide (cleanCSSIdentifier n ∈ map name sorted)
       then rename' !! cleanCSSIdentifier n = Some (JSString n')
       else n' = n)
    (sheetClasses ast) (sheetClasses ast') /\
  (forall k,
      k ∉ map name sorted \/ k ∉ map cleanCSSIdentifier (sheetClasses ast) ->
      rename' !! k = rename !! k).
Proof.
  intros Hnd Hfree Hp.
  pose proof (processCSSFrom_classes sorted 0 rename ast) as Hc.
  unfold processCSS in Hp. rewrite Hp in Hc. cbn [onResult] in Hc.
  symmetry in Hc. apply processNamesFrom_planned in Hc as (Htree & Hin & Hout);
    [|done|].
  2:{ intros j k sel s Hkj Hj Hs. apply (Hfree j k (name sel) s); [done| |done].
      by rewrite list_lookup_fmap, Hj. }
  split; [|done].
  apply Forall2_same_length_lookup. split; [by eapply Forall2_length|].
  intros p n n' Hn Hn'.
  pose proof (Forall2_lookup_lr _ _ _ _ _ _ Htree Hn Hn') as Hplan.
  cbn beta in Hplan.
  destruct (decide _) as [Hranked|Hnot].
  - rewrite Hin, Hplan; [done| |done]. by eapply list_elem_of_lookup_2.
  - rewrite plannedName_other in Hplan by done. congruence.
Qed.

Lemma processCSS_agrees_with_rename_witness :
  Forall2
    (fun n n' =>
       if decide (cleanCSSIdentifier n ∈
                    map name [{| name := "longname"; total := 24 |};
                              {| name := "x"; total := 10 |}])
       then (<["x" := JSString "b"]> ∅ : Rename) !! cleanCSSIdentifier n =
              Some (JSString n')
       else n' = n)
    (sheetClasses [Rule [[ClassSelector "x"; ClassSelector "other"]] "color:red"])
    (sheetClasses [Rule [[ClassSelector "b"; ClassSelector "other"]] "color:red"]) /\
  (forall k,
      k ∉ map name [{| name := "longname"; total := 24 |};
                    {| name := "x"; total := 10 |}] \/
      k ∉ map cleanCSSIdentifier
            (sheetClasses
               [Rule [[ClassSelector "x"; ClassSelector "other"]] "color:red"]) ->
      (<["x" := JSString "b"]> ∅ : Rename) !! k = (∅ : Rename) !! k).
Proof.
  apply (processCSS_agrees_with_rename
           [{| name := "longname"; total := 24 |}; {| name := "x"; total := 10 |}]
           ∅
           [Rule [[ClassSelector "x"; ClassSelector "other"]] "color:red"]).
  - apply (bool_decide_unpack _). vm_compute. exact I.
  - intros j k n s Hkj Hj Hs.
    destruct j as [|[|j]]; [lia| |discriminate].
    assert (k = 0) as -> by lia. cbn in Hj. injection Hj as <-.
    vm_compute in Hs. injection Hs as <-. discriminate.
  - reflexivity.
Defined.

(** ** The orchestrator *)

Lemma eachM_processCSS_is_Some sorted asts rename :
  is_Some (eachM (processCSS sorted) rename asts).
Proof.
  apply eachM_is_Some, Forall_forall. intros ast _ s. apply processCSS_is_Some.
Qed.

Lemma plannedName_ranked sorted : forall i nodeName,
  cleanCSSIdentifier nodeName ∈ map name sorted ->
  exists j,
    map name sorted !! j = Some (cleanCSSIdentifier nodeName) /\
    plannedName i sorted nodeName = generateShortestName (i + j).
Proof.
  induction sorted as [|sel rest IH]; intros i nodeName; cbn [map plannedName].
  - by intros ?%not_elem_of_nil.
  - rewrite elem_of_cons.
    destruct (decide (cleanCSSIdentifier nodeName = name sel)) as [Heq|Hne].
    + intros _. exists 0. by rewrite Nat.add_0_r, Heq.
    + intros [Heq|Hin]; [done|]. destruct (IH (S i) nodeName Hin) as (j & Hj & Hp).
      exists (S j). split; [done|]. by rewrite Nat.add_succ_r.
Qed.

Lemma processCSS_planned sorted rename ast rename' ast' :
  NoDup (map name sorted) ->
  collisionFree (map name sorted) ->
  processCSS sorted rename ast = Some (rename', ast') ->
  Forall2 (fun n n' => plannedName 0 sorted n = Some n')
    (sheetClasses ast) (sheetClasses ast') /\
  (forall n, n ∈ sheetClasses ast -> cleanCSSIdentifier n ∈ map name sorted ->
     rename' !! cleanCSSIdentifier n = JSString <$> plannedName 0 sorted n) /\
  (forall k,
      k ∉ map name sorted \/ k ∉ map cleanCSSIdentifier (sheetClasses ast) ->
      rename' !! k = rename !! k).
Proof.
  intros Hnd Hfree Hp.
  pose proof (processCSSFrom_classes sorted 0 rename ast) as Hc.
  unfold processCSS in Hp. rewrite Hp in Hc. cbn [onResult] in Hc.
  symmetry in Hc. apply processNamesFrom_planned in Hc; [done|done|].
  intros j k sel s Hkj Hj Hs. apply (Hfree j k (name sel) s); [done| |done].
  by rewrite list_lookup_fmap, Hj.
Qed.

Lemma plannedName_same_clean sorted i n m :
  cleanCSSIdentifier n = cleanCSSIdentifier m ->
  cleanCSSIdentifier n ∈ map name sorted ->
  plannedName i sorted n = plannedName i sorted m.
Proof.
  revert i. induction sorted as [|sel rest IH]; intros i Heq; cbn [map plannedName].
  - by intros ?%not_elem_of_nil.
  - rewrite elem_of_cons, <- Heq.
    destruct (decide (cleanCSSIdentifier n = name sel)); [done|].
    intros [?|Hin]; [done|]. by apply IH.
Qed.

Lemma eachM_processCSS_planned sorted asts : forall rename rename' asts',
  NoDup (map name sorted) ->
  collisionFree (map name sorted) ->
  eachM (processCSS sorted) rename asts = Some (rename', asts') ->
  Forall2
    (fun ast ast' =>
       Forall2 (fun n n' => plannedName 0 sorted n = Some n')
         (sheetClasses ast) (sheetClasses ast'))
    asts asts' /\
  (forall n, n ∈ flat_map sheetClasses asts ->
     cleanCSSIdentifier n ∈ map name sorted ->
     rename' !! cleanCSSIdentifier n = JSString <$> plannedName 0 sorted n) /\
  (forall k,
      k ∉ map name sorted \/
      k ∉ map cleanCSSIdentifier (flat_map sheetClasses asts) ->
      rename' !! k = rename !! k).
Proof.
  induction asts as [|ast rest IH]; intros rename rename' asts' Hnd Hfree;
    cbn [eachM flat_map].
  - intros [= <- <-]. split; [constructor|]. split; [|done].
    by intros n ?%not_elem_of_nil.
  - destruct (processCSS sorted rename ast) as [[rename1 ast1]|] eqn:Hp;
      [|discriminate].
    destruct (eachM _ rename1 rest) as [[rename2 rest']|] eqn:Hrest;
      [|discriminate].
    intros [= <- <-].
    apply processCSS_planned in Hp as (Htree & Hin & Hout); [|done|done].
    apply IH in Hrest as (Htrees & Hins & Houts); [|done|done].
    split; [by constructor|]. split.
    + intros n Hn Hranked.
      destruct (decide (cleanCSSIdentifier n ∈
                          map cleanCSSIdentifier (flat_map sheetClasses rest)))
        as [(m & Hm & Hmin)%list_elem_of_fmap|Hnot].
      * rewrite Hm, (Hins m Hmin) by (by rewrite <- Hm).
        f_equal. symmetry. by apply plannedName_same_clean.
      * rewrite Houts by (by right).
        apply elem_of_app in Hn as [Hn|Hn]; [by apply Hin|].
        exfalso. apply Hnot, list_elem_of_fmap. by exists n.
    + intros k Hk. rewrite Houts, Hout; [done| |].
      * destruct Hk as [Hk|Hk]; [by left|right].
        rewrite fmap_app, not_elem_of_app in Hk. tauto.
      * destruct Hk as [Hk|Hk]; [by left|right].
        rewrite fmap_app, not_elem_of_app in Hk. tauto.
Qed.

Lemma sorted_names (classnames : Classnames) :
  Permutation (map name (sorted classnames)) (map fst classnames).
Proof.
  unfold sorted. rewrite sortDesc_perm. unfold totals. rewrite map_map.
  erewrite map_ext; [reflexivity|]. by intros [n c].
Qed.

(** *** The enumeration order *)

Lemma insertIndex_perm x l : Permutation (insertIndex x l) (x :: l).
Proof.
  induction l as [|y rest IH]; [reflexivity|].
  cbn [insertIndex]. destruct (_ <? _)%N; [|reflexivity].
  rewrite IH. apply perm_swap.
Qed.

Lemma sortIndex_perm l : Permutation (fold_right insertIndex [] l) l.
Proof.
  induction l as [|x rest IH]; [reflexivity|].
  cbn [fold_right]. rewrite insertIndex_perm. by constructor.
Qed.

(** [Object.entries] enumerates every entry once. *)
Lemma entries_perm (classnames : Classnames) :
  Permutation (entries classnames) classnames.
Proof.
  unfold entries. rewrite sortIndex_perm.
  induction classnames as [|e rest IH]; [reflexivity|].
  cbn [omap list_omap List.filter].
  destruct (arrayIndex e.1); cbn [map snd app].
  - by constructor.
  - rewrite <- Permutation_middle. by constructor.
Qed.

Lemma entries_names (classnames : Classnames) :
  Permutation (map name (sorted (entries classnames))) (map fst classnames).
Proof. by rewrite sorted_names, entries_perm. Qed.

(** *** The parse stage *)

Lemma knownName_true polluted classnames nodeName :
  knownName polluted classnames nodeName = true ->
  knownName true classnames nodeName = true.
Proof.
  intros Hk. apply (knownName_or _ true) in Hk. by rewrite orb_true_r in Hk.
Qed.

Lemma hasKey_same_keys (c1 c2 : Classnames) t :
  map fst c1 = map fst c2 -> hasKey t c1 = hasKey t c2.
Proof.
  intros Hkeys.
  destruct (hasKey t c1) eqn:H1; destruct (hasKey t c2) eqn:H2; try done.
  - apply hasKey_keys in H1. rewrite Hkeys in H1. apply hasKey_keys in H1.
    congruence.
  - apply hasKey_keys in H2. rewrite <- Hkeys in H2. apply hasKey_keys in H2.
    congruence.
Qed.

(** When the parse stage returns, the counts have the keys they had after
    the HTML files, and every class selector left in the trees, at any depth,
    has a clean identifier that is a key of the counts or the name of a
    property that objects inherit. *)
Lemma eachM_parseCSSWith_some isEmptyGuard cssFiles :
  forall (s s' : bool * Classnames) asts,
  eachM (parseCSSWith isEmptyGuard) s cssFiles = Some (s', asts) ->
  map fst s'.2 = map fst s.2 /\
  Forall (fun ast => forallb (knownName true s.2) (sheetClasses ast) = true) asts.
Proof.
  induction cssFiles as [|ast rest IH]; intros s s' asts; cbn [eachM].
  - intros [= <- <-]. by split.
  - destruct (parseCSSWith _ s ast) as [[s1 ast1]|] eqn:Hp; [|discriminate].
    destruct (eachM _ s1 rest) as [[s2 rest']|] eqn:Hrest; [|discriminate].
    intros [= <- <-].
    apply parseCSSWith_some in Hp as (_ & Hknown & ->).
    apply IH in Hrest as [Hkeys Hknown2]. cbn [snd] in Hkeys, Hknown2.
    rewrite keys_countNames in Hkeys. split; [done|]. constructor.
    + apply allKnown_known in Hknown.
      eapply forallb_impl; [|exact Hknown]. intros n. apply knownName_true.
    + eapply Forall_impl; [exact Hknown2|]. intros a Ha. cbn beta in Ha |- *.
      etrans; [|exact Ha]. apply forallb_pointwise. intros n. unfold knownName.
      apply inClassnames_same. intros t. symmetry. apply hasKey_countNames.
Qed.

Lemma html_keys polluted htmlFiles :
  let s := fold_left parseHTMLNodeChildren htmlFiles (polluted, []) in
  NoDup (map fst s.2) /\
  (forall t, t ∈ map fst s.2 -> t ∈ flat_map classTokens htmlFiles) /\
  (forall t, t ∈ flat_map classTokens htmlFiles -> plainName t = true ->
     t ∈ map fst s.2).
Proof.
  cbv zeta. rewrite parseHTML_files_tokens.
  destruct (fold_countClassName_keys (flat_map classTokens htmlFiles)
              (polluted, [])) as (Hnd & Hsub & Hsup); [constructor|].
  split; [done|]. split.
  - intros t Ht. by destruct (Hsub t Ht) as [?%not_elem_of_nil|?].
  - intros t Ht Hp. apply Hsup. by right.
Qed.

(** *** Generated names and inherited names *)

Lemma isInherited_shape name :
  isInherited true name = true ->
  exists a b rest, name = String a (String b rest) /\ isDigit b = false.
Proof.
  unfold isInherited, inherited. intros Hi.
  destruct (decide (name = "constructor")) as [->|_]; [by eexists _, _, _|].
  destruct (decide (name ∈ prototypeFunctions)) as [Hin|_].
  { unfold prototypeFunctions in Hin. rewrite !elem_of_cons in Hin.
    repeat (destruct Hin as [->|Hin]; [by eexists _, _, _|]).
    by apply not_elem_of_nil in Hin. }
  destruct (decide (name = "__proto__")) as [->|_]; [by eexists _, _, _|].
  cbn [andb] in Hi. destruct (bool_decide (name = "count")) eqn:Hc; [|done].
  apply bool_decide_eq_true in Hc as ->. by eexists _, _, _.
Qed.

(** No generated name is the name of a property that objects inherit. *)
Lemma generateShortestName_not_inherited k s :
  generateShortestName k = Some s -> isInherited true s = false.
Proof.
  destruct (generateShortestName_letter_digits k) as (c & digits & -> & _ & Hd & _).
  intros [= <-]. destruct (isInherited true _) eqn:Hi; [|done].
  apply isInherited_shape in Hi as (a & b & rest & [= -> ->] & Hb).
  cbn [list_ascii_of_string] in Hd. apply Forall_cons in Hd as [Hd _]. congruence.
Qed.

(** *** Matching *)

Section Matching.
Context (init : Rename) (sorted : list Ranked) (tokens : list string).
Hypothesis Hnd : NoDup (map name sorted).
Hypothesis Hsub : forall t, t ∈ map name sorted -> t ∈ tokens.
Hypothesis Hsup :
  forall t, t ∈ tokens -> plainName t = true -> t ∈ map name sorted.
Hypothesis Hfresh : freshTokens tokens (length sorted).
Hypothesis Hinit :
  forall t v k s,
    init !! t = Some v -> generateShortestName k = Some s ->
    JSValue_toString v <> s.
Hypothesis Hinit' :
  forall t v, init !! t = Some v -> isInherited true (JSValue_toString v) = false.

Lemma fresh_collisionFree : collisionFree (map name sorted).
Proof.
  intros j k n s Hkj Hj Hs. apply (Hfresh n k s); [| |done].
  - apply Hsub. by eapply list_elem_of_lookup_2.
  - apply lookup_lt_Some in Hj. rewrite length_map in Hj. lia.
Qed.

Lemma eachM_processCSS_matching asts rename asts' :
  Forall (fun ast =>
            forallb (fun n =>
                       bool_decide (cleanCSSIdentifier n ∈ map name sorted)
                       || isInherited true (cleanCSSIdentifier n))
              (sheetClasses ast) = true) asts ->
  eachM (processCSS sorted) init asts = Some (rename, asts') ->
  Forall2
    (fun ast ast' =>
       Forall2
         (fun n n' =>
            forall polluted t,
              t ∈ tokens -> plainName t = true ->
              cleanCSSIdentifier n' = renamedToken polluted rename t <->
              cleanCSSIdentifier n = t)
         (sheetClasses ast) (sheetClasses ast'))
    asts asts' /\
  (forall t,
      t ∉ map cleanCSSIdentifier (flat_map sheetClasses asts) ->
      rename !! t = init !! t).
Proof.
  intros Hknown Hcss.
  assert (Hentries : rankedEntries init sorted rename).
  { eapply (eachM_invariant _ (rankedEntries init sorted)); [|by left|exact Hcss].
    apply Forall_forall. intros ast _ s s' b. apply processCSS_ranked. }
  apply eachM_processCSS_planned in Hcss as (Htrees & Hin & Hout);
    [|done|apply fresh_collisionFree].
  split; [|intros t Ht; apply Hout; by right].
  apply Forall2_same_length_lookup. split; [by eapply Forall2_length|].
  intros p ast ast' Hast Hast'.
  pose proof (Forall2_lookup_lr _ _ _ _ _ _ Htrees Hast Hast') as Htree.
  cbn beta in Htree. apply list_elem_of_lookup_2 in Hast.
  rewrite Forall_forall in Hknown. pose proof (Hknown ast Hast) as Hk.
  rewrite forallb_forall in Hk.
  assert (Hsubl : forall n, n ∈ sheetClasses ast -> n ∈ flat_map sheetClasses asts).
  { intros n Hn. apply list_elem_of_In, in_flat_map. exists ast.
    split; by apply list_elem_of_In. }
  apply Forall2_same_length_lookup. split; [by eapply Forall2_length|].
  intros q n n' Hn Hn' polluted t Ht Hplain.
  pose proof (Forall2_lookup_lr _ _ _ _ _ _ Htree Hn Hn') as Hplan.
  cbn beta in Hplan. apply list_elem_of_lookup_2 in Hn.
  pose proof (inherited_plain polluted t Hplain) as Hinh.
  destruct (decide (cleanCSSIdentifier n ∈ map name sorted)) as [Hranked|Hnot].
  - destruct (plannedName_ranked sorted 0 n Hranked) as (j & Hj & Hpj).
    cbn [Nat.add] in Hpj. rewrite Hplan in Hpj. symmetry in Hpj.
    assert (Hjlen : j < length sorted).
    { apply lookup_lt_Some in Hj. by rewrite length_map in Hj. }
    assert (Hclean' : cleanCSSIdentifier n' = n')
      by (by eapply generateShortestName_clean).
    pose proof (Hin n (Hsubl n Hn) Hranked) as Hentry.
    rewrite Hplan in Hentry. cbn [fmap option_fmap option_map] in Hentry.
    rewrite Hclean'. split.
    + intros Heq.
      destruct (decide (t ∈ map cleanCSSIdentifier (flat_map sheetClasses asts)))
        as [(m & Hm & Hmin)%list_elem_of_fmap|Hno].
      * assert (Hmr : cleanCSSIdentifier m ∈ map name sorted)
          by (rewrite <- Hm; by apply Hsup).
        pose proof (Hin m Hmin Hmr) as Hentry'.
        destruct (plannedName_ranked sorted 0 m Hmr) as (j' & Hj' & Hpj').
        cbn [Nat.add] in Hpj'.
        pose proof (generateShortestName_eq j') as Hs'.
        set (s' := shortName _ _) in Hs'.
        rewrite Hpj', Hs' in Hentry'. cbn [fmap option_fmap option_map] in Hentry'.
        rewrite Hm in Heq. rewrite (renamedToken_own _ _ _ _ Hentry') in Heq.
        cbn [JSValue_toString] in Heq. rewrite <- Heq in Hs'.
        assert (j = j') as <- by (by eapply generateShortestName_inj).
        congruence.
      * exfalso. pose proof (Hout t (or_intror Hno)) as Hframe.
        destruct (init !! t) as [v|] eqn:Hi.
        -- rewrite (renamedToken_own _ _ _ v) in Heq by congruence.
           by eapply (Hinit t v j n').
        -- rewrite renamedToken_none in Heq by congruence.
           by apply (Hfresh t j n').
    + intros <-. by rewrite (renamedToken_own _ _ _ _ Hentry).
  - assert (Hinhn : isInherited true (cleanCSSIdentifier n) = true).
    { pose proof (Hk n (proj1 (list_elem_of_In _ _) Hn)) as Hkn.
      by rewrite bool_decide_eq_false_2 in Hkn. }
    rewrite plannedName_other in Hplan by done. injection Hplan as <-.
    split.
    + intros Heq. exfalso.
      destruct (rename !! t) as [v|] eqn:Hv.
      * rewrite (renamedToken_own _ _ _ _ Hv) in Heq.
        destruct (Hentries _ _ Hv) as [Hi|(i & sel & s & _ & _ & Hg & ->)].
        -- apply Hinit' in Hi. congruence.
        -- apply generateShortestName_not_inherited in Hg.
           cbn [JSValue_toString] in Heq. congruence.
      * rewrite renamedToken_none in Heq by done.
        unfold plainName in Hplain. rewrite <- Heq, Hinhn in Hplain. done.
    + intros Heq. exfalso.
      unfold plainName in Hplain. rewrite <- Heq, Hinhn in Hplain. done.
Qed.

End Matching.

Lemma renameInit_not_generated t v k s :
  renameInit !! t = Some v -> generateShortestName k = Some s ->
  JSValue_toString v <> s.
Proof.
  unfold renameInit. rewrite lookup_singleton.
  destruct (decide ("classnames" = t)) as [<-|]; [|done]. intros [= <-] Hs.
  cbn [JSValue_toString].
  destruct (generateShortestName_letter_digits k) as (c & digits & Hgen & Hc & _).
  rewrite Hgen in Hs. injection Hs as <-. intros [= <- _]. discriminate.
Qed.

Lemma renameInit_not_inherited t v :
  renameInit !! t = Some v -> isInherited true (JSValue_toString v) = false.
Proof.
  unfold renameInit. rewrite lookup_singleton.
  destruct (decide ("classnames" = t)) as [<-|]; [|done]. by intros [= <-].
Qed.

(** [rip] throws only in the CSS parse stage: it returns exactly when the
    pruning walk and the counting walk complete on every CSS file, one after
    the other; ranking and the two rewrite passes never throw. *)
Theorem rip_returns_exactly polluted htmlFiles cssFiles :
  is_Some (rip polluted htmlFiles cssFiles) <->
  is_Some (eachM parseCSS
             (fold_left parseHTMLNodeChildren htmlFiles (polluted, []))
             cssFiles).
Proof.
  unfold rip.
  destruct (eachM parseCSS _ cssFiles) as [[[polluted' classnames'] asts]|].
  - destruct (eachM_processCSS_is_Some (sorted (entries classnames')) asts
                renameInit) as [[rename asts'] ->].
    split; intros _; by eexists.
  - split; by intros [? ?].
Qed.

Section RipMatching.
Context (isEmptyGuard polluted : bool).
Context (htmlFiles : list HTMLNode) (cssFiles : list StyleSheet).
Context (s : bool * Classnames) (asts : list StyleSheet).
Hypothesis Hparse :
  eachM (parseCSSWith isEmptyGuard)
    (fold_left parseHTMLNodeChildren htmlFiles (polluted, [])) cssFiles
  = Some (s, asts).
Hypothesis Hfresh : freshTokens (flat_map classTokens htmlFiles) (length s.2).

Let ranking := sorted (entries s.2).

Lemma ranking_names :
  Permutation (map name ranking) (map fst s.2) /\
  NoDup (map name ranking) /\
  (forall t, t ∈ map name ranking -> t ∈ flat_map classTokens htmlFiles) /\
  (forall t, t ∈ flat_map classTokens htmlFiles -> plainName t = true ->
     t ∈ map name ranking) /\
  freshTokens (flat_map classTokens htmlFiles) (length ranking).
Proof.
  pose proof (entries_names s.2) as Hperm. fold ranking in Hperm.
  destruct (html_keys polluted htmlFiles) as (Hnd & Hsub & Hsup).
  apply eachM_parseCSSWith_some in Hparse as [Hkeys _].
  rewrite <- Hkeys in Hnd, Hsub, Hsup.
  split; [done|]. split; [by rewrite Hperm|].
  split; [intros t; rewrite Hperm; apply Hsub|].
  split; [intros t Ht Hp; rewrite Hperm; by apply Hsup|].
  by rewrite <- (length_map name), Hperm, length_map.
Qed.

Lemma ranking_known :
  Forall (fun ast =>
            forallb (fun n =>
                       bool_decide (cleanCSSIdentifier n ∈ map name ranking)
                       || isInherited true (cleanCSSIdentifier n))
              (sheetClasses ast) = true) asts.
Proof.
  destruct ranking_names as (Hperm & _).
  pose proof Hparse as Hp. apply eachM_parseCSSWith_some in Hp as [Hkeys Hknown].
  eapply Forall_impl; [exact Hknown|]. intros ast Ha.
  eapply forallb_impl; [|exact Ha]. intros n. unfold knownName, inClassnames.
  intros [Hk|Hi]%orb_true_iff; apply orb_true_iff; [left|by right].
  apply bool_decide_eq_true. rewrite Hperm, Hkeys. by apply hasKey_keys.
Qed.

End RipMatching.

(** When no class token of the HTML files is one of the generated names in
    use, a completed run of [rip] keeps the matching between CSS and HTML
    for the class tokens under which nothing is inherited: the HTML trees
    are rewritten with the final rename map, and a rewritten class selector
    has, as its clean identifier, the rewritten form of such a token exactly
    when the selector it comes from, in the tree the parse stage returned,
    had that token as its clean identifier. *)
Theorem rip_preserves_matching polluted htmlFiles cssFiles s asts out :
  eachM parseCSS (fold_left parseHTMLNodeChildren htmlFiles (polluted, []))
    cssFiles = Some (s, asts) ->
  rip polluted htmlFiles cssFiles = Some out ->
  freshTokens (flat_map classTokens htmlFiles) (length s.2) ->
  html out = map (processHTMLNodeChildren s.1 (renames out)) htmlFiles /\
  Forall2
    (fun ast ast' =>
       Forall2
         (fun n n' =>
            forall t,
              t ∈ flat_map classTokens htmlFiles -> plainName t = true ->
              cleanCSSIdentifier n' = renamedToken s.1 (renames out) t <->
              cleanCSSIdentifier n = t)
         (sheetClasses ast) (sheetClasses ast'))
    asts (css out).
Proof.
  intros Hparse Hrip Hfresh.
  destruct (ranking_names false polluted htmlFiles cssFiles s asts Hparse Hfresh)
    as (_ & Hnd & Hsub & Hsup & Hfresh').
  pose proof (ranking_known false polluted htmlFiles cssFiles s asts Hparse Hfresh)
    as Hknown.
  unfold rip in Hrip. rewrite Hparse in Hrip. destruct s as [polluted' classnames'].
  cbn [fst snd] in *.
  destruct (eachM _ renameInit asts) as [[rename asts']|] eqn:Hcss; [|discriminate].
  injection Hrip as <-. cbn [html css renames]. split; [done|].
  apply (eachM_processCSS_matching renameInit (sorted (entries classnames'))
           (flat_map classTokens htmlFiles) Hnd Hsub Hsup Hfresh'
           renameInit_not_generated renameInit_not_inherited) in Hcss as [Hcss _];
    [|done].
  eapply Forall2_impl; [exact Hcss|]. intros ast ast' Hast.
  eapply Forall2_impl; [exact Hast|]. intros n n' Hn t. apply Hn.
Qed.

Lemma rip_preserves_matching_witness :
  let htmlFiles := [HTMLElement "p" [("class", "big")] ["big"] []] in
  let asts := [[Rule [[ClassSelector "big"]; [ClassSelector "toString"]] "color:red"]] in
  let out :=
    {| html := [HTMLElement "p" [("class", "a")] ["big"] []];
       css := [[Rule [[ClassSelector "a"]; [ClassSelector "toString"]] "color:red"]];
       renames := <["big" := JSString "a"]> renameInit |} in
  html out = map (processHTMLNodeChildren false (renames out)) htmlFiles /\
  Forall2
    (fun ast ast' =>
       Forall2
         (fun n n' =>
            forall t,
              t ∈ flat_map classTokens htmlFiles -> plainName t = true ->
              cleanCSSIdentifier n' = renamedToken false (renames out) t <->
              cleanCSSIdentifier n = t)
         (sheetClasses ast) (sheetClasses ast'))
    asts (css out).
Proof.
  cbv zeta.
  apply (rip_preserves_matching false
           [HTMLElement "p" [("class", "big")] ["big"] []]
           [[Rule [[ClassSelector "big"]; [ClassSelector "unused"];
                   [ClassSelector "toString"]] "color:red"]]
           (false, [("big", 2)])).
  - reflexivity.
  - vm_compute. reflexivity.
  - intros t k s Ht Hk Hs. change (k < 1) in Hk. cbn in Ht.
    apply list_elem_of_singleton in Ht. subst t.
    assert (k = 0) as -> by lia. vm_compute in Hs. injection Hs as <-.
    discriminate.
Defined.

(** With fresh tokens, a name other than [classnames] under which nothing
    is inherited and that no class selector left by the parse stage has as
    its clean identifier gets no entry in the rename map of [rip], and so
    stays as it is in the rewritten HTML. *)
Theorem rip_unmatched_token polluted htmlFiles cssFiles s asts out t :
  eachM parseCSS (fold_left parseHTMLNodeChildren htmlFiles (polluted, []))
    cssFiles = Some (s, asts) ->
  rip polluted htmlFiles cssFiles = Some out ->
  freshTokens (flat_map classTokens htmlFiles) (length s.2) ->
  t <> "classnames" ->
  plainName t = true ->
  t ∉ map cleanCSSIdentifier (flat_map sheetClasses asts) ->
  renames out !! t = None /\ renamedToken s.1 (renames out) t = t.
Proof.
  intros Hparse Hrip Hfresh Hne Hplain Hnot.
  destruct (ranking_names false polluted htmlFiles cssFiles s asts Hparse Hfresh)
    as (_ & Hnd & Hsub & Hsup & Hfresh').
  unfold rip in Hrip. rewrite Hparse in Hrip. destruct s as [polluted' classnames'].
  cbn [fst snd] in *.
  destruct (eachM _ renameInit asts) as [[rename asts']|] eqn:Hcss; [|discriminate].
  injection Hrip as <-. cbn [renames].
  apply eachM_processCSS_planned in Hcss as (_ & _ & Hout);
    [|done|by apply (fresh_collisionFree _ (flat_map classTokens htmlFiles))].
  assert (Hnone : rename !! t = None).
  { rewrite Hout by (by right). unfold renameInit. by rewrite lookup_singleton_ne. }
  split; [done|]. apply renamedToken_none; [done|]. by apply inherited_plain.
Qed.

Lemma rip_unmatched_token_witness :
  let out :=
    {| html := [HTMLElement "p" [("class", "a plain")] ["big"; "plain"] []];
       css := [[Rule [[ClassSelector "a"]] "color:red"]];
       renames := <["big" := JSString "a"]> renameInit |} in
  renames out !! "plain" = None /\ renamedToken false (renames out) "plain" = "plain".
Proof.
  cbv zeta.
  apply (rip_unmatched_token false
           [HTMLElement "p" [("class", "big plain")] ["big"; "plain"] []]
           [[Rule [[ClassSelector "big"]] "color:red"]]
           (false, [("big", 2); ("plain", 1)])
           [[Rule [[ClassSelector "big"]] "color:red"]]).
  - reflexivity.
  - vm_compute. reflexivity.
  - intros t k s Ht Hk Hs. change (k < 2) in Hk. cbn in Ht.
    assert (Hk2 : k = 0 \/ k = 1) by lia.
    destruct Hk2 as [-> | ->]; vm_compute in Hs; injection Hs as <-;
      rewrite !elem_of_cons in Ht;
      destruct Ht as [->|[->|?%not_elem_of_nil]]; done.
  - discriminate.
  - reflexivity.
  - apply (bool_decide_unpack _). vm_compute. exact I.
Defined.

(** ** The build script *)

Example build_paths :
  removeFirstDir "pages/about/index.html" = "about/index.html" /\
  removeFirstDir "index.html" = "index.html" /\
  removeFirstDir "/a/b" = "b" /\
  pathToRoute "pages/about/index.html" = "/about/" /\
  pathToRoute "pages/index.html" = "/" /\
  pathToRoute "pages/contact.html" = "/contact.html" /\
  endsWith "pages/a.html" ".html" = true /\
  endsWith "l" ".html" = false /\
  concatFiles [{| path := "a"; data := "1" |}; {| path := "b"; data := "2" |}]
    = "21".
Proof. repeat split. Qed.

Lemma append_cons x (a b : string) : String x a +:+ b = String x (a +:+ b).
Proof. reflexivity. Qed.

Lemma append_assoc (a b c : string) : (a +:+ b) +:+ c = a +:+ (b +:+ c).
Proof.
  induction a as [|x a IH]; [reflexivity|]. by rewrite !append_cons, IH.
Qed.

Lemma append_nil_r (a : string) : a +:+ EmptyString = a.
Proof.
  induction a as [|x a IH]; [reflexivity|]. by rewrite append_cons, IH.
Qed.

Lemma length_append (a b : string) :
  String.length (a +:+ b) = String.length a + String.length b.
Proof.
  induction a as [|x a IH]; [reflexivity|].
  rewrite append_cons. cbn [String.length]. by rewrite IH.
Qed.

Lemma list_ascii_of_string_append (a b : string) :
  list_ascii_of_string (a +:+ b) =
  list_ascii_of_string a ++ list_ascii_of_string b.
Proof.
  induction a as [|x a IH]; [reflexivity|].
  rewrite append_cons. cbn [list_ascii_of_string app]. by rewrite IH.
Qed.

Lemma string_of_list_ascii_app (l1 l2 : list ascii) :
  string_of_list_ascii (l1 ++ l2) =
  string_of_list_ascii l1 +:+ string_of_list_ascii l2.
Proof.
  induction l1 as [|x l1 IH]; [reflexivity|].
  cbn [app string_of_list_ascii]. by rewrite append_cons, IH.
Qed.

Lemma substring_all (s : string) : substring 0 (String.length s) s = s.
Proof.
  induction s as [|x s IH]; [reflexivity|].
  cbn [String.length substring]. by rewrite IH.
Qed.

Lemma substring_append_l (a b : string) :
  substring 0 (String.length a) (a +:+ b) = a.
Proof.
  induction a as [|x a IH]; [by destruct b|].
  rewrite append_cons. cbn [String.length substring]. by rewrite IH.
Qed.

Lemma substring_append_r (a b : string) n :
  substring (String.length a) n (a +:+ b) = substring 0 n b.
Proof.
  induction a as [|x a IH]; [reflexivity|].
  rewrite append_cons. cbn [String.length substring]. by rewrite IH.
Qed.

Lemma substring_split (s : string) k :
  k <= String.length s ->
  s = substring 0 k s +:+ substring k (String.length s - k) s.
Proof.
  revert k; induction s as [|x s IH]; intros k Hk.
  - cbn in Hk. assert (k = 0) as -> by lia. reflexivity.
  - destruct k as [|k]; cbn [substring String.length Nat.sub].
    + by rewrite substring_all.
    + rewrite append_cons. cbn [String.length] in Hk.
      by rewrite <- IH by lia.
Qed.

Lemma fold_concat_acc (files : list File) a b :
  fold_left (fun acc f => data f +:+ acc) files (a +:+ b) =
  fold_left (fun acc f => data f +:+ acc) files a +:+ b.
Proof.
  revert a. induction files as [|f rest IH]; intros a; [reflexivity|].
  cbn [fold_left]. by rewrite <- append_assoc, IH.
Qed.

Lemma fold_concat (files : list File) acc :
  fold_left (fun acc f => data f +:+ acc) files acc = concatFiles files +:+ acc.
Proof. apply (fold_concat_acc files EmptyString acc). Qed.

(** The bundle holds the file contents in reverse order: the content of the
    first file comes last, and the bundle of two lists of files is the
    bundle of the second followed by the bundle of the first. *)
Theorem concatFiles_reverses :
  (forall f files, concatFiles (f :: files) = concatFiles files +:+ data f) /\
  (forall files1 files2,
      concatFiles (files1 ++ files2) = concatFiles files2 +:+ concatFiles files1).
Proof.
  split.
  - intros f files. unfold concatFiles at 1. cbn [fold_left].
    by rewrite fold_concat, append_nil_r.
  - intros files1 files2. unfold concatFiles at 1.
    by rewrite fold_left_app, fold_concat.
Qed.

Lemma endsWith_spec s x : endsWith s x = true <-> exists pre, s = pre +:+ x.
Proof.
  unfold endsWith. rewrite andb_true_iff, Nat.leb_le, String.eqb_eq. split.
  - intros [Hlen Hsub]. exists (substring 0 (String.length s - String.length x) s).
    pose proof (substring_split s (String.length s - String.length x)
                  ltac:(lia)) as Hs.
    replace (String.length s - (String.length s - String.length x))
      with (String.length x) in Hs by lia.
    by rewrite Hsub in Hs.
  - intros [pre ->]. rewrite length_append. split; [lia|].
    replace (String.length pre + String.length x - String.length x)
      with (String.length pre) by lia.
    by rewrite substring_append_r, substring_all.
Qed.

Lemma length_list_ascii_of_string (s : string) :
  length (list_ascii_of_string s) = String.length s.
Proof. induction s as [|x s IH]; [reflexivity|]. cbn. by rewrite IH. Qed.

Lemma list_suffix_shorter {A} (l1 l2 a b : list A) :
  l1 ++ a = l2 ++ b -> length a <= length b -> exists q, b = q ++ a.
Proof.
  intros Heq Hlen. remember (length b - length a) as k eqn:Hk.
  exists (take k b).
  assert (Hb : l2 ++ b = (l2 ++ take k b) ++ drop k b)
    by (by rewrite <- app_assoc, take_drop).
  rewrite Hb in Heq. apply app_inj_2 in Heq as [_ Ha].
  - rewrite Ha. symmetry. apply take_drop.
  - rewrite length_drop. lia.
Qed.

Lemma endsWith_shorter s a b :
  endsWith s a = true -> endsWith s b = true ->
  String.length a <= String.length b ->
  endsWith b a = true.
Proof.
  rewrite !endsWith_spec. intros [p1 H1] [p2 H2] Hlen.
  rewrite H1 in H2. apply (f_equal list_ascii_of_string) in H2.
  rewrite !list_ascii_of_string_append in H2.
  apply list_suffix_shorter in H2 as [q Hq];
    [|by rewrite !length_list_ascii_of_string].
  exists (string_of_list_ascii q).
  apply (f_equal string_of_list_ascii) in Hq.
  rewrite string_of_list_ascii_of_string in Hq. rewrite Hq.
  by rewrite string_of_list_ascii_app, string_of_list_ascii_of_string.
Qed.

(** A path has at most one of the three extensions the build script sorts
    files by, so no file is both an HTML and a CSS or JS file. *)
Theorem extensions_exclusive p :
  length (List.filter (endsWith p) [".html"; ".css"; ".js"]) <= 1.
Proof.
  cbn [List.filter].
  destruct (endsWith p ".html") eqn:Hhtml;
    destruct (endsWith p ".css") eqn:Hcss;
    destruct (endsWith p ".js") eqn:Hjs; cbn [length]; try lia; exfalso.
  - by pose proof (endsWith_shorter p ".css" ".html" Hcss Hhtml ltac:(cbn; lia)).
  - by pose proof (endsWith_shorter p ".css" ".html" Hcss Hhtml ltac:(cbn; lia)).
  - by pose proof (endsWith_shorter p ".js" ".html" Hjs Hhtml ltac:(cbn; lia)).
  - by pose proof (endsWith_shorter p ".js" ".css" Hjs Hcss ltac:(cbn; lia)).
Qed.

Lemma Dirent_nested_ind (P : Dirent -> Prop) :
  (forall name, P (FileEntry name)) ->
  (forall name entries, Forall P entries -> P (DirEntry name entries)) ->
  forall d, P d.
Proof.
  intros Hfile Hdir. fix IH 1. intros [name|name entries].
  - apply Hfile.
  - apply Hdir. induction entries as [|d rest IHrest]; constructor;
      [apply IH | apply IHrest].
Qed.

Lemma fold_left_pointwise {A B} (f g : A -> B -> A) l :
  Forall (fun b => forall a, f a b = g a b) l ->
  forall a, fold_left f l a = fold_left g l a.
Proof.
  induction 1 as [|b rest Hb _ IH]; intros a; [reflexivity|].
  cbn [fold_left]. by rewrite Hb, IH.
Qed.

Lemma fold_left_invariant {A B} (Inv : A -> Prop) (f : A -> B -> A) l :
  Forall (fun b => forall a, Inv a -> Inv (f a b)) l ->
  forall a, Inv a -> Inv (fold_left f l a).
Proof.
  induction 1 as [|b rest Hb _ IH]; intros a Ha; [done|].
  cbn [fold_left]. by apply IH, Hb.
Qed.

Section WalkFacts2.
Context (join : string -> string -> string) {S : Type}.
Context (exclude : list string) (fn : string -> bool -> S -> S).

Lemma walkEntry_invariant (Inv : S -> Prop) dirFirst :
  (forall p isDir s, Inv s -> Inv (fn p isDir s)) ->
  forall d path s, Inv s -> Inv (walkEntry join dirFirst exclude fn path d s).
Proof.
  intros Hfn. induction d as [name|name entries IH] using Dirent_nested_ind;
    intros path s Hs; cbn [walkEntry].
  - by apply Hfn.
  - destruct (existsb _ exclude); [done|].
    destruct dirFirst.
    + apply (fold_left_invariant Inv); [|by apply Hfn].
      eapply Forall_impl; [exact IH|]. intros d Hd a. apply Hd.
    + apply Hfn. apply (fold_left_invariant Inv); [|done].
      eapply Forall_impl; [exact IH|]. intros d Hd a. apply Hd.
Qed.

Lemma walkEntry_order :
  (forall p s, fn p true s = s) ->
  forall d path s,
    walkEntry join true exclude fn path d s =
    walkEntry join false exclude fn path d s.
Proof.
  intros Hfn. induction d as [name|name entries IH] using Dirent_nested_ind;
    intros path s; cbn [walkEntry]; [done|].
  destruct (existsb _ exclude); [done|]. rewrite !Hfn.
  apply fold_left_pointwise.
  eapply Forall_impl; [exact IH|]. intros d Hd a. apply Hd.
Qed.

End WalkFacts2.

(** Every path that [collect] returns ends with one of the extensions asked
    for and with none of the excluded suffixes, whatever the directory tree
    and the order of the callbacks. *)
Theorem collect_filters join dirFirst path extensions exclude entries :
  Forall
    (fun p =>
       existsb (endsWith p) extensions = true /\
       existsb (endsWith p) exclude = false)
    (collect join dirFirst path extensions exclude entries).
Proof.
  unfold collect, walk.
  apply (fold_left_invariant
           (Forall (fun p => existsb (endsWith p) extensions = true /\
                             existsb (endsWith p) exclude = false)));
    [|constructor].
  apply Forall_forall. intros d _ files Hfiles.
  apply walkEntry_invariant; [|done].
  clear. intros p isDir files Hfiles. unfold collectCallback.
  destruct isDir; [done|].
  destruct (existsb (endsWith p) extensions) eqn:Hext; [|done]. cbn [negb].
  destruct exclude as [|e exclude']; cbn [isEmpty negb andb].
  - apply Forall_app. split; [done|]. by repeat constructor.
  - destruct (existsb (endsWith p) (e :: exclude')) eqn:Hexc; [done|].
    apply Forall_app. split; [done|]. by repeat constructor.
Qed.

(** [collect] returns the same paths in the same order whether [walk]
    calls its callback on a directory before or after walking it: the two
    revisions of [walk] collect the same files. *)
Theorem collect_callback_order join path extensions exclude entries :
  collect join true path extensions exclude entries =
  collect join false path extensions exclude entries.
Proof.
  unfold collect, walk. apply fold_left_pointwise, Forall_forall.
  intros d _ files. by apply walkEntry_order.
Qed.

(** ** Routes *)

Lemma afterSlash_segment (dir rest : string) :
  Forall (fun c => c <> slash /\ isLineTerminator c = false)
    (list_ascii_of_string dir) ->
  afterSlash (dir +:+ String slash rest) = Some rest.
Proof.
  induction dir as [|c dir IH]; cbn [list_ascii_of_string]; intros Hdir.
  - change (EmptyString +:+ String slash rest) with (String slash rest).
    cbn [afterSlash]. by rewrite Ascii.eqb_refl.
  - apply Forall_cons in Hdir as [[Hc Hlt] Hdir]. rewrite append_cons.
    cbn [afterSlash]. destruct (Ascii.eqb_spec c slash); [done|].
    rewrite Hlt. by apply IH.
Qed.

Lemma afterSlash_none (s : string) :
  slash ∉ list_ascii_of_string s -> afterSlash s = None.
Proof.
  induction s as [|c s IH]; [done|]. cbn [list_ascii_of_string afterSlash].
  rewrite not_elem_of_cons. intros [Hc Hs].
  destruct (Ascii.eqb_spec c slash); [congruence|].
  destruct (isLineTerminator c); [done|]. by apply IH.
Qed.

(** [removeFirstDir] takes the first segment and its slash off a path, and
    the route of a page is a slash followed by the rest of its path, without
    a final index.html. *)
Theorem removeFirstDir_first_segment c dir rest :
  Forall (fun c => c <> slash /\ isLineTerminator c = false)
    (list_ascii_of_string (String c dir)) ->
  removeFirstDir (String c dir +:+ String slash rest) = rest /\
  pathToRoute (String c dir +:+ String slash (rest +:+ "index.html")) =
    "/" +:+ rest /\
  (endsWith rest "index.html" = false ->
   pathToRoute (String c dir +:+ String slash rest) = "/" +:+ rest).
Proof.
  intros Hdir.
  assert (Hrm : forall r, removeFirstDir (String c dir +:+ String slash r) = r).
  { intros r. rewrite append_cons. cbn [removeFirstDir].
    cbn [list_ascii_of_string] in Hdir.
    apply Forall_cons in Hdir as [[_ Hlt] Hdir].
    by rewrite Hlt, afterSlash_segment. }
  split; [apply Hrm|]. unfold pathToRoute. rewrite !Hrm. split.
  - f_equal. unfold stripIndexHtml.
    rewrite (proj2 (endsWith_spec _ _)) by (by exists rest).
    rewrite length_append, Nat.add_sub. apply substring_append_l.
  - intros Hno. unfold stripIndexHtml. by rewrite Hno.
Qed.

Lemma removeFirstDir_first_segment_witness :
  removeFirstDir ("pages" +:+ String slash "about/") = "about/" /\
  pathToRoute ("pages" +:+ String slash ("about/" +:+ "index.html")) =
    "/" +:+ "about/" /\
  (endsWith "about/" "index.html" = false ->
   pathToRoute ("pages" +:+ String slash "about/") = "/" +:+ "about/").
Proof.
  apply (removeFirstDir_first_segment "p" "ages" "about/").
  repeat constructor; discriminate.
Defined.

(** A path without a slash has no first segment to take off:
    [removeFirstDir] returns it as it is. *)
Theorem removeFirstDir_no_slash p :
  slash ∉ list_ascii_of_string p -> removeFirstDir p = p.
Proof.
  induction p as [|c p IH]; [done|].
  cbn [list_ascii_of_string removeFirstDir]. rewrite not_elem_of_cons.
  intros [Hc Hp]. rewrite (afterSlash_none p Hp).
  destruct (isLineTerminator c); by rewrite IH.
Qed.

Lemma removeFirstDir_no_slash_witness : removeFirstDir "head.html" = "head.html".
Proof.
  apply removeFirstDir_no_slash. apply (bool_decide_unpack _). vm_compute. exact I.
Defined.

(** ** The TypeScript revision of the orchestrator *)

Lemma eachM_pointwise {S A B} (f g : S -> A -> option (S * B)) l :
  Forall (fun a => forall s, f s a = g s a) l ->
  forall s, eachM f s l = eachM g s l.
Proof.
  induction 1 as [|a rest Ha _ IH]; intros s; [reflexivity|].
  cbn [eachM]. rewrite Ha. destruct (g s a) as [[s1 b]|]; [|done].
  by rewrite IH.
Qed.

Section WalkPointwise.
Context {S : Type} (enter1 enter2 : S -> string -> option (S * string)).
Hypothesis Henter : forall s name, enter1 s name = enter2 s name.

Lemma walkComponent_pointwise c : forall s,
  walkComponent enter1 s c = walkComponent enter2 s c.
Proof.
  induction c as [name|name children IH|type name] using Component_nested_ind;
    intros s; cbn [walkComponent]; [by rewrite Henter| |done].
  rewrite (eachM_pointwise (eachM (walkComponent enter1))
             (eachM (walkComponent enter2))); [done|].
  eapply Forall_impl; [exact IH|]. intros selector Hsel s0.
  by apply eachM_pointwise.
Qed.

Lemma walkNode_pointwise n : forall s,
  walkNode enter1 s n = walkNode enter2 s n.
Proof.
  induction n as [prelude block|prelude block|name prelude block IH|value|text]
    using CssNode_nested_ind; intros s; cbn [walkNode]; try done.
  - rewrite (eachM_pointwise (eachM (walkComponent enter1))
               (eachM (walkComponent enter2))); [done|].
    apply Forall_forall. intros selector _ s0. apply eachM_pointwise, Forall_forall.
    intros c _. apply walkComponent_pointwise.
  - by rewrite (eachM_pointwise (walkNode enter1) (walkNode enter2)).
Qed.

Lemma walkClassSelectors_pointwise ast s :
  walkClassSelectors enter1 s ast = walkClassSelectors enter2 s ast.
Proof.
  apply eachM_pointwise, Forall_forall. intros n _. apply walkNode_pointwise.
Qed.

End WalkPointwise.

Lemma renameCSSNodesFrom_processCSSFrom sorted : forall i rename ast,
  renameCSSNodesFrom i (map name sorted) rename ast =
  processCSSFrom i sorted rename ast.
Proof.
  induction sorted as [|sel rest IH]; intros i rename ast;
    cbn [map renameCSSNodesFrom processCSSFrom]; [done|].
  rewrite (walkClassSelectors_pointwise (renameNodeEnter i (name sel))
             (renameEnter i sel)).
  - destruct (walkClassSelectors _ rename ast) as [[rename1 ast1]|]; [|done].
    apply IH.
  - intros s nodeName. unfold renameNodeEnter, renameEnter.
    destruct (decide (name sel = cleanCSSIdentifier nodeName));
      destruct (decide (cleanCSSIdentifier nodeName = name sel)); congruence.
Qed.

Lemma eachM_fmap {S A A' B} (f : S -> A' -> option (S * B)) (g : A -> A') l :
  forall s, eachM (fun s a => f s (g a)) s l = eachM f s (map g l).
Proof.
  induction l as [|a rest IH]; intros s; [reflexivity|].
  cbn [eachM map]. destruct (f s (g a)) as [[s1 b]|]; [|done]. by rewrite IH.
Qed.

Lemma processHTMLNodeChildren_plain_env polluted polluted' rename node :
  forallb plainName (classTokens node) = true ->
  processHTMLNodeChildren polluted rename node =
  processHTMLNodeChildren polluted' rename node.
Proof.
  induction node as [tagName attributes classNames childNodes IH|rawText]
    using HTMLNode_nested_ind; [|reflexivity].
  cbn [classTokens processHTMLNodeChildren]. rewrite forallb_app.
  intros [Hown Hchildren]%andb_true_iff.
  assert (Hreplace : map (replaceToken polluted rename) classNames =
                     map (replaceToken polluted' rename) classNames).
  { clear -Hown. induction classNames as [|c cs IHcs]; [reflexivity|].
    cbn [forallb] in Hown. apply andb_true_iff in Hown as [Hc Hcs].
    cbn [map]. rewrite (IHcs Hcs). f_equal. unfold replaceToken.
    by rewrite !(inherited_plain _ c Hc). }
  rewrite Hreplace. f_equal.
  induction IH as [|child rest Hchild _ IHrest]; [reflexivity|].
  cbn [flat_map] in Hchildren. rewrite forallb_app in Hchildren.
  apply andb_true_iff in Hchildren as [Hc Hrest].
  cbn [map]. by rewrite (Hchild Hc), (IHrest Hrest).
Qed.

(** The TypeScript revision keeps the matching too, on pages and style
    sheets that name no inherited property, where this model speaks for it:
    when no class token of a page is one of the generated names in use, the
    page is rewritten with the rename map, a rewritten class selector has
    the rewritten form of a token as its clean identifier exactly when the
    selector it comes from, in the tree the parse stage returned, had that
    token as its clean identifier, and a name that no surviving class
    selector has as its clean identifier has no entry in the map. *)
Theorem ripPageTrees_preserves_matching polluted cssFiles page s asts r :
  eachM parseAndTrackCSSNodes
    (parseHTMLNodeChildren (polluted, []) (htmlAst page)) (map cssAst cssFiles)
  = Some (s, asts) ->
  ripPageTrees polluted cssFiles page = Some r ->
  forallb plainName (classTokens (htmlAst page)) = true ->
  Forall (fun css =>
            forallb (fun n => plainName (cleanCSSIdentifier n))
              (sheetClasses (cssAst css)) = true) cssFiles ->
  freshTokens (classTokens (htmlAst page)) (length s.2) ->
  pageHTML r = renameHTMLNodes polluted (pageRename r) (htmlAst page) /\
  Forall2
    (fun ast ast' =>
       Forall2
         (fun n n' =>
            forall t,
              t ∈ classTokens (htmlAst page) ->
              cleanCSSIdentifier n' = renamedToken polluted (pageRename r) t <->
              cleanCSSIdentifier n = t)
         (sheetClasses ast) (sheetClasses ast'))
    asts (pageCSS r) /\
  (forall t,
      t ∉ map cleanCSSIdentifier (flat_map sheetClasses asts) ->
      pageRename r !! t = None).
Proof.
  intros Hparse Hrip Hplain _ Hfresh.
  unfold ripPageTrees in Hrip. cbv zeta in Hrip. rewrite Hparse in Hrip.
  unfold parseAndTrackCSSNodes in Hparse. rewrite eachM_fmap in Hparse.
  assert (Htokens : flat_map classTokens [htmlAst page] = classTokens (htmlAst page))
    by apply app_nil_r.
  rewrite <- Htokens in Hfresh.
  destruct (ranking_names true polluted [htmlAst page] _ s asts Hparse Hfresh)
    as (_ & Hnd & Hsub & Hsup & Hfresh').
  pose proof (ranking_known true polluted [htmlAst page] _ s asts Hparse Hfresh)
    as Hknown.
  destruct s as [polluted' nodes']. cbn [fst snd] in *.
  destruct (eachM _ ∅ asts) as [[rename asts']|] eqn:Hcss; [|discriminate].
  injection Hrip as <-. cbn [pageRename pageCSS pageHTML].
  split; [by apply processHTMLNodeChildren_plain_env|].
  rewrite (eachM_pointwise (renameCSSNodes (sortedNames (entries nodes')))
             (processCSS (sorted (entries nodes')))) in Hcss.
  2:{ apply Forall_forall. intros ast _ s.
      apply renameCSSNodesFrom_processCSSFrom. }
  apply (eachM_processCSS_matching ∅ (sorted (entries nodes'))
           (flat_map classTokens [htmlAst page]) Hnd Hsub Hsup Hfresh')
    in Hcss as [Hcss Hframe]; [| |done|done].
  - split; [|by intros t Ht; rewrite Hframe].
    eapply Forall2_impl; [exact Hcss|]. intros ast ast' Hast.
    eapply Forall2_impl; [exact Hast|]. intros n n' Hn t Ht.
    apply Hn; [by rewrite Htokens|].
    rewrite forallb_forall in Hplain. by apply Hplain, list_elem_of_In.
  - by intros t v k s0 Hv.
Qed.

Lemma ripPageTrees_preserves_matching_witness :
  let page :=
    {| htmlFile := {| path := "pages/index.html"; data := EmptyString |};
       htmlAst := HTMLElement "p" [("class", "big")] ["big"] [] |} in
  let asts := [[Rule [[ClassSelector "big"]] "color:red"]] in
  let r :=
    {| pageRename := <["big" := JSString "a"]> ∅;
       pageCSS := [[Rule [[ClassSelector "a"]] "color:red"]];
       pageHTML := HTMLElement "p" [("class", "a")] ["big"] [] |} in
  pageHTML r = renameHTMLNodes false (pageRename r) (htmlAst page) /\
  Forall2
    (fun ast ast' =>
       Forall2
         (fun n n' =>
            forall t,
              t ∈ classTokens (htmlAst page) ->
              cleanCSSIdentifier n' = renamedToken false (pageRename r) t <->
              cleanCSSIdentifier n = t)
         (sheetClasses ast) (sheetClasses ast'))
    asts (pageCSS r) /\
  (forall t,
      t ∉ map cleanCSSIdentifier (flat_map sheetClasses asts) ->
      pageRename r !! t = None).
Proof.
  cbv zeta.
  apply (ripPageTrees_preserves_matching false
    [{| cssFile := {| path := "styles/a.css"; data := EmptyString |};
        cssAst := [Comment "! banner";
                   Rule [[ClassSelector "big"]; [ClassSelector "unused"]]
                     "color:red"] |}]
    {| htmlFile := {| path := "pages/index.html"; data := EmptyString |};
       htmlAst := HTMLElement "p" [("class", "big")] ["big"] [] |}
    (false, [("big", 2)])).
  - reflexivity.
  - vm_compute. reflexivity.
  - reflexivity.
  - repeat constructor.
  - intros t k s Ht Hk Hs. change (k < 1) in Hk. cbn in Ht.
    apply list_elem_of_singleton in Ht. subst t.
    assert (k = 0) as -> by lia. vm_compute in Hs. injection Hs as <-.
    discriminate.
Defined.


(** The rewrite passes of the two revisions agree: on the names of a
    ranking, [renameCSSNodes] returns the rename map and the tree that
    [processCSS] returns on the ranking. *)
Theorem renameCSSNodes_is_processCSS nodes rename ast :
  renameCSSNodes (sortedNames nodes) rename ast =
  processCSS (sorted nodes) rename ast.
Proof. apply renameCSSNodesFrom_processCSSFrom. Qed.

Lemma renameCSSNodes_is_Some classnames rename ast :
  is_Some (renameCSSNodes classnames rename ast).
Proof.
  unfold renameCSSNodes. generalize 0 as i. revert rename ast.
  induction classnames as [|classname rest IH]; intros rename ast i; [by eexists|].
  cbn [renameCSSNodesFrom].
  destruct (walkClassSelectors_is_Some (renameNodeEnter i classname)) with
    (ast := ast) (s := rename) as [[rename1 ast1] ->].
  - intros s nodeName. unfold renameNodeEnter. rewrite generateShortestName_eq.
    destruct (decide _); by eexists.
  - apply IH.
Qed.

Section RipTSFacts.
Context (generate : StyleSheet -> string) (toString : HTMLNode -> string).

Lemma ripPage_is_Some polluted cssFiles minify page :
  is_Some (ripPage generate toString polluted cssFiles minify page) <->
  is_Some (eachM parseAndTrackCSSNodes
             (parseHTMLNodeChildren (polluted, []) (htmlAst page))
             (map cssAst cssFiles)).
Proof.
  unfold ripPage, ripPageTrees. cbv zeta.
  destruct (eachM parseAndTrackCSSNodes _ _) as [[[polluted' nodes'] asts]|].
  - assert (Hren : is_Some (eachM (renameCSSNodes (sortedNames (entries nodes')))
                              ∅ asts)).
    { apply eachM_is_Some, Forall_forall. intros ast _ s.
      apply renameCSSNodes_is_Some. }
    destruct Hren as [[rename asts'] ->].
    destruct minify; split; intros _; eexists; reflexivity.
  - destruct minify; split; intros [x Hx]; discriminate.
Qed.

(** Whether the [rip] of the TypeScript revision returns does not depend
    on [minify]: the dead-rule pass runs, and can throw, either way. Without
    [minify] its result is dropped: every page comes out as it went in,
    after a style element holding the CSS files' own content, last file
    first. *)
Theorem ripTS_minify polluted htmlFiles cssFiles :
  (is_Some (ripTS generate toString polluted htmlFiles cssFiles true) <->
   is_Some (ripTS generate toString polluted htmlFiles cssFiles false)) /\
  (forall out,
      ripTS generate toString polluted htmlFiles cssFiles false = Some out ->
      out =
      map (fun page =>
             {| path := path (htmlFile page);
                data := "<style>"
                          +:+ inline (map (fun css => data (cssFile css)) cssFiles)
                          +:+ "</style>" +:+ toString (htmlAst page) |})
        htmlFiles).
Proof.
  split.
  - unfold ripTS. rewrite !mapM_is_Some, !Forall_forall.
    split; intros H page Hpage; specialize (H page Hpage); cbn [compose] in *;
      rewrite ripPage_is_Some in H |- *; done.
  - unfold ripTS. intros out Hout. apply mapM_Some_1 in Hout.
    induction Hout as [|page f rest out' Hpage _ IH]; [reflexivity|].
    cbn [map]. rewrite <- IH. f_equal. unfold ripPage in Hpage.
    destruct (eachM parseAndTrackCSSNodes _ _); [|discriminate]. congruence.
Qed.

End RipTSFacts.
